(** * eli5.xgboost: decomposition of an XGBoost prediction along decision paths

    A shallow embedding of [src/eli5/xgboost.py]: the dump parser
    ([_parse_dump_line], [parse_tree_dump]), the leaf indexer
    ([indexed_leafs]), the path decomposer ([target_feature_weights]) and the
    ensemble aggregator ([prediction_feature_weights]); with them the
    selection of the top features ([get_top_features] and its helpers, of
    [src/eli5/_feature_weights.py]) and the text report ([format_as_text],
    [_maxlen] and [_rjust_size], of [src/eli5/formatters.py]).

    Modelling conventions.
    - Python [str] values are [string]s of 8-bit characters; the character
      classes of the regular expressions are the ASCII ones.
    - Python exceptions are the constructors of [exn]; a computation that may
      raise has type [result A].
    - The nodes are Python dicts that are mutated after they have been
      created and that refer to each other (['children'], ['parent']), so
      they live in a store ([heap]) and are addressed by location.
    - Floating-point numbers are idealised as exact rationals ([Q]); the
      builtin [float()] is a parameter [py_float] of the development.  What
      depends on the rounding of binary64 is stated on the decomposer over an
      arithmetic ([target_feature_weights_with]), of which the exact
      functions are one instance and the binary64 ones ([f64_add], [f64_sub],
      [f64_mean], [decimal_float64]) another.
    - What the sources import but do not define is a parameter as well: the
      two argsort functions of [eli5.utils], and the formatting of numbers
      and class labels in the text report. *)

From Stdlib Require Import Ascii String QArith Qabs.
From stdpp Require Import gmap strings list fin_maps pretty.

(** ** Exceptions and the error monad *)

(** The key of a failed dict lookup: a field name or a node id. *)
Inductive key : Type :=
  | KStr (s : string)
  | KInt (z : Z).

(** The Python exceptions the code can raise.  [Dangling] (a location with no
    node in the store) and [Diverge] (a loop that does not end within its
    bound) are not exceptions of Python: they make the functions total on
    every store, and neither they nor [RecursionError] arise on the store of
    a well-formed tree that the parser has built (lemmas
    [indexed_leafs_total], [parsed_tree_indexed] and [ancestors_total]). *)
Inductive exn : Type :=
  | ValueError (msg : string)
  | AssertionError
  | KeyError (k : key)
  | TypeError
  | AttributeError
  | IndexError
  | RecursionError
  | Dangling
  | Diverge.

Inductive result (A : Type) : Type :=
  | Ok (a : A)
  | Raise (e : exn).
Arguments Ok {A} a.
Arguments Raise {A} e.

#[global] Instance result_ret : MRet result := fun A a => Ok a.
#[global] Instance result_bind : MBind result := fun A B f m =>
  match m with
  | Ok a => f a
  | Raise e => Raise e
  end.

Definition is_ok {A} (r : result A) : bool :=
  match r with Ok _ => true | Raise _ => false end.

(** [d[key]] on a dict field that may be absent. *)
Definition getitem {A} (k : string) (o : option A) : result A :=
  match o with
  | Some a => Ok a
  | None => Raise (KeyError (KStr k))
  end.

(** A [for] loop whose body may raise. *)
Fixpoint foldM {A B} (f : A -> B -> result A) (a : A) (l : list B) : result A :=
  match l with
  | [] => Ok a
  | b :: l' => a' ← f a b; foldM f a' l'
  end.

(** ** Characters and the pieces of the regular expressions *)

Abbreviation chars := (list ascii).

Definition is_digit (c : ascii) : bool :=
  let n := nat_of_ascii c in ((48 <=? n) && (n <=? 57))%nat.

Definition is_alpha (c : ascii) : bool :=
  let n := nat_of_ascii c in
  (((65 <=? n) && (n <=? 90)) || ((97 <=? n) && (n <=? 122)))%nat.

(** [\w] *)
Definition is_word (c : ascii) : bool :=
  is_digit c || is_alpha c || Ascii.eqb c "_".

(** [\t] *)
Definition is_tab (c : ascii) : bool := Ascii.eqb c "009".

(** [[^\]]] *)
Definition not_rbracket (c : ascii) : bool := negb (Ascii.eqb c "]").

(** [.] (anything but a newline) *)
Definition not_newline (c : ascii) : bool := negb (Ascii.eqb c "010").

(** A greedy [c*]: the longest prefix in the class, and the rest. *)
Fixpoint span (p : ascii -> bool) (s : chars) : chars * chars :=
  match s with
  | [] => ([], [])
  | c :: s' =>
      if p c then let '(a, b) := span p s' in (c :: a, b) else ([], s)
  end.

(** A greedy [c+]. *)
Definition span1 (p : ascii -> bool) (s : chars) : option (chars * chars) :=
  match span p s with
  | ([], _) => None
  | (a, b) => Some (a, b)
  end.

(** A literal. *)
Fixpoint lit (l : chars) (s : chars) : option chars :=
  match l, s with
  | [], _ => Some s
  | c :: l', d :: s' => if Ascii.eqb c d then lit l' s' else None
  | _ :: _, [] => None
  end.

(** [$] without MULTILINE: at the end, or before a newline that ends the
    string. *)
Definition at_end (s : chars) : bool :=
  match s with
  | [] => true
  | [c] => Ascii.eqb c "010"
  | _ => false
  end.

Definition str (s : string) : chars := list_ascii_of_string s.

(** [int(s)] for a non-empty run of decimal digits. *)
Definition digit_val (c : ascii) : Z := Z.of_nat (nat_of_ascii c) - 48.

Definition int_of_digits (s : chars) : Z :=
  fold_left (fun acc c => 10 * acc + digit_val c)%Z s 0%Z.

(** The seven groups of the branch pattern: tabs, digits, [:[], word
    characters, [<], characters other than the closing bracket, [] yes=],
    digits, [,no=], digits, [,missing=], digits, end. *)
Definition branch_match (line : chars)
  : option (chars * chars * chars * chars * chars * chars * chars) :=
  let '(tabs, r) := span is_tab line in
  '(node_id, r) ← span1 is_digit r;
  r ← lit (str ":[") r;
  '(feature, r) ← span1 is_word r;
  r ← lit (str "<") r;
  '(condition, r) ← span1 not_rbracket r;
  r ← lit (str "] yes=") r;
  '(yes, r) ← span1 is_digit r;
  r ← lit (str ",no=") r;
  '(no, r) ← span1 is_digit r;
  r ← lit (str ",missing=") r;
  '(missing, r) ← span1 is_digit r;
  if at_end r then Some (tabs, node_id, feature, condition, yes, no, missing)
  else None.

(** The three groups of the leaf pattern: tabs, digits, [:leaf=], any
    characters but a newline, end. *)
Definition leaf_match (line : chars) : option (chars * chars * chars) :=
  let '(tabs, r) := span is_tab line in
  '(node_id, r) ← span1 is_digit r;
  r ← lit (str ":leaf=") r;
  let '(value, r) := span not_newline r in
  if at_end r then Some (tabs, node_id, value) else None.

(** The group of the split-name pattern: [f], digits, end. *)
Definition f_num_match (s : chars) : option chars :=
  r ← lit (str "f") s;
  '(num, r) ← span1 is_digit r;
  if at_end r then Some num else None.

(** ** Nodes and the store *)

Abbreviation loc := nat.

(** A node dict.  Every key but ['nodeid'] may be absent: a branch line sets
    ['depth'], ['split'], ['split_condition'], ['yes'], ['no'] and
    ['missing']; a leaf line sets ['leaf']; the parser adds ['children'], the
    indexer ['parent'] and, on the nodes it is called on, ['leaf']. *)
Record node : Type := Node {
  depth : option nat;
  nodeid : Z;
  split : option string;
  split_condition : option Q;
  yes : option Z;
  no : option Z;
  missing : option Z;
  leaf : option Q;
  children : option (list loc);
  parent : option loc
}.

Abbreviation heap := (list node).

Definition set_children (cs : list loc) (n : node) : node :=
  Node (depth n) (nodeid n) (split n) (split_condition n) (yes n) (no n)
       (missing n) (leaf n) (Some cs) (parent n).

Definition set_parent (p : loc) (n : node) : node :=
  Node (depth n) (nodeid n) (split n) (split_condition n) (yes n) (no n)
       (missing n) (leaf n) (children n) (Some p).

Definition set_leaf (v : Q) (n : node) : node :=
  Node (depth n) (nodeid n) (split n) (split_condition n) (yes n) (no n)
       (missing n) (Some v) (children n) (parent n).

(** [n.setdefault('children', []).append(c)] *)
Definition append_child (c : loc) (n : node) : node :=
  set_children (default [] (children n) ++ [c]) n.

(** ** Numpy arrays and the feature names *)

(** The position that a numpy array of length [n] gives to the index [i]:
    a negative index counts from the end, an index outside [-n, n) raises. *)
Definition np_index (n : nat) (i : Z) : result nat :=
  if ((0 <=? i) && (i <? Z.of_nat n))%Z then Ok (Z.to_nat i)
  else if ((- Z.of_nat n <=? i) && (i <? 0))%Z then Ok (Z.to_nat (i + Z.of_nat n))
  else Raise IndexError.

(** Modelled from the spec: the feature-name mapping (class [FeatureNames],
    whose source is not part of [src/]): a lookup from split-feature token to
    index and a reserved bias index; its length counts the features and the
    bias slot. *)
Record FeatureNames : Type := {
  fn_index : list (string * Z);
  bias_idx : Z
}.

Definition len (fn : FeatureNames) : nat := S (length (fn_index fn)).

Fixpoint assoc (tok : string) (m : list (string * Z)) : option Z :=
  match m with
  | [] => None
  | (k, i) :: m' => if String.eqb k tok then Some i else assoc tok m'
  end.

Definition feature_index (fn : FeatureNames) (tok : string) : option Z :=
  assoc tok (fn_index fn).

(** A model of [float()] on plain decimal literals (sign, digits, point,
    digits), used where a concrete dump is evaluated. *)
Definition decimal_float (s : string) : option Q :=
  let cs := str s in
  let '(neg, cs) :=
    match cs with
    | "-"%char :: r => (true, r)
    | "+"%char :: r => (false, r)
    | _ => (false, cs)
    end in
  let '(ip, r) := span is_digit cs in
  let '(fp, r) :=
    match r with
    | "."%char :: r' => span is_digit r'
    | _ => ([], r)
    end in
  match ip ++ fp, r with
  | _ :: _, [] =>
      let m := int_of_digits (ip ++ fp) in
      Some (Qred (Qmake (if neg then - m else m)
                        (Z.to_pos (10 ^ Z.of_nat (length fp)))))
  | _, _ => None
  end.

(** ** Branch lines, written out from their fields *)

Record fields : Type := Fields {
  f_tabs : chars;
  f_id : chars;
  f_feature : chars;
  f_condition : chars;
  f_yes : chars;
  f_no : chars;
  f_missing : chars
}.

(** [tabs id:[feature<condition] yes=..,no=..,missing=..] *)
Definition branch_line (f : fields) : string :=
  string_of_list_ascii
    (f_tabs f ++ f_id f ++ str ":[" ++ f_feature f ++ str "<" ++
     f_condition f ++ str "] yes=" ++ f_yes f ++ str ",no=" ++ f_no f ++
     str ",missing=" ++ f_missing f).

(** A non-empty run of characters of one class. *)
Definition run (p : ascii -> bool) (s : chars) : bool :=
  match s with
  | [] => false
  | _ :: _ => forallb p s
  end.

(** The fields that the branch pattern accepts. *)
Definition wf_fields (f : fields) : bool :=
  forallb is_tab (f_tabs f) && run is_digit (f_id f) &&
  run is_word (f_feature f) && run not_rbracket (f_condition f) &&
  run is_digit (f_yes f) && run is_digit (f_no f) && run is_digit (f_missing f).

Definition with_missing (m : chars) (f : fields) : fields :=
  Fields (f_tabs f) (f_id f) (f_feature f) (f_condition f) (f_yes f) (f_no f) m.

(** The node that a branch line stands for. *)
Definition branch_node (f : fields) (c : Q) : node :=
  Node (Some (length (f_tabs f))) (int_of_digits (f_id f))
       (Some (string_of_list_ascii (f_feature f))) (Some c)
       (Some (int_of_digits (f_yes f))) (Some (int_of_digits (f_no f)))
       (Some (int_of_digits (f_missing f))) None None None.

(** Two lines of a dump that are the same but for the value of the
    [missing=] field of a branch line. *)
Inductive missing_variant : string -> string -> Prop :=
  | mv_same line : missing_variant line line
  | mv_branch f m :
      wf_fields f = true -> run is_digit m = true ->
      missing_variant (branch_line f) (branch_line (with_missing m f)).

(** A node without its ['missing'] entry. *)
Definition erase (n : node) : node :=
  Node (depth n) (nodeid n) (split n) (split_condition n) (yes n) (no n)
       None (leaf n) (children n) (parent n).

Definition rmap {A B} (f : A -> B) (r : result A) : result B :=
  match r with
  | Ok a => Ok (f a)
  | Raise e => Raise e
  end.


(** ** Leaf lines, written out from their fields *)

Record leaf_fields : Type := LeafFields {
  lf_tabs : chars;
  lf_id : chars;
  lf_value : chars
}.

(** [tabs id:leaf=value] *)
Definition leaf_line (f : leaf_fields) : string :=
  string_of_list_ascii (lf_tabs f ++ lf_id f ++ str ":leaf=" ++ lf_value f).

(** The fields that the leaf pattern accepts. *)
Definition wf_leaf_fields (f : leaf_fields) : bool :=
  forallb is_tab (lf_tabs f) && run is_digit (lf_id f) &&
  forallb not_newline (lf_value f).

(** A line that is not empty: the test [if line:] of the parser. *)
Definition nonblank (line : string) : bool :=
  match line with
  | EmptyString => false
  | String _ _ => true
  end.

(** ** Binary64 arithmetic

    A finite binary64 number is the rational it denotes (the two zeros are
    not told apart), and an operation of the code is the exact operation
    followed by the rounding to the nearest binary64 number, ties to even.
    Results beyond the largest finite number, infinities and NaN are outside
    this model. *)

(** [n / d] rounded to the nearest integer, ties to even ([0 <= n], [0 < d]). *)
Definition round_half_even (n d : Z) : Z :=
  let q := (n / d)%Z in
  match (2 * (n mod d) ?= d)%Z with
  | Lt => q
  | Gt => (q + 1)%Z
  | Eq => if Z.even q then q else (q + 1)%Z
  end.

(** [a / d] rounded to 53 significant bits, or to a multiple of [2^-1074]
    where the number is subnormal ([0 < a], [0 < d]). *)
Definition round64_pos (a d : Z) : Q :=
  let e0 := (Z.log2 a - Z.log2 d)%Z in
  let e :=
    if (if (0 <=? e0)%Z then (d * 2 ^ e0 <=? a)%Z else (d <=? a * 2 ^ (- e0))%Z)
    then e0 else (e0 - 1)%Z in
  let u := Z.max (e - 52) (-1074) in
  if (0 <=? u)%Z then inject_Z (round_half_even a (d * 2 ^ u) * 2 ^ u)
  else Qred (Qmake (round_half_even (a * 2 ^ (- u)) d) (Z.to_pos (2 ^ (- u)))).

Definition round64 (q : Q) : Q :=
  match Qnum q with
  | Z0 => 0%Q
  | Zpos a => round64_pos (Zpos a) (Zpos (Qden q))
  | Zneg a => Qopp (round64_pos (Zpos a) (Zpos (Qden q)))
  end.

(** [x + y], [x - y] and [x / y] on binary64 numbers. *)
Definition f64_add (x y : Q) : Q := round64 (x + y).
Definition f64_sub (x y : Q) : Q := round64 (x - y).
Definition f64_div (x y : Q) : Q := round64 (x / y).

(** [np.mean] of binary64 numbers: the sum, which numpy takes from left to
    right when there are fewer than eight numbers, divided by the count. *)
Definition f64_mean (vs : list Q) : Q :=
  f64_div (fold_left f64_add vs 0%Q) (inject_Z (Z.of_nat (length vs))).

(** [float()] on plain decimal literals: the nearest binary64 number. *)
Definition decimal_float64 (s : string) : option Q :=
  round64 <$> decimal_float s.

(** ** Concrete dumps and feature names *)

Definition nl : string := String "010" EmptyString.
Definition tab : string := String "009" EmptyString.

(** [n] newline characters: a dump of [n + 1] empty lines. *)
Fixpoint newlines (n : nat) : string :=
  match n with
  | O => EmptyString
  | S n' => String "010" (newlines n')
  end.

(** The dump of the scenario as the spec writes it (no indentation), and
    the same tree as the booster dumps it (children indented by a tab). *)
Definition dump_flat : string :=
  String.concat nl
    ["0:[f0<0.5] yes=1,no=2,missing=1"; "1:leaf=-0.2"; "2:leaf=0.4"; ""].

Definition dump_tree : string :=
  String.concat nl
    ["0:[f0<0.5] yes=1,no=2,missing=1"; tab +:+ "1:leaf=-0.2";
     tab +:+ "2:leaf=0.4"; ""].

(** The same tree with another [missing=] value, with the split on [f1],
    and with a split on a named feature. *)
Definition dump_tree_missing2 : string :=
  String.concat nl
    ["0:[f0<0.5] yes=1,no=2,missing=2"; tab +:+ "1:leaf=-0.2";
     tab +:+ "2:leaf=0.4"; ""].

Definition dump_f1 : string :=
  String.concat nl
    ["0:[f1<0.5] yes=1,no=2,missing=1"; tab +:+ "1:leaf=-0.2";
     tab +:+ "2:leaf=0.4"; ""].

Definition dump_age : string :=
  String.concat nl
    ["0:[age<0.5] yes=1,no=2,missing=1"; tab +:+ "1:leaf=-0.2";
     tab +:+ "2:leaf=0.4"; ""].

(** A tree that is a single leaf, two lines of depth 0, a line two levels
    below the previous one, and a line of neither shape. *)
Definition dump_single_leaf : string := "0:leaf=0.5".

Definition dump_two_roots : string :=
  String.concat nl ["0:leaf=1"; "0:leaf=2"].

Definition dump_depth_jump : string :=
  String.concat nl
    ["0:[f0<0.5] yes=1,no=2,missing=1"; tab +:+ tab +:+ "1:leaf=-0.2"].

Definition dump_bad_line : string :=
  String.concat nl ["0:[f0<0.5] yes=1,no=2,missing=1"; "1:leaf"].

(** [dump_tree] with empty lines between its lines. *)
Definition dump_tree_spaced : string :=
  String.concat nl
    ["0:[f0<0.5] yes=1,no=2,missing=1"; ""; tab +:+ "1:leaf=-0.2"; ""; "";
     tab +:+ "2:leaf=0.4"].

(** A tree whose leaves have the values 100000000 and 0.1, and one whose
    leaves have the values 100000000000000000 and 1. *)
Definition dump_large : string :=
  String.concat nl
    ["0:[f0<0.5] yes=1,no=2,missing=1"; tab +:+ "1:leaf=100000000";
     tab +:+ "2:leaf=0.1"; ""].

Definition dump_huge : string :=
  String.concat nl
    ["0:[f0<0.5] yes=1,no=2,missing=1"; tab +:+ "1:leaf=100000000000000000";
     tab +:+ "2:leaf=1"; ""].

(** The split token [f5], which gives the index 4, and the feature names
    [{f5: 0, bias: 1}]. *)
Definition dump_f5 : string :=
  String.concat nl
    ["0:[f5<0.5] yes=1,no=2,missing=1"; tab +:+ "1:leaf=-0.2";
     tab +:+ "2:leaf=0.4"; ""].

Definition fn_f5 : FeatureNames := {| fn_index := [("f5", 0%Z)]; bias_idx := 1 |}.

(** The fields of the last line of [dump_tree]. *)
Definition leaf_fields_no : leaf_fields :=
  LeafFields (str tab) (str "2") (str "0.4").

(** The fields of the first line of [dump_tree]. *)
Definition root_fields : fields :=
  Fields [] (str "0") (str "f0") (str "0.5") (str "1") (str "2") (str "1").

(** [{age: 0, bias: 1}] *)
Definition fn_age : FeatureNames := {| fn_index := [("age", 0%Z)]; bias_idx := 1 |}.

(** [{f0: 0, bias: 1}] *)
Definition fn_f0 : FeatureNames := {| fn_index := [("f0", 0%Z)]; bias_idx := 1 |}.

Section Xgboost.

(** The builtin [float()]: [None] stands for its [ValueError]. *)
Variable py_float : string -> option Q.

Definition float (s : chars) : result Q :=
  let s' := string_of_list_ascii s in
  match py_float s' with
  | Some q => Ok q
  | None => Raise (ValueError ("could not convert string to float: " +:+ s'))
  end.

(** ** [_parse_dump_line] *)

Definition _parse_dump_line (line : string) : result (nat * node) :=
  match branch_match (str line) with
  | Some (tabs, node_id, feature, condition, yes_, no_, missing_) =>
      let depth := length tabs in
      c ← float condition;
      Ok (depth,
          Node (Some depth) (int_of_digits node_id)
               (Some (string_of_list_ascii feature)) (Some c)
               (Some (int_of_digits yes_)) (Some (int_of_digits no_))
               (Some (int_of_digits missing_)) None None None)
  | None =>
      match leaf_match (str line) with
      | Some (tabs, node_id, value) =>
          let depth := length tabs in
          v ← float value;
          Ok (depth,
              Node None (int_of_digits node_id) None None None None None
                   (Some v) None None)
      | None => Raise (ValueError ("Line in unexpected format: " +:+ line))
      end
  end.

(** ** [parse_tree_dump] *)

(** [text.split('\n')] *)
Fixpoint split_lines (s : string) : list string :=
  match s with
  | EmptyString => [EmptyString]
  | String c s' =>
      if Ascii.eqb c "010" then EmptyString :: split_lines s'
      else match split_lines s' with
           | l :: ls => String c l :: ls
           | [] => [String c EmptyString]
           end
  end.

(** The variables of the loop, and the store the nodes live in. *)
Record pstate : Type := PState {
  p_heap : heap;
  p_result : option loc;
  p_stack : list loc
}.

(** The body of the loop once the line is parsed: the new node is put in
    the store and attached to the tree. *)
Definition place_node (st : pstate) (depth : nat) (nd : node) : result pstate :=
  let l := length (p_heap st) in
  let h := p_heap st ++ [nd] in
  if (depth =? 0)%nat then
    match p_stack st with
    | [] => Ok (PState h (Some l) [l])
    | _ :: _ => Raise AssertionError
    end
  else if (length (p_stack st) <? depth)%nat then
    Raise (ValueError "Unexpected dump structure")
  else
    let stack :=
      if (depth <? length (p_stack st))%nat then take depth (p_stack st)
      else p_stack st in
    match last stack with
    | None => Raise IndexError
    | Some top =>
        Ok (PState (alter (append_child l) top h) (p_result st) (stack ++ [l]))
    end.

Definition parse_step (st : pstate) (line : string) : result pstate :=
  match line with
  | EmptyString => Ok st
  | _ =>
      '(depth, nd) ← _parse_dump_line line;
      place_node st depth nd
  end.

Definition parse_lines (lines : list string) : result pstate :=
  foldM parse_step (PState [] None []) lines.

(** The result is the store with the root's location, or [None]. *)
Definition parse_tree_dump (text_dump : string) : result (heap * option loc) :=
  st ← parse_lines (split_lines text_dump);
  Ok (p_heap st, p_result st).

(** ** [indexed_leafs] *)

Definition node_at (h : heap) (l : loc) : result node :=
  match h !! l with
  | Some n => Ok n
  | None => Raise Dangling
  end.

Definition Qsum (vs : list Q) : Q := fold_left Qplus vs 0%Q.

(** [np.mean], in exact arithmetic; [f64_mean] is the mean as binary64
    computes it. *)
Definition mean (vs : list Q) : Q := (Qsum vs / inject_Z (Z.of_nat (length vs)))%Q.

(** [[child['leaf'] for child in children]] *)
Fixpoint child_leafs (h : heap) (cs : list loc) : result (list Q) :=
  match cs with
  | [] => Ok []
  | c :: cs' =>
      cn ← node_at h c;
      v ← getitem "leaf" (leaf cn);
      vs ← child_leafs h cs';
      Ok (v :: vs)
  end.

(** The body of the loop over the children; [rec] is the recursive call. *)
Definition index_child (rec : heap -> loc -> result (heap * gmap Z loc))
    (parent : loc) (st : heap * gmap Z loc) (child : loc)
  : result (heap * gmap Z loc) :=
  let '(h, indexed) := st in
  let h := alter (set_parent parent) child h in
  cn ← node_at h child;
  match leaf cn with
  | Some _ => Ok (h, <[nodeid cn := child]> indexed)
  | None =>
      '(h, sub) ← rec h child;
      Ok (h, sub ∪ indexed)
  end.

(** The recursion is bounded by [fuel]; beyond it, [RecursionError]. *)
Fixpoint indexed_leafs (fuel : nat) (h : heap) (parent : loc)
  : result (heap * gmap Z loc) :=
  match fuel with
  | O => Raise RecursionError
  | S fuel' =>
      pn ← node_at h parent;
      cs ← getitem "children" (children pn);
      '(h, indexed) ← foldM (index_child (indexed_leafs fuel') parent) (h, ∅) cs;
      vs ← child_leafs h cs;
      Ok (alter (set_leaf (mean vs)) parent h, indexed)
  end.

(** ** [target_feature_weights] *)

(** [path = [leaf]; while 'parent' in path[-1]: path.append(...)]: the leaf,
    its parent, ..., the root. *)
Fixpoint ancestors (fuel : nat) (h : heap) (l : loc) : result (list loc) :=
  match fuel with
  | O => Raise Diverge
  | S fuel' =>
      n ← node_at h l;
      match parent n with
      | None => Ok [l]
      | Some p => rest ← ancestors fuel' h p; Ok (l :: rest)
      end
  end.

(** [int(f_num_match.groups()[0]) - 1] *)
Definition feature_idx (split_name : string) : result Z :=
  match f_num_match (str split_name) with
  | None => Raise AttributeError
  | Some num => Ok (int_of_digits num - 1)%Z
  end.

(** [a[i] += v], where the evaluation of [v] may raise: the element is
    fetched before [v] is evaluated.  The addition is exact here;
    [np_iadd_with f64_add] is the statement as binary64 computes it. *)
Definition np_iadd (a : list Q) (i : Z) (v : result Q) : result (list Q) :=
  k ← np_index (length a) i;
  x ← v;
  Ok (alter (fun y => (y + x)%Q) k a).

(** The body of the loop over [zip(path, path[1:])]. *)
Definition split_change (h : heap) (feature_weights : list Q)
    (pc : loc * loc) : result (list Q) :=
  let '(p, c) := pc in
  pn ← node_at h p;
  s ← getitem "split" (split pn);
  i ← feature_idx s;
  np_iadd feature_weights i
    (cn ← node_at h c;
     a ← getitem "leaf" (leaf cn);
     b ← getitem "leaf" (leaf pn);
     Ok (a - b)%Q).

(** The body of the loop over [zip(tree_dumps, leaf_ids)]. *)
Definition tree_weights (fn : FeatureNames) (acc : Q * list Q)
    (dl : string * Z) : result (Q * list Q) :=
  let '(score, feature_weights) := acc in
  let '(text_dump, leaf_id) := dl in
  '(h0, root) ← parse_tree_dump text_dump;
  root ← match root with Some r => Ok r | None => Raise TypeError end;
  '(h, indexed) ← indexed_leafs (length h0) h0 root;
  l ← match indexed !! leaf_id with
       | Some l => Ok l
       | None => Raise (KeyError (KInt leaf_id))
       end;
  ln ← node_at h l;
  v ← getitem "leaf" (leaf ln);
  let score := (score + v)%Q in
  up ← ancestors (length h) h l;
  let path := rev up in
  feature_weights ← foldM (split_change h) feature_weights (zip path (tail path));
  feature_weights ←
    np_iadd feature_weights (bias_idx fn)
      (match path with
       | [] => Raise IndexError
       | r :: _ => rn ← node_at h r; getitem "leaf" (leaf rn)
       end);
  Ok (score, feature_weights).

Definition target_feature_weights (leaf_ids : list Z) (tree_dumps : list string)
    (feature_names : FeatureNames) : result (Q * list Q) :=
  foldM (tree_weights feature_names)
        (0%Q, replicate (len feature_names) 0%Q)
        (zip tree_dumps leaf_ids).

(** ** [prediction_feature_weights] *)

(** [range(0, stop, step)] *)
Definition range0 (stop step : nat) : result (list nat) :=
  match step with
  | O => Raise (ValueError "range() arg 3 must not be zero")
  | S _ => Ok (map (fun k => k * step) (seq 0 (Nat.div (stop + step - 1) step)))
  end.

(** [l[start:stop]] *)
Definition slice {A} (l : list A) (start stop : nat) : list A :=
  take (stop - start) (drop start l).

(** The booster is outside the code modelled here: what it returns
    ([leaf_ids], [tree_dumps]) and [clf.n_estimators] are arguments. *)
Definition prediction_feature_weights (leaf_ids : list Z)
    (tree_dumps : list string) (n_estimators : nat)
    (feature_names : FeatureNames) : result (list (Q * list Q)) :=
  if (length tree_dumps =? length leaf_ids)%nat then
    starts ← range0 (length leaf_ids) n_estimators;
    foldM (fun scores_weights start_idx =>
             let end_idx := start_idx + n_estimators in
             sw ← target_feature_weights
                    (slice leaf_ids start_idx end_idx)
                    (slice tree_dumps start_idx end_idx)
                    feature_names;
             Ok (scores_weights ++ [sw]))
          [] starts
  else Raise AssertionError.

(** ** Notions used in the statements *)

(** The aggregate value (the ['leaf'] entry) of the node at a location. *)
Definition leaf_val (h : heap) (l : loc) : Q :=
  match h !! l with
  | Some n => default 0%Q (leaf n)
  | None => 0%Q
  end.

Definition has_leaf (h : heap) (l : loc) : Prop :=
  exists n v, h !! l = Some n /\ leaf n = Some v.

(** A node without the entries that the indexer writes. *)
Definition strip (n : node) : node :=
  Node (depth n) (nodeid n) (split n) (split_condition n) (yes n) (no n)
       (missing n) None (children n) None.

(** [h'] is [h] after some steps of the indexer: the same nodes, whose
    parsed entries have not changed and whose ['leaf'] entry, once there, has
    kept its value. *)
Definition evolves (h h' : heap) : Prop :=
  length h' = length h /\
  forall l n, h !! l = Some n ->
    exists n', h' !! l = Some n' /\ strip n' = strip n /\
               forall v, leaf n = Some v -> leaf n' = Some v.

(** The aggregate value of the node at [q] is the mean of the aggregate
    values of its children. *)
Definition agg_ok (h : heap) (q : loc) : Prop :=
  exists n cs vs,
    h !! q = Some n /\ children n = Some cs /\
    child_leafs h cs = Ok vs /\ leaf n = Some (mean vs).

(** The children of a node were created after it. *)
Definition children_gt (h : heap) : Prop :=
  forall p n cs c,
    h !! p = Some n -> children n = Some cs -> c ∈ cs -> p < c < length h.

(** What a call [indexed_leafs _ h p] that returns [(h', idx)] has done. *)
Record ipost (h : heap) (p : loc) (h' : heap) (idx : gmap Z loc) : Prop := {
  ip_evolves : evolves h h';
  ip_below : forall l, l < p -> h' !! l = h !! l;
  ip_self_parent :
    forall n', h' !! p = Some n' ->
      exists n, h !! p = Some n /\ parent n' = parent n;
  ip_leaf : has_leaf h' p;
  ip_agg : forall q, has_leaf h' q -> has_leaf h q \/ agg_ok h' q;
  ip_parent :
    forall l n' q, h' !! l = Some n' -> parent n' = Some q ->
      (exists n, h !! l = Some n /\ parent n = Some q) \/
      (q < l /\ has_leaf h' q);
  ip_idx :
    forall k l, idx !! k = Some l ->
      exists n, h' !! l = Some n /\ nodeid n = k /\ is_Some (leaf n)
}.

(** The invariant of the loop over the children of [p]. *)
Record linv (h : heap) (p : loc) (hi : heap) (idx : gmap Z loc) : Prop := {
  li_evolves : evolves h hi;
  li_below : forall l, l <= p -> hi !! l = h !! l;
  li_agg : forall q, has_leaf hi q -> has_leaf h q \/ agg_ok hi q;
  li_parent :
    forall l n' q, hi !! l = Some n' -> parent n' = Some q ->
      (exists n, h !! l = Some n /\ parent n = Some q) \/
      (q < l /\ (q = p \/ has_leaf hi q));
  li_idx :
    forall k l, idx !! k = Some l ->
      exists n, hi !! l = Some n /\ nodeid n = k /\ is_Some (leaf n)
}.

(** The split feature of the node at [p] has the form that the decomposer
    expects, and the index computed from it is one of the [slots] positions
    of the vector. *)
Definition split_ok (slots : nat) (h : heap) (p : loc) : bool :=
  match h !! p with
  | Some pn =>
      match split pn with
      | Some s =>
          match feature_idx s with
          | Ok i => is_ok (np_index slots i)
          | Raise _ => false
          end
      | None => false
      end
  | None => false
  end.

(** Every node has a ['leaf'] or children: the shape of a dumped tree. *)
Definition branches_have_children (h : heap) : Prop :=
  forall l n, h !! l = Some n -> leaf n = None -> is_Some (children n).

(** The ['parent'] of a node was created before the node. *)
Definition parents_lt (h : heap) : Prop :=
  forall l n q, h !! l = Some n -> parent n = Some q -> q < l.

(** The state of the parser with the ['missing'] entries erased. *)
Definition perase (st : pstate) : pstate :=
  PState (erase <$> p_heap st) (p_result st) (p_stack st).

Definition herase (hi : heap * gmap Z loc) : heap * gmap Z loc :=
  (erase <$> hi.1, hi.2).

(** The part of [tree_weights] that follows the parser. *)
Definition tree_weights_parsed (fn : FeatureNames) (acc : Q * list Q)
    (leaf_id : Z) (parsed : heap * option loc) : result (Q * list Q) :=
  let '(score, feature_weights) := acc in
  let '(h0, root) := parsed in
  root ← match root with Some r => Ok r | None => Raise TypeError end;
  '(h, indexed) ← indexed_leafs (length h0) h0 root;
  l ← match indexed !! leaf_id with
       | Some l => Ok l
       | None => Raise (KeyError (KInt leaf_id))
       end;
  ln ← node_at h l;
  v ← getitem "leaf" (leaf ln);
  let score := (score + v)%Q in
  up ← ancestors (length h) h l;
  let path := rev up in
  feature_weights ← foldM (split_change h) feature_weights (zip path (tail path));
  feature_weights ←
    np_iadd feature_weights (bias_idx fn)
      (match path with
       | [] => Raise IndexError
       | r :: _ => rn ← node_at h r; getitem "leaf" (leaf rn)
       end);
  Ok (score, feature_weights).

(** The invariant of the parser's loop. *)
Record pinv (st : pstate) : Prop := {
  pi_gt : children_gt (p_heap st);
  pi_parent : forall l n, p_heap st !! l = Some n -> parent n = None;
  pi_stack : forall s, s ∈ p_stack st -> s < length (p_heap st);
  pi_empty : p_stack st = [] -> p_heap st = [] /\ p_result st = None;
  pi_root : p_stack st <> [] -> p_result st = Some 0;
  pi_child :
    forall l, 0 < l < length (p_heap st) ->
      exists p n cs,
        p_heap st !! p = Some n /\ children n = Some cs /\ l ∈ cs
}.

(** The store of [dump_tree] after the parser, and after the indexer. *)
Definition node_root : node :=
  Node (Some 0) 0 (Some "f0") (Some (1 # 2)) (Some 1%Z) (Some 2%Z) (Some 1%Z)
       None (Some [1; 2]) None.
Definition node_yes : node :=
  Node None 1 None None None None None (Some (-1 # 5)) None None.
Definition node_no : node :=
  Node None 2 None None None None None (Some (2 # 5)) None None.

Definition tree_parsed : heap := [node_root; node_yes; node_no].

(** The root before it has children, and the nodes of [dump_two_roots]. *)
Definition node_root_bare : node :=
  Node (Some 0) 0 (Some "f0") (Some (1 # 2)) (Some 1%Z) (Some 2%Z) (Some 1%Z)
       None None None.
Definition node_one : node :=
  Node None 0 None None None None None (Some 1%Q) None None.
Definition node_two : node :=
  Node None 0 None None None None None (Some (2 # 1)) None None.

Definition tree_indexed : heap :=
  [set_leaf (mean [-1 # 5; 2 # 5]) node_root; set_parent 0 node_yes;
   set_parent 0 node_no].

Definition tree_index : gmap Z loc := <[2%Z := 2]> (<[1%Z := 1]> ∅).

(** The stores of [dump_f5] and of [dump_age], which differ from those of
    [dump_tree] by the split token of the root. *)
Definition with_split (s : string) (n : node) : node :=
  Node (depth n) (nodeid n) (Some s) (split_condition n) (yes n) (no n)
       (missing n) (leaf n) (children n) (parent n).

Definition tree_parsed_f5 : heap := [with_split "f5" node_root; node_yes; node_no].
Definition tree_indexed_f5 : heap :=
  [with_split "f5" (set_leaf (mean [-1 # 5; 2 # 5]) node_root);
   set_parent 0 node_yes; set_parent 0 node_no].

Definition tree_parsed_age : heap := [with_split "age" node_root; node_yes; node_no].
Definition tree_indexed_age : heap :=
  [with_split "age" (set_leaf (mean [-1 # 5; 2 # 5]) node_root);
   set_parent 0 node_yes; set_parent 0 node_no].


(** The node at [p] has the node at [c] among its children. *)
Definition is_child (h : heap) (p c : loc) : Prop :=
  exists n cs, h !! p = Some n /\ children n = Some cs /\ c ∈ cs.

(** The number of tabs that a line starts with. *)
Definition line_depth (line : string) : nat :=
  length (span is_tab (str line)).1.

Definition without_children (n : node) : node :=
  Node (depth n) (nodeid n) (split n) (split_condition n) (yes n) (no n)
       (missing n) (leaf n) None (parent n).

(** The node [n] of the store is what [_parse_dump_line] makes of [line],
    but for the children it got since. *)
Definition node_of_line (line : string) (n : node) : Prop :=
  exists nd,
    _parse_dump_line line = Ok (line_depth line, nd) /\ without_children n = nd.

(** How the store and the stack of the parser relate to the non-empty lines
    [ls] read so far. *)
Record pshape (ls : list string) (st : pstate) : Prop := {
  ps_nodes : Forall2 node_of_line ls (p_heap st);
  ps_stack :
    forall i s, p_stack st !! i = Some s ->
      exists line, ls !! s = Some line /\ line_depth line = i;
  ps_stack0 : forall s, p_stack st !! 0 = Some s -> s = 0;
  ps_between :
    forall i s j line, p_stack st !! i = Some s -> s < j ->
      ls !! j = Some line -> i < line_depth line;
  ps_edge :
    forall p c, is_child (p_heap st) p c ->
      p < c < length (p_heap st) /\
      exists lp lc,
        ls !! p = Some lp /\ ls !! c = Some lc /\
        line_depth lc = S (line_depth lp) /\
        forall j lj, p < j < c -> ls !! j = Some lj ->
          line_depth lp < line_depth lj;
  ps_unique :
    forall p q c, is_child (p_heap st) p c -> is_child (p_heap st) q c -> p = q;
  ps_nodup :
    forall p n cs, p_heap st !! p = Some n -> children n = Some cs ->
      NoDup cs /\ cs <> []
}.


(** A sequence of [a[k] += x]. *)
Definition apply_updates (upd : list (nat * Q)) (a : list Q) : list Q :=
  fold_left (fun a u => alter (fun y => (y + u.2)%Q) u.1 a) upd a.

(** The sum of two vectors, entry by entry. *)
Definition vadd (a b : list Q) : list Q := zip_with Qplus a b.

(** The position in a vector of [slots] entries that the decomposer derives
    from the split feature of the node at [p], if any. *)
Definition split_pos (slots : nat) (h : heap) (p : loc) : option nat :=
  match h !! p with
  | Some pn =>
      match split pn with
      | Some s =>
          match feature_idx s with
          | Ok i =>
              match np_index slots i with
              | Ok k => Some k
              | Raise _ => None
              end
          | Raise _ => None
          end
      | None => None
      end
  | None => None
  end.


(** ** [get_top_features] and its helpers ([_feature_weights.py]) *)

(** [a[indices]] for a numpy array [a] and an array of indices. *)
Fixpoint np_take {A} (a : list A) (indices : list Z) : result (list A) :=
  match indices with
  | [] => Ok []
  | i :: indices' =>
      k ← np_index (length a) i;
      x ← match a !! k with Some x => Ok x | None => Raise IndexError end;
      xs ← np_take a indices';
      Ok (x :: xs)
  end.

(** [value > 0] and [value < 0] *)
Definition is_positive (v : Q) : bool := negb (Qle_bool v 0).
Definition is_negative (v : Q) : bool := negb (Qle_bool 0 v).

Definition _positive (features : list (string * Q)) : list (string * Q) :=
  List.filter (fun nv => is_positive nv.2) features.

Definition _negative (features : list (string * Q)) : list (string * Q) :=
  List.filter (fun nv => is_negative nv.2) features.

Definition _features (indices : list Z) (feature_names : list string)
    (coef : list Q) : result (list (string * Q)) :=
  match indices with
  | [] => Ok []
  | _ :: _ =>
      names ← np_take feature_names indices;
      values ← np_take coef indices;
      Ok (zip names values)
  end.

(** The argument [top]: a number (or [None]), or a list or tuple. *)
Inductive top_arg (K : Type) : Type :=
  | TopNum (k : K)
  | TopSeq (ks : list K).
#[global] Arguments TopNum {K} k.
#[global] Arguments TopSeq {K} ks.

Section TopFeatures.

(** [argsort_k_largest] and [argsort_k_smallest] come from [eli5.utils],
    which is not among the sources: they are parameters, with [K] the type
    of their second argument. *)
Variable K : Type.
Variable argsort_k_largest : list Q -> K -> list Z.
Variable argsort_k_smallest : list Q -> K -> list Z.

Definition _get_top_abs_features (feature_names : list string) (coef : list Q)
    (k : K) : result (list (string * Q) * list (string * Q)) :=
  let indices := argsort_k_largest (Qabs <$> coef) k in
  features ← _features indices feature_names coef;
  Ok (_positive features, _negative features).

Definition _get_top_positive_features (feature_names : list string)
    (coef : list Q) (k : K) : result (list (string * Q)) :=
  let indices := argsort_k_largest coef k in
  features ← _features indices feature_names coef;
  Ok (_positive features).

Definition _get_top_negative_features (feature_names : list string)
    (coef : list Q) (k : K) : result (list (string * Q)) :=
  let indices := argsort_k_smallest coef k in
  features ← _features indices feature_names coef;
  Ok (_negative features).

Definition get_top_features (feature_names : list string) (coef : list Q)
    (top : top_arg K) : result (list (string * Q) * list (string * Q)) :=
  match top with
  | TopSeq [num_pos; num_neg] =>
      pos ← _get_top_positive_features feature_names coef num_pos;
      neg ← _get_top_negative_features feature_names coef num_neg;
      Ok (pos, neg)
  | TopSeq _ => Raise (ValueError "wrong number of values to unpack")
  | TopNum k => _get_top_abs_features feature_names coef k
  end.

End TopFeatures.


(** The indices among which [get_top_features] picks the positive and the
    negative features. *)
Definition selected_for_pos {K} (argsort_k_largest : list Q -> K -> list Z)
    (coef : list Q) (top : top_arg K) : list Z :=
  match top with
  | TopNum k => argsort_k_largest (Qabs <$> coef) k
  | TopSeq [num_pos; _] => argsort_k_largest coef num_pos
  | TopSeq _ => []
  end.

Definition selected_for_neg {K}
    (argsort_k_largest argsort_k_smallest : list Q -> K -> list Z)
    (coef : list Q) (top : top_arg K) : list Z :=
  match top with
  | TopNum k => argsort_k_largest (Qabs <$> coef) k
  | TopSeq [_; num_neg] => argsort_k_smallest coef num_neg
  | TopSeq _ => []
  end.

(** The pair [nv] is the name and the coefficient at the position of the
    index [i]. *)
Definition feature_at (feature_names : list string) (coef : list Q) (i : Z)
    (nv : string * Q) : Prop :=
  exists k,
    np_index (length coef) i = Ok k /\
    feature_names !! k = Some nv.1 /\ coef !! k = Some nv.2.


(** ** The contract of the indexer *)

(** The nodes below the node at a location, that node included. *)
Definition desc (h : heap) : loc -> loc -> Prop := rtc (is_child h).

(** A store that is a forest of dumped trees: children are created after
    their parent, no node is a child twice, and no node with a ['leaf'] has
    children. *)
Record tree_store (h : heap) : Prop := {
  ts_gt : children_gt h;
  ts_unique : forall p q c, is_child h p c -> is_child h q c -> p = q;
  ts_nodup :
    forall p n cs, h !! p = Some n -> children n = Some cs -> NoDup cs;
  ts_leaf :
    forall l n, h !! l = Some n -> is_Some (leaf n) -> children n = None
}.

(** What a call [indexed_leafs _ h p] that returns [(h', idx)] has done,
    in terms of the store [h0] that the parser built. *)
Record icontract (h0 h : heap) (p : loc) (h' : heap) (idx : gmap Z loc)
  : Prop := {
  ic_frame : forall q, ~ desc h0 p q -> h' !! q = h !! q;
  ic_sound :
    forall k l, idx !! k = Some l ->
      exists n, h0 !! l = Some n /\ nodeid n = k /\ is_Some (leaf n) /\
                desc h0 p l;
  ic_complete :
    forall l n, desc h0 p l -> h0 !! l = Some n -> is_Some (leaf n) ->
      is_Some (idx !! nodeid n);
  ic_parent :
    forall l q, desc h0 p l -> l <> p -> is_child h0 q l ->
      exists n', h' !! l = Some n' /\ parent n' = Some q
}.

(** The invariant of the loop over the children, of which those in [dn] are
    done. *)
Record lcontract (h0 h : heap) (dn : list loc) (hi : heap)
    (idx : gmap Z loc) : Prop := {
  lc_evolves : evolves h hi;
  lc_frame :
    forall q, (forall c, c ∈ dn -> ~ desc h0 c q) -> hi !! q = h !! q;
  lc_sound :
    forall k l, idx !! k = Some l ->
      exists n, h0 !! l = Some n /\ nodeid n = k /\ is_Some (leaf n) /\
                exists c, c ∈ dn /\ desc h0 c l;
  lc_complete :
    forall c l n, c ∈ dn -> desc h0 c l -> h0 !! l = Some n ->
      is_Some (leaf n) -> is_Some (idx !! nodeid n);
  lc_parent :
    forall c l q, c ∈ dn -> desc h0 c l -> is_child h0 q l ->
      exists n', hi !! l = Some n' /\ parent n' = Some q
}.


(** ** [format_as_text] and its helpers ([formatters.py]) *)

(** The dict under ['feature_weights'], a class explanation and an
    explanation: every key may be absent.  [C] is the type of the class
    labels; a feature importance is [(name, (w, std))]. *)
Record feature_weights : Type := FeatureWeights {
  fw_pos : option (list (string * Q));
  fw_neg : option (list (string * Q));
  fw_pos_remaining : option Z;
  fw_neg_remaining : option Z
}.

Record class_explanation (C : Type) : Type := ClassExplanation {
  ce_class : option C;
  ce_feature_weights : option feature_weights
}.
#[global] Arguments ClassExplanation {C} _ _.
#[global] Arguments ce_class {C} _.
#[global] Arguments ce_feature_weights {C} _.

Record explanation (C : Type) : Type := Explanation {
  ex_classifier : option string;
  ex_method : option string;
  ex_description : option string;
  ex_classes : option (list (class_explanation C));
  ex_feature_importances : option (list (string * (Q * Q)))
}.
#[global] Arguments Explanation {C} _ _ _ _ _.
#[global] Arguments ex_classifier {C} _.
#[global] Arguments ex_method {C} _.
#[global] Arguments ex_description {C} _.
#[global] Arguments ex_classes {C} _.
#[global] Arguments ex_feature_importances {C} _.

(** [c * n] for a one-character string [c]. *)
Fixpoint str_repeat (c : ascii) (n : nat) : string :=
  match n with
  | O => EmptyString
  | S n' => String c (str_repeat c n')
  end.

(** [s.rjust(width)] *)
Definition rjust (s : string) (width : nat) : string :=
  str_repeat " " (width - String.length s) +:+ s.

(** [max(...)] of a sequence of numbers. *)
Definition py_max (l : list nat) : result nat :=
  match l with
  | [] => Raise (ValueError "max() arg is an empty sequence")
  | x :: xs => Ok (fold_left Nat.max xs x)
  end.

(** A generator expression whose element may raise. *)
Fixpoint map_result {A B} (f : A -> result B) (l : list A) : result (list B) :=
  match l with
  | [] => Ok []
  | a :: l' => b ← f a; bs ← map_result f l'; Ok (b :: bs)
  end.

Definition _maxlen {A} (features : list (string * A)) : nat :=
  match features with
  | [] => 0
  | it :: rest =>
      fold_left Nat.max (map (fun it => String.length it.1) rest)
                (String.length it.1)
  end.

Definition _max_feature_length (w : feature_weights) : result nat :=
  pos ← getitem "pos" (fw_pos w);
  neg ← getitem "neg" (fw_neg w);
  Ok (_maxlen (pos ++ neg)).

Definition _rjust_size {C} (explanation : list (class_explanation C))
  : result nat :=
  sizes ← map_result
             (fun e =>
                w ← getitem "feature_weights" (ce_feature_weights e);
                _max_feature_length w)
             explanation;
  py_max sizes.

Section Formatters.

(** The formatting of class labels ([%r]) and of floating-point numbers
    ([%+8.3f] and [%0.4f]) is left to parameters, and so is the version of
    Python ([six.PY2]). *)
Variable C : Type.
Variable repr : C -> string.
Variable fmt_coef : Q -> string.
Variable fmt_importance : Q -> string.
Variable PY2 : bool.

Definition _PLUS_MINUS : string := if PY2 then "+-" else "±".

(** The lines of one class explanation. *)
Definition class_lines (sz : nat) (class_explanation : class_explanation C)
  : result (list string) :=
  cls ← getitem "class" (ce_class class_explanation);
  let head := ["y=" +:+ repr cls +:+ " top features"; str_repeat "-" (sz + 10)] in
  w ← getitem "feature_weights" (ce_feature_weights class_explanation);
  pos ← getitem "pos" (fw_pos w);
  neg ← getitem "neg" (fw_neg w);
  let pos_lines := map (fun nc => rjust nc.1 sz +:+ " " +:+ fmt_coef nc.2) pos in
  pos_remaining ← getitem "pos_remaining" (fw_pos_remaining w);
  let pos_more :=
    if (pos_remaining =? 0)%Z then []
    else [rjust "..." sz +:+ "   (" +:+ pretty pos_remaining
            +:+ " more positive features)"] in
  neg_remaining ← getitem "neg_remaining" (fw_neg_remaining w);
  let neg_more :=
    if (neg_remaining =? 0)%Z then []
    else [rjust "..." sz +:+ "   (" +:+ pretty neg_remaining
            +:+ " more negative features)"] in
  let neg_lines :=
    map (fun nc => rjust nc.1 sz +:+ " " +:+ fmt_coef nc.2) (rev neg) in
  Ok (head ++ pos_lines ++ pos_more ++ neg_more ++ neg_lines ++ [EmptyString]).

Definition format_lines (explanation : explanation C) : result (list string) :=
  classifier ← getitem "classifier" (ex_classifier explanation);
  let lines := [classifier] in
  let lines :=
    match ex_method explanation with
    | Some method => lines ++ ["Explained as: " +:+ method]
    | None => lines
    end in
  let lines :=
    match ex_description explanation with
    | Some description => lines ++ [description]
    | None => lines
    end in
  lines ←
    match ex_classes explanation with
    | Some classes =>
        sz ← _rjust_size classes;
        foldM (fun lines class_explanation =>
                 ls ← class_lines sz class_explanation;
                 Ok (lines ++ ls))
              lines classes
    | None => Ok lines
    end;
  match ex_feature_importances explanation with
  | Some feature_importances =>
      let sz := _maxlen feature_importances in
      Ok (lines ++
          map (fun it =>
                 rjust it.1 sz +:+ " " +:+ fmt_importance it.2.1 +:+ " "
                   +:+ _PLUS_MINUS +:+ " " +:+ fmt_importance (2 * it.2.2)%Q)
              feature_importances)
  | None => Ok lines
  end.

Definition format_as_text (explanation : explanation C) : result string :=
  lines ← format_lines explanation;
  Ok (String.concat nl lines).

End Formatters.


(** A class explanation has every key that [format_as_text] reads. *)
Definition class_keys {C} (ce : class_explanation C) : Prop :=
  is_Some (ce_class ce) /\
  exists w, ce_feature_weights ce = Some w /\
    is_Some (fw_pos w) /\ is_Some (fw_neg w) /\
    is_Some (fw_pos_remaining w) /\ is_Some (fw_neg_remaining w).


(** ** Examples for the top features and the text report *)

(** An argsort for the examples ([eli5.utils] is not among the sources):
    the positions of the [k] entries that come first in the order [le]. *)
Fixpoint insert_by (le : Q -> Q -> bool) (iv : Z * Q) (l : list (Z * Q))
  : list (Z * Q) :=
  match l with
  | [] => [iv]
  | jw :: l' => if le iv.2 jw.2 then iv :: l else jw :: insert_by le iv l'
  end.

Definition argsort_by (le : Q -> Q -> bool) (x : list Q) (k : nat) : list Z :=
  take k (fold_right (insert_by le) []
            (zip (map Z.of_nat (seq 0 (length x))) x)).*1.

Definition example_k_largest : list Q -> nat -> list Z :=
  argsort_by (fun a b => Qle_bool b a).
Definition example_k_smallest : list Q -> nat -> list Z :=
  argsort_by Qle_bool.

Definition example_names : list string := ["age"; "height"; "weight"; "bias"].
Definition example_coef : list Q := [1 # 2; -3 # 4; 0; 1 # 4]%Q.

Definition example_weights : feature_weights :=
  FeatureWeights (Some [("age", 1 # 2); ("bias", 1 # 4)])
                 (Some [("height", -3 # 4)]) (Some 0%Z) (Some 1%Z).

Definition example_classes : list (class_explanation string) :=
  [ClassExplanation (Some "yes") (Some example_weights)].

Definition example_explanation : explanation string :=
  Explanation (Some "XGBClassifier") (Some "decision paths") None
              (Some example_classes) None.

Definition example_no_classes : explanation string :=
  Explanation (Some "XGBClassifier") (Some "decision paths") None
              (Some []) None.

(** A stand-in for the formatting of numbers in the examples. *)
Definition example_fmt (q : Q) : string :=
  pretty (Qnum q) +:+ "/" +:+ pretty (Zpos (Qden q)).


(** The depths that the parser accepts when its stack has [n] nodes: a line
    of depth 0 needs an empty stack, another line a stack at least as long
    as its depth, and a line of depth [d] leaves a stack of [d + 1] nodes. *)
Fixpoint depths_from (n : nat) (ds : list nat) : bool :=
  match ds with
  | [] => true
  | d :: ds' =>
      (if (d =? 0)%nat then (n =? 0)%nat else (d <=? n)%nat) &&
      depths_from (S d) ds'
  end.


(** ** The indexer and the decomposer over any arithmetic

    [indexed_leafs], [target_feature_weights] and the functions between
    them, with the addition, the subtraction and the mean of the code as
    parameters: exact, they are the functions above (lemma
    [target_feature_weights_with_exact]); rounded to binary64 ([f64_add],
    [f64_sub], [f64_mean]), they compute what the code computes. *)
Section Arithmetic.

Variable add sub : Q -> Q -> Q.
Variable avg : list Q -> Q.

Fixpoint indexed_leafs_with (fuel : nat) (h : heap) (parent : loc)
  : result (heap * gmap Z loc) :=
  match fuel with
  | O => Raise RecursionError
  | S fuel' =>
      pn ← node_at h parent;
      cs ← getitem "children" (children pn);
      '(h, indexed) ←
        foldM (index_child (indexed_leafs_with fuel') parent) (h, ∅) cs;
      vs ← child_leafs h cs;
      Ok (alter (set_leaf (avg vs)) parent h, indexed)
  end.

Definition np_iadd_with (a : list Q) (i : Z) (v : result Q) : result (list Q) :=
  k ← np_index (length a) i;
  x ← v;
  Ok (alter (fun y => add y x) k a).

Definition split_change_with (h : heap) (feature_weights : list Q)
    (pc : loc * loc) : result (list Q) :=
  let '(p, c) := pc in
  pn ← node_at h p;
  s ← getitem "split" (split pn);
  i ← feature_idx s;
  np_iadd_with feature_weights i
    (cn ← node_at h c;
     a ← getitem "leaf" (leaf cn);
     b ← getitem "leaf" (leaf pn);
     Ok (sub a b)).

Definition tree_weights_with (fn : FeatureNames) (acc : Q * list Q)
    (dl : string * Z) : result (Q * list Q) :=
  let '(score, feature_weights) := acc in
  let '(text_dump, leaf_id) := dl in
  '(h0, root) ← parse_tree_dump text_dump;
  root ← match root with Some r => Ok r | None => Raise TypeError end;
  '(h, indexed) ← indexed_leafs_with (length h0) h0 root;
  l ← match indexed !! leaf_id with
       | Some l => Ok l
       | None => Raise (KeyError (KInt leaf_id))
       end;
  ln ← node_at h l;
  v ← getitem "leaf" (leaf ln);
  let score := add score v in
  up ← ancestors (length h) h l;
  let path := rev up in
  feature_weights ←
    foldM (split_change_with h) feature_weights (zip path (tail path));
  feature_weights ←
    np_iadd_with feature_weights (bias_idx fn)
      (match path with
       | [] => Raise IndexError
       | r :: _ => rn ← node_at h r; getitem "leaf" (leaf rn)
       end);
  Ok (score, feature_weights).

Definition target_feature_weights_with (leaf_ids : list Z)
    (tree_dumps : list string) (feature_names : FeatureNames)
  : result (Q * list Q) :=
  foldM (tree_weights_with feature_names)
        (0%Q, replicate (len feature_names) 0%Q)
        (zip tree_dumps leaf_ids).

End Arithmetic.


(** Every ['parent'] in the store [hx] is a node that the parser gave no
    ['leaf']. *)
Definition parents_branch (h0 hx : heap) : Prop :=
  forall l n q, hx !! l = Some n -> parent n = Some q -> ~ has_leaf h0 q.

(** * Properties *)

(** ** The error monad *)

Lemma foldM_app {A B} (f : A -> B -> result A) a l1 l2 :
  foldM f a (l1 ++ l2) = a' ← foldM f a l1; foldM f a' l2.
Proof.
  revert a. induction l1 as [|b l1 IH]; intros a; simpl; [done|].
  destruct (f a b); simpl; [apply IH | done].
Qed.

Lemma bind_Ok {A B} (m : result A) (f : A -> result B) b :
  (a ← m; f a) = Ok b -> exists a, m = Ok a /\ f a = Ok b.
Proof. destruct m; simpl; [eauto | discriminate]. Qed.

(** ** Empty dumps *)

Lemma split_lines_newlines n :
  split_lines (newlines n) = replicate (S n) EmptyString.
Proof. induction n as [|n IH]; simpl; [done | by rewrite IH]. Qed.

Lemma parse_lines_blank st n :
  foldM parse_step st (replicate n EmptyString) = Ok st.
Proof. induction n as [|n IH]; simpl; [done | apply IH]. Qed.

(** C10: on the empty string, and on a dump of empty lines only,
    [parse_tree_dump] returns [None]: no tree, and no error either. *)
Theorem parse_tree_dump_blank n :
  parse_tree_dump (newlines n) = Ok ([], None).
Proof.
  unfold parse_tree_dump, parse_lines.
  rewrite split_lines_newlines, parse_lines_blank. done.
Qed.

(** ** Malformed dumps *)

Lemma parse_lines_snoc pre line post st :
  parse_lines pre = Ok st ->
  parse_lines (pre ++ line :: post) = st' ← parse_step st line; foldM parse_step st' post.
Proof.
  unfold parse_lines. intros H.
  rewrite foldM_app, H. done.
Qed.

Lemma parse_lines_raise pre line post st e :
  parse_lines pre = Ok st ->
  parse_step st line = Raise e ->
  parse_lines (pre ++ line :: post) = Raise e.
Proof. intros H1 H2. rewrite (parse_lines_snoc _ _ _ _ H1), H2. done. Qed.

Lemma parse_tree_dump_raise text pre line post st e :
  split_lines text = pre ++ line :: post ->
  parse_lines pre = Ok st ->
  parse_step st line = Raise e ->
  parse_tree_dump text = Raise e.
Proof.
  intros Hs H1 H2. unfold parse_tree_dump.
  rewrite Hs. rewrite (parse_lines_raise _ _ _ _ _ H1 H2). done.
Qed.

(** C4 (amended): the parser stops at the first offending line.  A line of
    neither shape raises [ValueError] with a message that ends in the line; a
    line deeper than the stack is long raises [ValueError]; a line of depth 0
    met while the stack is not empty fails the assertion: it raises
    [AssertionError], which is not a [ValueError]. *)
Theorem parse_tree_dump_rejects text pre line post st :
  split_lines text = pre ++ line :: post ->
  parse_lines pre = Ok st ->
  line <> EmptyString ->
  (branch_match (str line) = None -> leaf_match (str line) = None ->
   parse_tree_dump text =
     Raise (ValueError ("Line in unexpected format: " +:+ line)))
  /\ (forall d nd, _parse_dump_line line = Ok (d, nd) ->
      length (p_stack st) < d ->
      parse_tree_dump text = Raise (ValueError "Unexpected dump structure"))
  /\ (forall nd, _parse_dump_line line = Ok (0, nd) ->
      p_stack st <> [] ->
      parse_tree_dump text = Raise AssertionError).
Proof.
  intros Hs Hpre Hne. repeat split.
  - intros Hb Hl. eapply parse_tree_dump_raise; [done..|].
    unfold parse_step, _parse_dump_line.
    destruct line; [done|]. by rewrite Hb, Hl.
  - intros d nd Hp Hd. eapply parse_tree_dump_raise; [done..|].
    unfold parse_step. destruct line; [done|]. rewrite Hp.
    unfold place_node. simpl.
    destruct d as [|d]; [lia|]. simpl.
    destruct (Nat.ltb_spec (length (p_stack st)) (S d)); [done | lia].
  - intros nd Hp Hst. eapply parse_tree_dump_raise; [done..|].
    unfold parse_step. destruct line; [done|]. rewrite Hp.
    unfold place_node. simpl.
    destruct (p_stack st); done.
Qed.

(** ** Branch lines *)

Lemma span_app p a b :
  forallb p a = true ->
  match b with [] => True | c :: _ => p c = false end ->
  span p (a ++ b) = (a, b).
Proof.
  intros Ha Hb. induction a as [|c a IH]; simpl in *.
  - destruct b as [|c b]; simpl; [done|]. by rewrite Hb.
  - apply andb_prop in Ha as [-> Ha]. by rewrite (IH Ha).
Qed.

Lemma span1_app p a b :
  run p a = true ->
  match b with [] => True | c :: _ => p c = false end ->
  span1 p (a ++ b) = Some (a, b).
Proof.
  intros Ha Hb. unfold span1. destruct a as [|c a]; [done|].
  rewrite span_app by done. done.
Qed.

Lemma span1_all p a : run p a = true -> span1 p a = Some (a, []).
Proof.
  intros Ha. rewrite <- (app_nil_r a) at 1. by apply span1_app.
Qed.


Lemma run_head p q a b :
  run p a = true -> (forall c, p c = true -> q c = false) ->
  match a ++ b with [] => True | c :: _ => q c = false end.
Proof.
  intros Ha Hpq. destruct a as [|c a]; [done|]. simpl in *.
  apply andb_prop in Ha as [Hc _]. by apply Hpq.
Qed.

Lemma digit_not_tab c : is_digit c = true -> is_tab c = false.
Proof.
  unfold is_digit, is_tab. intros H.
  destruct (Ascii.eqb_spec c "009") as [->|]; [discriminate H | done].
Qed.

Lemma branch_match_line f :
  wf_fields f = true ->
  branch_match (str (branch_line f)) =
    Some (f_tabs f, f_id f, f_feature f, f_condition f, f_yes f, f_no f,
          f_missing f).
Proof.
  unfold wf_fields. intros H.
  repeat (apply andb_prop in H as [H ?]).
  unfold branch_line, str. rewrite list_ascii_of_string_of_list_ascii.
  unfold branch_match.
  rewrite span_app; [|done|by eapply run_head, digit_not_tab].
  do 5 (rewrite span1_app by done; simpl).
  rewrite span1_all by done. done.
Qed.

Lemma parse_branch_line f :
  wf_fields f = true ->
  _parse_dump_line (branch_line f) =
    c ← float (f_condition f); Ok (length (f_tabs f), branch_node f c).
Proof.
  intros H. unfold _parse_dump_line. rewrite (branch_match_line _ H). done.
Qed.

(** C7 (amended): a branch line whose comparison character is [<], whose
    feature is a non-empty run of word characters, whose ids are non-empty
    runs of digits and whose threshold (non-empty, without a closing bracket)
    is accepted by [float()] is parsed: the result is the number of leading
    tabs and a branch node with the id, the split feature, the split
    condition and the yes, no and missing ids of the line. *)
Theorem parse_dump_line_branch f c :
  wf_fields f = true ->
  py_float (string_of_list_ascii (f_condition f)) = Some c ->
  _parse_dump_line (branch_line f) =
    Ok (length (f_tabs f),
        Node (Some (length (f_tabs f))) (int_of_digits (f_id f))
             (Some (string_of_list_ascii (f_feature f))) (Some c)
             (Some (int_of_digits (f_yes f))) (Some (int_of_digits (f_no f)))
             (Some (int_of_digits (f_missing f))) None None None).
Proof.
  intros H Hc. rewrite parse_branch_line by done.
  unfold float. rewrite Hc. done.
Qed.

(** ** The ensemble aggregator *)

(** C8 (amended): when the number of dumps differs from the number of leaf
    ids the assertion fails before any tree is decomposed, whatever the
    dumps are.  A number of dumps that [n_estimators] does not divide is not
    rejected: the last chunk is shorter.  With [n_estimators = 2], six dumps
    are decomposed as the chunks [0,1], [2,3], [4,5] (classes 0, 1, 2), and
    five dumps as [0,1], [2,3], [4]. *)
Theorem prediction_feature_weights_chunks fn :
  (forall leaf_ids tree_dumps n,
     length tree_dumps <> length leaf_ids ->
     prediction_feature_weights leaf_ids tree_dumps n fn = Raise AssertionError)
  /\ (forall l0 l1 l2 l3 l4 l5 d0 d1 d2 d3 d4 d5,
      prediction_feature_weights [l0; l1; l2; l3; l4; l5]
                                 [d0; d1; d2; d3; d4; d5] 2 fn =
        c0 ← target_feature_weights [l0; l1] [d0; d1] fn;
        c1 ← target_feature_weights [l2; l3] [d2; d3] fn;
        c2 ← target_feature_weights [l4; l5] [d4; d5] fn;
        Ok [c0; c1; c2])
  /\ (forall l0 l1 l2 l3 l4 d0 d1 d2 d3 d4,
      prediction_feature_weights [l0; l1; l2; l3; l4]
                                 [d0; d1; d2; d3; d4] 2 fn =
        c0 ← target_feature_weights [l0; l1] [d0; d1] fn;
        c1 ← target_feature_weights [l2; l3] [d2; d3] fn;
        c2 ← target_feature_weights [l4] [d4] fn;
        Ok [c0; c1; c2]).
Proof.
  repeat split.
  - intros leaf_ids tree_dumps n Hne. unfold prediction_feature_weights.
    destruct (Nat.eqb_spec (length tree_dumps) (length leaf_ids)); done.
  - intros. unfold prediction_feature_weights. cbn -[target_feature_weights].
    destruct (target_feature_weights [l0; l1] _ _); [|done].
    cbn -[target_feature_weights].
    destruct (target_feature_weights [l2; l3] _ _); [|done].
    cbn -[target_feature_weights].
    destruct (target_feature_weights [l4; l5] _ _); done.
  - intros. unfold prediction_feature_weights. cbn -[target_feature_weights].
    destruct (target_feature_weights [l0; l1] _ _); [|done].
    cbn -[target_feature_weights].
    destruct (target_feature_weights [l2; l3] _ _); [|done].
    cbn -[target_feature_weights].
    destruct (target_feature_weights [l4] _ _); done.
Qed.

(** ** Sums of contribution vectors *)

Lemma fold_left_Qplus vs a : (fold_left Qplus vs a == a + Qsum vs)%Q.
Proof.
  unfold Qsum. revert a. induction vs as [|v vs IH]; intros a; simpl.
  - ring.
  - rewrite (IH (a + v)%Q), (IH (0 + v)%Q). ring.
Qed.

Lemma Qsum_cons v vs : (Qsum (v :: vs) == v + Qsum vs)%Q.
Proof. unfold Qsum at 1. simpl. rewrite fold_left_Qplus. ring. Qed.

Lemma Qsum_alter_add (a : list Q) k x :
  k < length a ->
  (Qsum (alter (fun y => y + x) k a) == Qsum a + x)%Q.
Proof.
  unfold alter. revert k.
  induction a as [|v a IH]; intros k Hk; simpl in *; [lia|].
  destruct k as [|k]; simpl.
  - rewrite !Qsum_cons. ring.
  - rewrite !Qsum_cons, IH by lia. ring.
Qed.

Lemma Qsum_replicate n : (Qsum (replicate n 0%Q) == 0)%Q.
Proof.
  induction n as [|n IH]; simpl; [done|]. rewrite Qsum_cons, IH. ring.
Qed.

Lemma np_index_lt n i k : np_index n i = Ok k -> k < n.
Proof.
  unfold np_index. intros H.
  destruct (Z.leb_spec 0 i), (Z.ltb_spec i (Z.of_nat n)); simpl in H;
    try (injection H as <-; lia);
    destruct (Z.leb_spec (- Z.of_nat n) i), (Z.ltb_spec i 0); simpl in H;
    try discriminate; injection H as <-; lia.
Qed.

Lemma np_iadd_Ok a i v a' :
  np_iadd a i v = Ok a' ->
  exists k x, np_index (length a) i = Ok k /\ v = Ok x /\
              a' = alter (fun y => (y + x)%Q) k a.
Proof.
  unfold np_iadd. intros H.
  apply bind_Ok in H as (k & Hk & H). apply bind_Ok in H as (x & Hx & H).
  injection H as <-. eauto.
Qed.

Lemma np_iadd_sum a i v a' x :
  np_iadd a i v = Ok a' -> v = Ok x ->
  (Qsum a' == Qsum a + x)%Q /\ length a' = length a.
Proof.
  intros H Hv. apply np_iadd_Ok in H as (k & x' & Hk & Hx & ->).
  rewrite Hv in Hx. injection Hx as <-. split.
  - apply Qsum_alter_add. by eapply np_index_lt.
  - apply length_alter.
Qed.

(** ** The path decomposition telescopes *)

Lemma node_at_Ok h l n : node_at h l = Ok n <-> h !! l = Some n.
Proof. unfold node_at. destruct (h !! l); split; congruence. Qed.

Lemma getitem_Ok {A} k (o : option A) a : getitem k o = Ok a <-> o = Some a.
Proof. unfold getitem. destruct o; split; congruence. Qed.

Lemma leaf_val_Some h l n v : h !! l = Some n -> leaf n = Some v -> leaf_val h l = v.
Proof. unfold leaf_val. by intros -> ->. Qed.

Lemma split_change_sum h fw p c fw' :
  split_change h fw (p, c) = Ok fw' ->
  (Qsum fw' == Qsum fw + (leaf_val h c - leaf_val h p))%Q /\
  length fw' = length fw.
Proof.
  unfold split_change. intros H.
  apply bind_Ok in H as (pn & Hpn & H). apply bind_Ok in H as (s & Hs & H).
  apply bind_Ok in H as (i & Hi & H).
  destruct (np_iadd_Ok _ _ _ _ H) as (k & x & _ & Hx & _).
  destruct (np_iadd_sum _ _ _ _ _ H Hx) as [Hsum Hlen]. split; [|done].
  apply bind_Ok in Hx as (cn & Hcn & Hx). apply bind_Ok in Hx as (a & Ha & Hx).
  apply bind_Ok in Hx as (b & Hb & Hx). injection Hx as <-.
  apply node_at_Ok in Hpn, Hcn. apply getitem_Ok in Ha, Hb.
  by rewrite (leaf_val_Some _ _ _ _ Hcn Ha), (leaf_val_Some _ _ _ _ Hpn Hb).
Qed.

Lemma path_changes_sum h path fw fw' :
  foldM (split_change h) fw (zip path (tail path)) = Ok fw' ->
  (Qsum fw' ==
   Qsum fw + (default 0 (leaf_val h <$> last path) -
              default 0 (leaf_val h <$> head path)))%Q /\
  length fw' = length fw.
Proof.
  revert fw. induction path as [|x path IH]; intros fw H.
  - injection H as <-. simpl. split; [ring | done].
  - destruct path as [|y path].
    + injection H as <-. simpl. split; [ring | done].
    + simpl in H. apply bind_Ok in H as (fw1 & H1 & H).
      apply split_change_sum in H1 as [Hs1 Hl1].
      apply IH in H as [Hs Hl]. split; [|congruence].
      rewrite last_cons_cons, Hs, Hs1. simpl. ring.
Qed.

Lemma ancestors_head fuel h l up :
  ancestors fuel h l = Ok up -> exists rest, up = l :: rest.
Proof.
  destruct fuel as [|fuel]; simpl; [done|]. intros H.
  apply bind_Ok in H as (n & _ & H). destruct (parent n).
  - apply bind_Ok in H as (rest & _ & H). injection H as <-. eauto.
  - injection H as <-. eauto.
Qed.

(** What one turn of the loop over the trees does when it succeeds. *)
Lemma tree_weights_Ok fn s fw d id s' fw' :
  tree_weights fn (s, fw) (d, id) = Ok (s', fw') ->
  exists h0 root h idx l n v,
    parse_tree_dump d = Ok (h0, Some root) /\
    indexed_leafs (length h0) h0 root = Ok (h, idx) /\
    idx !! id = Some l /\ h !! l = Some n /\ leaf n = Some v /\
    s' = (s + v)%Q /\ (Qsum fw' == Qsum fw + v)%Q /\ length fw' = length fw.
Proof.
  unfold tree_weights. intros H.
  apply bind_Ok in H as ([h0 root] & Hparse & H).
  apply bind_Ok in H as (r & Hr & H). destruct root as [root|]; [|done].
  injection Hr as ->.
  apply bind_Ok in H as ([h idx] & Hidx & H).
  apply bind_Ok in H as (l & Hl & H).
  destruct (idx !! id) as [l'|] eqn:Hlookup; [|done]. injection Hl as ->.
  apply bind_Ok in H as (n & Hn & H). apply bind_Ok in H as (v & Hv & H).
  apply bind_Ok in H as (up & Hup & H).
  apply bind_Ok in H as (fw1 & H1 & H). apply bind_Ok in H as (fw2 & H2 & H).
  injection H as <- <-.
  apply node_at_Ok in Hn. apply getitem_Ok in Hv.
  exists h0, r, h, idx, l, n, v. repeat (split; [done|]).
  apply path_changes_sum in H1 as [Hs1 Hl1].
  destruct (ancestors_head _ _ _ _ Hup) as (rest & ->).
  destruct (np_iadd_Ok _ _ _ _ H2) as (k & x & _ & Hx & _).
  destruct (np_iadd_sum _ _ _ _ _ H2 Hx) as [Hs2 Hl2].
  split; [|congruence].
  rewrite Hs2, Hs1. simpl rev in Hx |- *. rewrite last_snoc. simpl.
  rewrite (leaf_val_Some _ _ _ _ Hn Hv).
  destruct (rev rest ++ [l]) as [|r0 path] eqn:Hpath; [done|].
  apply bind_Ok in Hx as (rn & Hrn & Hx).
  apply node_at_Ok in Hrn. apply getitem_Ok in Hx. simpl.
  rewrite (leaf_val_Some _ _ _ _ Hrn Hx). ring.
Qed.

(** The loop over the trees keeps the difference between the sum of the
    vector and the score. *)
Lemma target_feature_weights_sum fn dls s fw s' fw' :
  foldM (tree_weights fn) (s, fw) dls = Ok (s', fw') ->
  (Qsum fw' - s' == Qsum fw - s)%Q /\ length fw' = length fw.
Proof.
  revert s fw. induction dls as [|[d id] dls IH]; intros s fw H.
  - injection H as <- <-. split; [ring | done].
  - simpl in H. apply bind_Ok in H as ([s1 fw1] & H1 & H).
    apply tree_weights_Ok in H1
      as (_ & _ & _ & _ & _ & _ & v & _ & _ & _ & _ & _ & -> & Hs1 & Hl1).
    apply IH in H as [Hs Hl]. split; [|congruence].
    rewrite Hs, Hs1. ring.
Qed.

(** ** The indexer *)

Lemma evolves_refl h : evolves h h.
Proof. split; [done|]. intros l n Hl. exists n. done. Qed.

Lemma evolves_trans h1 h2 h3 : evolves h1 h2 -> evolves h2 h3 -> evolves h1 h3.
Proof.
  intros [L12 E12] [L23 E23]. split; [congruence|].
  intros l n Hl. destruct (E12 _ _ Hl) as (n2 & H2 & S2 & V2).
  destruct (E23 _ _ H2) as (n3 & H3 & S3 & V3).
  exists n3. split; [done|]. split; [congruence|]. auto.
Qed.

Lemma evolves_alter h f l :
  (forall n, strip (f n) = strip n) ->
  (forall n v, h !! l = Some n -> leaf n = Some v -> leaf (f n) = Some v) ->
  evolves h (alter f l h).
Proof.
  intros Hs Hv. split; [apply length_alter|].
  intros l' n Hl'. destruct (decide (l = l')) as [<-|Hne].
  - exists (f n). rewrite list_lookup_alter_eq, Hl'. eauto.
  - exists n. rewrite list_lookup_alter_ne by done. done.
Qed.

Lemma evolves_set_parent h p c : evolves h (alter (set_parent p) c h).
Proof. apply evolves_alter; done. Qed.

Lemma evolves_set_leaf h p v :
  ~ has_leaf h p -> evolves h (alter (set_leaf v) p h).
Proof.
  intros Hp. apply evolves_alter; [done|].
  intros n w Hn Hw. destruct Hp. by exists n, w.
Qed.

Lemma has_leaf_evolves h h' q : evolves h h' -> has_leaf h q -> has_leaf h' q.
Proof.
  intros [_ E] (n & v & Hn & Hv). destruct (E _ _ Hn) as (n' & Hn' & _ & V).
  exists n', v. auto.
Qed.

Lemma children_evolves h h' l n n' :
  evolves h h' -> h !! l = Some n -> h' !! l = Some n' ->
  children n' = children n /\ nodeid n' = nodeid n /\ split n' = split n.
Proof.
  intros [_ E] Hn Hn'. destruct (E _ _ Hn) as (n2 & H2 & S & _).
  rewrite Hn' in H2. injection H2 as <-.
  unfold strip in S. by injection S.
Qed.

Lemma children_gt_evolves h h' : evolves h h' -> children_gt h -> children_gt h'.
Proof.
  intros Hev Hgt p n' cs c Hn' Hcs Hc.
  destruct Hev as [Hlen E].
  assert (Hp : p < length h) by (rewrite <- Hlen; by eapply lookup_lt_Some).
  apply lookup_lt_is_Some_2 in Hp as [n Hn].
  destruct (children_evolves h h' p n n' (conj Hlen E) Hn Hn') as (Hc' & _).
  rewrite Hlen. eapply Hgt; [done| |done]. congruence.
Qed.

Lemma child_leafs_Ok h cs vs :
  child_leafs h cs = Ok vs <->
  Forall2 (fun c v => exists n, h !! c = Some n /\ leaf n = Some v) cs vs.
Proof.
  revert vs. induction cs as [|c cs IH]; intros vs; simpl.
  - split; [intros [= <-]; constructor | by intros ->%Forall2_nil_inv_l].
  - split.
    + intros H. apply bind_Ok in H as (cn & Hcn & H).
      apply bind_Ok in H as (v & Hv & H). apply bind_Ok in H as (vs' & Hvs & H).
      injection H as <-. apply node_at_Ok in Hcn. apply getitem_Ok in Hv.
      constructor; [eauto | by apply IH].
    + intros H. apply Forall2_cons_inv_l in H as (v & vs' & (n & Hn & Hv) & H & ->).
      apply node_at_Ok in Hn. rewrite Hn. simpl. rewrite Hv. simpl.
      apply IH in H. rewrite H. done.
Qed.

Lemma child_leafs_evolves h h' cs vs :
  evolves h h' -> child_leafs h cs = Ok vs -> child_leafs h' cs = Ok vs.
Proof.
  intros [_ E]. rewrite !child_leafs_Ok. intros H.
  eapply Forall2_impl; [exact H|].
  intros c v (n & Hn & Hv). destruct (E _ _ Hn) as (n' & Hn' & _ & V). eauto.
Qed.

Lemma child_leafs_has_leaf h cs vs c :
  child_leafs h cs = Ok vs -> c ∈ cs -> has_leaf h c.
Proof.
  rewrite child_leafs_Ok. intros H Hc.
  apply list_elem_of_lookup in Hc as [i Hi].
  destruct (Forall2_lookup_l _ _ _ _ _ H Hi) as (v & _ & n & Hn & Hv).
  by exists n, v.
Qed.

Lemma agg_ok_evolves h h' q : evolves h h' -> agg_ok h q -> agg_ok h' q.
Proof.
  intros Hev (n & cs & vs & Hn & Hcs & Hvs & Hl).
  destruct (proj2 Hev _ _ Hn) as (n' & Hn' & _ & V).
  destruct (children_evolves _ _ _ _ _ Hev Hn Hn') as (Hc & _).
  exists n', cs, vs. split; [done|]. split; [congruence|].
  split; [by eapply child_leafs_evolves | auto].
Qed.

Lemma has_leaf_set_parent h p c q :
  has_leaf (alter (set_parent p) c h) q -> has_leaf h q.
Proof.
  intros (n & v & Hn & Hv). destruct (decide (c = q)) as [->|Hne].
  - rewrite list_lookup_alter_eq in Hn.
    destruct (h !! q) as [m|] eqn:Hm; [|done]. injection Hn as <-.
    by exists m, v.
  - rewrite list_lookup_alter_ne in Hn by done. by exists n, v.
Qed.

Lemma idx_entry_evolves h h' l n k :
  evolves h h' -> h !! l = Some n -> nodeid n = k -> is_Some (leaf n) ->
  exists n', h' !! l = Some n' /\ nodeid n' = k /\ is_Some (leaf n').
Proof.
  intros Hev Hn Hk [v Hv]. destruct (proj2 Hev _ _ Hn) as (n' & Hn' & _ & V).
  destruct (children_evolves _ _ _ _ _ Hev Hn Hn') as (_ & Hid & _).
  exists n'. split; [done|]. split; [congruence | eauto].
Qed.

Lemma linv_init h p : linv h p h ∅.
Proof.
  split; [apply evolves_refl | done | auto | eauto |].
  intros k l Hl. by rewrite lookup_empty in Hl.
Qed.

Lemma linv_set_parent h p hi idx c :
  p < c -> linv h p hi idx -> linv h p (alter (set_parent p) c hi) idx.
Proof.
  intros Hpc [Hev Hbelow Hagg Hpar Hidx].
  pose proof (evolves_set_parent hi p c) as E1. split.
  - by eapply evolves_trans.
  - intros l Hl. rewrite list_lookup_alter_ne by lia. auto.
  - intros q Hq%has_leaf_set_parent. destruct (Hagg _ Hq) as [?|?]; [by left|].
    right. by eapply agg_ok_evolves.
  - intros l n' q Hn' Hq. destruct (decide (c = l)) as [<-|Hne].
    + rewrite list_lookup_alter_eq in Hn'.
      destruct (hi !! c) as [m|]; [|done]. injection Hn' as <-.
      simpl in Hq. injection Hq as <-. right. auto.
    + rewrite list_lookup_alter_ne in Hn' by done.
      destruct (Hpar _ _ _ Hn' Hq) as [?|(? & [?|?])]; [by left|right..]; auto.
      split; [done|]. right. by eapply has_leaf_evolves.
  - intros k l Hl. destruct (Hidx _ _ Hl) as (n & Hn & Hk & Hv).
    by eapply idx_entry_evolves.
Qed.

Lemma linv_call h p h1 idx c h2 sub :
  p < c -> linv h p h1 idx ->
  (exists n m, h1 !! c = Some n /\ parent n = Some p /\
               h !! c = Some m /\ strip n = strip m) ->
  ipost h1 c h2 sub -> linv h p h2 (sub ∪ idx).
Proof.
  intros Hpc [Hev Hbelow Hagg Hpar Hidx] _ [Pev Pbelow Pself Pleaf Pagg Ppar Pidx].
  split.
  - by eapply evolves_trans.
  - intros l Hl. rewrite Pbelow by lia. auto.
  - intros q Hq. destruct (Pagg _ Hq) as [Hq1|?]; [|by right].
    destruct (Hagg _ Hq1) as [?|?]; [by left|]. right. by eapply agg_ok_evolves.
  - intros l n' q Hn' Hq.
    destruct (Ppar _ _ _ Hn' Hq) as [(n & Hn & Hnq)|[? ?]]; [|right; auto].
    destruct (Hpar _ _ _ Hn Hnq) as [?|(? & [?|?])]; [by left|right..]; auto.
    split; [done|]. right. by eapply has_leaf_evolves.
  - intros k l Hl. apply lookup_union_Some_raw in Hl as [Hl|[_ Hl]]; [auto|].
    destruct (Hidx _ _ Hl) as (n & Hn & Hk & Hv). by eapply idx_entry_evolves.
Qed.

Section IndexLoop.

Variable rec : heap -> loc -> result (heap * gmap Z loc).
Hypothesis rec_spec :
  forall h1 c h2 sub,
    children_gt h1 -> ~ has_leaf h1 c -> rec h1 c = Ok (h2, sub) ->
    ipost h1 c h2 sub.

Lemma index_child_spec h p hi idx c hf idxf :
  children_gt h -> p < c -> linv h p hi idx ->
  index_child rec p (hi, idx) c = Ok (hf, idxf) ->
  linv h p hf idxf.
Proof using rec_spec.
  intros Hgt Hpc Hinv H. unfold index_child in H.
  pose proof (linv_set_parent _ _ _ _ c Hpc Hinv) as Hinv1.
  set (h1 := alter (set_parent p) c hi) in *.
  apply bind_Ok in H as (cn & Hcn & H). apply node_at_Ok in Hcn.
  destruct (leaf cn) as [v|] eqn:Hleaf.
  - injection H as <- <-. destruct Hinv1 as [Hev Hbelow Hagg Hpar Hidx].
    split; try done.
    intros k l Hl. destruct (decide (nodeid cn = k)) as [<-|Hne].
    + rewrite lookup_insert_eq in Hl. injection Hl as <-. exists cn. eauto.
    + rewrite lookup_insert_ne in Hl by done. auto.
  - apply bind_Ok in H as ([h2 sub] & Hrec & H). injection H as <- <-.
    assert (Hnl : ~ has_leaf h1 c).
    { intros (n & v & Hn & Hv). congruence. }
    assert (Hgt1 : children_gt h1).
    { eapply children_gt_evolves; [|exact Hgt]. apply Hinv1. }
    eapply linv_call; [done..| |by apply rec_spec].
    subst h1. rewrite list_lookup_alter_eq in Hcn.
    destruct (hi !! c) as [m|] eqn:Hm; [|done]. injection Hcn as <-.
    assert (Hc : c < length h).
    { rewrite <- (proj1 (li_evolves _ _ _ _ Hinv)). by eapply lookup_lt_Some. }
    apply lookup_lt_is_Some_2 in Hc as [m0 Hm0].
    destruct (proj2 (li_evolves _ _ _ _ Hinv) _ _ Hm0) as (m' & Hm' & Hs & _).
    exists (set_parent p m), m0. rewrite list_lookup_alter_eq, Hm.
    repeat split; try done. rewrite Hm in Hm'. injection Hm' as <-. done.
Qed.

Lemma index_children_spec h p cs : forall hi idx hf idxf,
  children_gt h -> (forall c, c ∈ cs -> p < c) -> linv h p hi idx ->
  foldM (index_child rec p) (hi, idx) cs = Ok (hf, idxf) ->
  linv h p hf idxf.
Proof using rec_spec.
  induction cs as [|c cs IH]; intros hi idx hf idxf Hgt Hcs Hinv H.
  - by injection H as <- <-.
  - simpl in H. apply bind_Ok in H as ([h1 idx1] & H1 & H).
    eapply IH; [done| |by eapply index_child_spec; [| |done|exact H1];
                       [done | apply Hcs; left]|done].
    intros c' Hc'. apply Hcs. by right.
Qed.

End IndexLoop.

(** What the indexer does on a store whose nodes were created before their
    children, when it is called on a node without ['leaf'] and returns. *)
Lemma indexed_leafs_spec fuel : forall h p h' idx,
  children_gt h -> ~ has_leaf h p ->
  indexed_leafs fuel h p = Ok (h', idx) -> ipost h p h' idx.
Proof.
  induction fuel as [|fuel IH]; intros h p h' idx Hgt Hnl H; [done|].
  simpl in H.
  apply bind_Ok in H as (pn & Hpn & H). apply node_at_Ok in Hpn.
  apply bind_Ok in H as (cs & Hcs & H). apply getitem_Ok in Hcs.
  apply bind_Ok in H as ([hi idxi] & Hloop & H).
  apply bind_Ok in H as (vs & Hvs & H). injection H as <- <-.
  assert (Hinv : linv h p hi idxi).
  { eapply index_children_spec; [exact IH|exact Hgt| |apply linv_init|exact Hloop].
    intros c Hc. by eapply Hgt. }
  destruct Hinv as [Hev Hbelow Hagg Hpar Hidx].
  assert (Hp : hi !! p = Some pn) by (rewrite Hbelow by lia; done).
  assert (Hnl' : ~ has_leaf hi p).
  { intros (n & v & Hn & Hv). apply Hnl. exists n, v. split; [congruence|done]. }
  pose proof (evolves_set_leaf hi p (mean vs) Hnl') as E'.
  set (h' := alter (set_leaf (mean vs)) p hi) in *.
  assert (Hp' : h' !! p = Some (set_leaf (mean vs) pn)).
  { subst h'. by rewrite list_lookup_alter_eq, Hp. }
  split.
  - by eapply evolves_trans.
  - intros l Hl. subst h'. rewrite list_lookup_alter_ne by lia. apply Hbelow. lia.
  - intros n' Hn'. exists pn. split; [done|]. rewrite Hp' in Hn'. by injection Hn' as <-.
  - by exists (set_leaf (mean vs) pn), (mean vs).
  - intros q Hq. destruct (decide (p = q)) as [<-|Hne].
    + right. exists (set_leaf (mean vs) pn), cs, vs.
      repeat split; try done. by eapply child_leafs_evolves.
    + assert (Hq' : has_leaf hi q).
      { destruct Hq as (n & v & Hn & Hv). subst h'.
        rewrite list_lookup_alter_ne in Hn by done. by exists n, v. }
      destruct (Hagg _ Hq') as [?|?]; [by left|]. right. by eapply agg_ok_evolves.
  - intros l n' q Hn' Hq. destruct (decide (p = l)) as [<-|Hne].
    + rewrite Hp' in Hn'. injection Hn' as <-. left. by exists pn.
    + subst h'. rewrite list_lookup_alter_ne in Hn' by done.
      destruct (Hpar _ _ _ Hn' Hq) as [?|(? & [->|?])]; [by left|right..].
      * split; [done|]. by exists (set_leaf (mean vs) pn), (mean vs).
      * split; [done|]. by eapply has_leaf_evolves.
  - intros k l Hl. destruct (Hidx _ _ Hl) as (n & Hn & Hk & Hv).
    by eapply idx_entry_evolves.
Qed.

(** ** The store that the parser builds *)

Lemma parse_line_fresh line d nd :
  _parse_dump_line line = Ok (d, nd) -> children nd = None /\ parent nd = None.
Proof.
  unfold _parse_dump_line. intros H.
  destruct (branch_match (str line)) as [[[[[[[? ?] ?] ?] ?] ?] ?]|].
  - apply bind_Ok in H as (c & _ & H). by injection H as <- <-.
  - destruct (leaf_match (str line)) as [[[? ?] ?]|]; [|done].
    apply bind_Ok in H as (c & _ & H). by injection H as <- <-.
Qed.

Lemma pinv_init : pinv (PState [] None []).
Proof.
  split; simpl.
  - intros p n cs c Hn. by rewrite lookup_nil in Hn.
  - intros l n Hl. by rewrite lookup_nil in Hl.
  - intros s Hs. by apply elem_of_nil in Hs.
  - done.
  - done.
  - intros l Hl. lia.
Qed.

Lemma pinv_root nd :
  children nd = None -> parent nd = None -> pinv (PState [nd] (Some 0) [0]).
Proof.
  intros Hc Hp. split; simpl.
  - intros p n cs c Hn Hcs. destruct p; simpl in Hn; [|done].
    injection Hn as <-. congruence.
  - intros l n Hn. destruct l; simpl in Hn; [|done]. by injection Hn as <-.
  - intros s ->%list_elem_of_singleton. lia.
  - done.
  - done.
  - intros l Hl. lia.
Qed.

Lemma pinv_push st stack top nd :
  pinv st -> children nd = None -> parent nd = None ->
  (forall s, s ∈ stack -> s ∈ p_stack st) -> last stack = Some top ->
  pinv (PState (alter (append_child (length (p_heap st))) top (p_heap st ++ [nd]))
               (p_result st) (stack ++ [length (p_heap st)])).
Proof.
  intros [Hgt Hpar Hst Hempty Hroot Hchild] Hc Hp Hsub Htop.
  set (h := p_heap st) in *. set (l := length h).
  assert (Htl : top < l).
  { apply Hst, Hsub. apply last_Some in Htop as [? ->]. set_solver. }
  destruct (lookup_lt_is_Some_2 h top Htl) as [tn Htn].
  assert (Hlk : forall q,
    alter (append_child l) top (h ++ [nd]) !! q =
      if decide (q = top) then Some (append_child l tn)
      else if decide (q = l) then Some nd
      else h !! q).
  { intros q. destruct (decide (q = top)) as [->|Hne].
    - by rewrite list_lookup_alter_eq, lookup_app_l, Htn.
    - rewrite list_lookup_alter_ne by done. destruct (decide (q = l)) as [->|Hnl].
      + by rewrite lookup_app_r, Nat.sub_diag.
      + destruct (decide (q < l)).
        * by rewrite lookup_app_l.
        * rewrite lookup_ge_None_2 by (rewrite length_app; simpl; lia).
          symmetry. apply lookup_ge_None_2. lia. }
  assert (Hlen : length (alter (append_child l) top (h ++ [nd])) = S l).
  { rewrite length_alter, length_app. simpl. lia. }
  split; simpl.
  - intros p n cs c Hn Hcs Hin. rewrite Hlen. rewrite Hlk in Hn.
    destruct (decide (p = top)) as [->|Hne].
    + injection Hn as <-. simpl in Hcs. injection Hcs as <-.
      apply elem_of_app in Hin as [Hin| ->%list_elem_of_singleton]; [|lia].
      destruct (children tn) as [cs|] eqn:Hcs; simpl in Hin.
      * destruct (Hgt _ _ _ _ Htn Hcs Hin). lia.
      * by apply elem_of_nil in Hin.
    + destruct (decide (p = l)) as [->|Hnl].
      * injection Hn as <-. congruence.
      * destruct (Hgt _ _ _ _ Hn Hcs Hin). lia.
  - intros q n Hn. rewrite Hlk in Hn.
    destruct (decide (q = top)) as [->|Hne].
    + injection Hn as <-. simpl. eauto.
    + destruct (decide (q = l)) as [->|Hnl]; [by injection Hn as <-|eauto].
  - intros s Hs. rewrite Hlen.
    apply elem_of_app in Hs as [Hs| ->%list_elem_of_singleton]; [|lia].
    apply Hsub, Hst in Hs. lia.
  - intros Hnil. by apply app_eq_nil in Hnil as [_ ?].
  - intros _. apply Hroot. intros Hnil.
    assert (top ∈ p_stack st).
    { apply Hsub. apply last_Some in Htop as [? ->]. set_solver. }
    rewrite Hnil in *. by apply elem_of_nil in H.
  - intros q Hq. rewrite Hlen in Hq.
    destruct (decide (q = l)) as [->|Hnl].
    + exists top, (append_child l tn), (default [] (children tn) ++ [l]).
      rewrite Hlk, decide_True by done. split; [done|]. split; [done|set_solver].
    + destruct (Hchild q) as (p & n & cs & Hn & Hcs & Hin); [lia|].
      destruct (decide (p = top)) as [->|Hne].
      * exists top, (append_child l tn), (default [] (children tn) ++ [l]).
        rewrite Hlk, decide_True by done. split; [done|]. split; [done|].
        rewrite Htn in Hn. injection Hn as <-. rewrite Hcs. simpl. set_solver.
      * exists p, n, cs. rewrite Hlk, decide_False by done.
        rewrite decide_False; [done|]. apply lookup_lt_Some in Hn. lia.
Qed.

Lemma parse_step_inv st line st' :
  pinv st -> parse_step st line = Ok st' -> pinv st'.
Proof.
  intros Hinv H. unfold parse_step in H.
  destruct line as [|a line]; [by injection H as <-|].
  apply bind_Ok in H as ([d nd] & Hline & H).
  apply parse_line_fresh in Hline as [Hc Hp]. unfold place_node in H.
  destruct (Nat.eqb_spec d 0) as [->|Hd].
  - destruct (p_stack st) eqn:Hst; [|done]. injection H as <-.
    destruct (pi_empty _ Hinv Hst) as [-> _]. by apply pinv_root.
  - destruct (Nat.ltb_spec (length (p_stack st)) d) as [|Hle]; [done|].
    destruct (last _) as [top|] eqn:Htop; [|done]. injection H as <-.
    apply pinv_push; try done.
    intros s Hs. destruct (d <? length (p_stack st))%nat; [|done].
    apply elem_of_take in Hs as (i & Hi & _). by eapply list_elem_of_lookup_2.
Qed.

Lemma parse_lines_inv lines : forall st st',
  pinv st -> foldM parse_step st lines = Ok st' -> pinv st'.
Proof.
  induction lines as [|line lines IH]; intros st st' Hinv H.
  - by injection H as <-.
  - simpl in H. apply bind_Ok in H as (st1 & H1 & H).
    eapply IH; [|exact H]. by eapply parse_step_inv.
Qed.

(** The store of a parsed tree: the root is the first node, every other node
    is a child of a node created before it, no node has a parent yet. *)
Lemma parse_tree_dump_store text_dump h r :
  parse_tree_dump text_dump = Ok (h, Some r) ->
  r = 0 /\ 0 < length h /\ children_gt h /\
  (forall l n, h !! l = Some n -> parent n = None) /\
  (forall l, 0 < l < length h ->
     exists p n cs, h !! p = Some n /\ children n = Some cs /\ l ∈ cs).
Proof.
  unfold parse_tree_dump. intros H. apply bind_Ok in H as (st & Hst & H).
  injection H as <- Hr.
  apply parse_lines_inv in Hst; [|apply pinv_init].
  destruct Hst as [Hgt Hpar Hstack Hempty Hroot Hchild].
  assert (Hne : p_stack st <> []).
  { intros Hnil. destruct (Hempty Hnil) as [_ ?]. congruence. }
  rewrite (Hroot Hne) in Hr. injection Hr as <-.
  split; [done|]. split; [|split; [exact Hgt | split; [exact Hpar | exact Hchild]]].
  destruct (p_stack st) as [|s ?] eqn:Hs; [done|].
  assert (s < length (p_heap st)) by (apply Hstack; left). lia.
Qed.

(** ** Exact arithmetic as an instance *)

Lemma foldM_ext {A B} (f f' : A -> B -> result A) l a :
  (forall a b, f' a b = f a b) -> foldM f' a l = foldM f a l.
Proof.
  intros Hf. revert a. induction l as [|b l IH]; intros a; [done|]. simpl.
  rewrite Hf. destruct (f a b); simpl; [apply IH | done].
Qed.

Lemma indexed_leafs_with_exact fuel : forall h p,
  indexed_leafs_with mean fuel h p = indexed_leafs fuel h p.
Proof.
  induction fuel as [|fuel IH]; intros h p; [done|]. simpl.
  destruct (node_at h p) as [pn|]; [|done]. simpl.
  destruct (getitem "children" (children pn)) as [cs|]; [|done]. simpl.
  rewrite (foldM_ext (index_child (indexed_leafs fuel) p)
             (index_child (indexed_leafs_with mean fuel) p)); [done|].
  intros [hi idx] c. unfold index_child.
  destruct (node_at _ c) as [cn|]; [|done]. simpl.
  destruct (leaf cn); [done|]. by rewrite IH.
Qed.

Lemma tree_weights_with_exact fn acc dl :
  tree_weights_with Qplus Qminus mean fn acc dl = tree_weights fn acc dl.
Proof.
  destruct acc as [score fw], dl as [d id].
  unfold tree_weights_with, tree_weights.
  destruct (parse_tree_dump d) as [[h0 root]|]; [|done].
  cbn [mbind result_bind]. destruct root as [root|]; [|done].
  cbn [mbind result_bind]. by rewrite indexed_leafs_with_exact.
Qed.

(** With exact addition, subtraction and mean, the decomposer over an
    arithmetic is [target_feature_weights]. *)
Lemma target_feature_weights_with_exact leaf_ids tree_dumps fn :
  target_feature_weights_with Qplus Qminus mean leaf_ids tree_dumps fn =
  target_feature_weights leaf_ids tree_dumps fn.
Proof.
  unfold target_feature_weights_with, target_feature_weights.
  apply foldM_ext. intros acc dl. symmetry. apply tree_weights_with_exact.
Qed.

(** C2 (amended): with exact addition, subtraction and mean, for a dump
    that parses and every leaf of its index, the vector that the decomposer
    returns for that leaf (bias slot included) sums to the leaf's value, and
    so does the score: the changes along the path and the aggregate value of
    the root telescope.  The vector has one entry per feature name, and the
    value is the one that the dump gives for the leaf. *)
Theorem feature_weights_sum_to_leaf_value dump leaf_id fn h0 root h idx l n v
    score feature_weights :
  parse_tree_dump dump = Ok (h0, Some root) ->
  indexed_leafs_with mean (length h0) h0 root = Ok (h, idx) ->
  idx !! leaf_id = Some l -> h !! l = Some n -> leaf n = Some v ->
  target_feature_weights_with Qplus Qminus mean [leaf_id] [dump] fn =
    Ok (score, feature_weights) ->
  (score == v)%Q /\
  (Qsum feature_weights == v)%Q /\
  length feature_weights = len fn /\
  (forall n0 v0,
     ~ has_leaf h0 root -> h0 !! l = Some n0 -> leaf n0 = Some v0 -> v0 = v).
Proof.
  rewrite indexed_leafs_with_exact, target_feature_weights_with_exact.
  intros Hparse Hidx Hl Hn Hv H.
  unfold target_feature_weights in H.
  change (zip [dump] [leaf_id]) with [(dump, leaf_id)] in H.
  cbn [foldM] in H.
  apply bind_Ok in H as ([s1 fw1] & H1 & H). injection H as -> ->.
  apply tree_weights_Ok in H1
    as (h0' & root' & h' & idx' & l' & n' & v' &
        Hparse' & Hidx' & Hl' & Hn' & Hv' & -> & Hs & Hlen).
  rewrite Hparse in Hparse'. injection Hparse' as <- <-.
  rewrite Hidx in Hidx'. injection Hidx' as <- <-.
  rewrite Hl in Hl'. injection Hl' as <-.
  rewrite Hn in Hn'. injection Hn' as <-.
  rewrite Hv in Hv'. injection Hv' as <-.
  rewrite Qsum_replicate in Hs.
  assert (Heq : (Qsum feature_weights == v)%Q) by (rewrite Hs; ring).
  split; [ring|]. split; [done|]. split.
  - by rewrite Hlen, length_replicate.
  - intros n0 v0 Hroot Hn0 Hv0.
    destruct (parse_tree_dump_store _ _ _ Hparse) as (-> & _ & Hgt & _).
    pose proof (indexed_leafs_spec _ _ _ _ _ Hgt Hroot Hidx) as Hpost.
    destruct (proj2 (ip_evolves _ _ _ _ Hpost) _ _ Hn0) as (n' & Hn' & _ & V).
    rewrite Hn in Hn'. injection Hn' as <-.
    rewrite (V _ Hv0) in Hv. by injection Hv.
Qed.

(** ** Aggregate values *)

Lemma indexed_leafs_children fuel h p r :
  indexed_leafs fuel h p = Ok r ->
  exists n cs, h !! p = Some n /\ children n = Some cs.
Proof.
  destruct fuel as [|fuel]; [done|]. simpl. intros H.
  apply bind_Ok in H as (pn & Hpn & H). apply node_at_Ok in Hpn.
  apply bind_Ok in H as (cs & Hcs & _). apply getitem_Ok in Hcs. eauto.
Qed.

(** When no node with a ['leaf'] has children, the indexer reaches every
    node of a parsed tree. *)
Lemma indexed_leafs_reaches h0 h idx :
  children_gt h0 ->
  (forall l, 0 < l < length h0 ->
     exists p n cs, h0 !! p = Some n /\ children n = Some cs /\ l ∈ cs) ->
  (forall l n, h0 !! l = Some n -> is_Some (leaf n) -> children n = None) ->
  ipost h0 0 h idx ->
  forall l, l < length h0 -> has_leaf h l.
Proof.
  intros Hgt Hchild Hwf Hpost l.
  induction l as [l IH] using lt_wf_ind. intros Hl.
  destruct (decide (l = 0)) as [->|Hne]; [by eapply ip_leaf|].
  destruct (Hchild l) as (p & n & cs & Hn & Hcs & Hin); [lia|].
  destruct (Hgt _ _ _ _ Hn Hcs Hin) as [Hpl _].
  assert (Hp : has_leaf h p) by (apply IH; lia).
  destruct (ip_agg _ _ _ _ Hpost _ Hp) as [(n0 & v & Hn0 & Hv)|Hagg].
  - rewrite Hn in Hn0. injection Hn0 as <-.
    rewrite (Hwf _ _ Hn) in Hcs by eauto. done.
  - destruct Hagg as (n' & cs' & vs & Hn' & Hcs' & Hvs & _).
    destruct (children_evolves _ _ _ _ _ (ip_evolves _ _ _ _ Hpost) Hn Hn')
      as (Hc & _).
    eapply child_leafs_has_leaf; [exact Hvs|]. congruence.
Qed.


(** ** The functions return on the stores that the parser builds *)

Lemma branches_have_children_evolves h h' :
  evolves h h' -> branches_have_children h -> branches_have_children h'.
Proof.
  intros Hev Hb l n' Hn' Hleaf.
  assert (Hl : l < length h).
  { rewrite <- (proj1 Hev). by eapply lookup_lt_Some. }
  apply lookup_lt_is_Some_2 in Hl as [n Hn].
  destruct (proj2 Hev _ _ Hn) as (n2 & Hn2 & _ & V).
  rewrite Hn' in Hn2. injection Hn2 as <-.
  destruct (children_evolves _ _ _ _ _ Hev Hn Hn') as (-> & _).
  apply (Hb _ _ Hn). destruct (leaf n) as [v|] eqn:Hv; [|done].
  rewrite (V v) in Hleaf; done.
Qed.

Lemma child_leafs_total h cs :
  (forall c, c ∈ cs -> has_leaf h c) -> exists vs, child_leafs h cs = Ok vs.
Proof.
  induction cs as [|c cs IH]; intros H; simpl; [by eexists|].
  destruct (H c) as (n & v & Hn & Hv); [left|].
  destruct IH as [vs Hvs]; [intros; apply H; by right|].
  apply node_at_Ok in Hn. rewrite Hn. simpl. rewrite Hv. simpl.
  rewrite Hvs. by eexists.
Qed.

Lemma index_children_total fuel h p :
  (forall h1 c, children_gt h1 -> branches_have_children h1 ->
     ~ has_leaf h1 c -> c < length h1 -> length h1 - c <= fuel ->
     exists h2 sub, indexed_leafs fuel h1 c = Ok (h2, sub)) ->
  children_gt h -> branches_have_children h -> length h - p <= S fuel ->
  forall cs hi idx,
    evolves h hi -> (forall c, c ∈ cs -> p < c < length h) ->
    exists hf idxf,
      foldM (index_child (indexed_leafs fuel) p) (hi, idx) cs = Ok (hf, idxf) /\
      evolves hi hf /\ forall c, c ∈ cs -> has_leaf hf c.
Proof.
  intros IH Hgt Hb Hfuel cs.
  induction cs as [|c cs IHcs]; intros hi idx Hev Hcs.
  - exists hi, idx. split; [done|]. split; [apply evolves_refl|].
    intros c Hc. by apply elem_of_nil in Hc.
  - destruct (Hcs c) as [Hpc Hcl]; [left|].
    pose proof (evolves_set_parent hi p c) as E1.
    set (h1 := alter (set_parent p) c hi) in *.
    assert (Hev1 : evolves h h1) by (by eapply evolves_trans).
    assert (Hc1 : c < length h1) by (rewrite (proj1 Hev1); done).
    destruct (lookup_lt_is_Some_2 _ _ Hc1) as [cn Hcn].
    assert (Hstep : exists h2 idx2,
      index_child (indexed_leafs fuel) p (hi, idx) c = Ok (h2, idx2) /\
      evolves h1 h2 /\ has_leaf h2 c).
    { unfold index_child. fold h1. apply node_at_Ok in Hcn as Hcn'.
      rewrite Hcn'. simpl. destruct (leaf cn) as [v|] eqn:Hv.
      - eexists _, _. split; [done|]. split; [apply evolves_refl|].
        by exists cn, v.
      - assert (Hnl : ~ has_leaf h1 c).
        { intros (n & v & Hn & Hv'). congruence. }
        assert (Hgt1 : children_gt h1) by (by eapply children_gt_evolves).
        destruct (IH h1 c) as (h2 & sub & Hrec); try done.
        { by eapply branches_have_children_evolves. }
        { rewrite (proj1 Hev1). lia. }
        rewrite Hrec. simpl. eexists _, _. split; [done|].
        pose proof (indexed_leafs_spec _ _ _ _ _ Hgt1 Hnl Hrec) as Hpost.
        split; [apply Hpost | apply Hpost]. }
    destruct Hstep as (h2 & idx2 & Hstep & Hev2 & Hleaf2).
    destruct (IHcs h2 idx2) as (hf & idxf & Hrest & Hevf & Hleafs).
    { eapply evolves_trans; [exact Hev1 | exact Hev2]. }
    { intros c' Hc'. apply Hcs. by right. }
    exists hf, idxf. cbn [foldM]. rewrite Hstep. simpl. split; [done|].
    split; [eapply evolves_trans; [exact E1|]; by eapply evolves_trans|].
    intros c' [->|Hc']%elem_of_cons; [by eapply has_leaf_evolves | auto].
Qed.

(** On a store whose nodes were created before their children and whose
    nodes without ['leaf'] have children, the indexer returns when it is
    called on a node without ['leaf'], and a recursion as deep as the store
    is long is enough. *)
Lemma indexed_leafs_total fuel : forall h p,
  children_gt h -> branches_have_children h -> ~ has_leaf h p ->
  p < length h -> length h - p <= fuel ->
  exists h' idx, indexed_leafs fuel h p = Ok (h', idx).
Proof.
  induction fuel as [|fuel IH]; intros h p Hgt Hb Hnl Hp Hfuel; [lia|].
  destruct (lookup_lt_is_Some_2 _ _ Hp) as [pn Hpn].
  assert (Hleaf : leaf pn = None).
  { destruct (leaf pn) as [v|] eqn:Hv; [|done]. destruct Hnl. by exists pn, v. }
  destruct (Hb _ _ Hpn Hleaf) as [cs Hcs].
  destruct (index_children_total fuel h p IH Hgt Hb Hfuel cs h ∅)
    as (hf & idxf & Hloop & Hev & Hleafs).
  { apply evolves_refl. }
  { intros c Hc. by eapply Hgt. }
  destruct (child_leafs_total hf cs Hleafs) as [vs Hvs].
  simpl. apply node_at_Ok in Hpn. rewrite Hpn. simpl. rewrite Hcs. simpl.
  rewrite Hloop. simpl. rewrite Hvs. simpl. by eexists _, _.
Qed.

(** The indexer returns on a parsed tree whose root is a branch and whose
    branches have children. *)
Lemma parsed_tree_indexed text_dump h0 root :
  parse_tree_dump text_dump = Ok (h0, Some root) ->
  branches_have_children h0 -> ~ has_leaf h0 root ->
  exists h idx, indexed_leafs (length h0) h0 root = Ok (h, idx).
Proof.
  intros Hparse Hb Hroot.
  destruct (parse_tree_dump_store _ _ _ Hparse) as (-> & Hlen & Hgt & _).
  apply indexed_leafs_total; [done..|lia].
Qed.

(** The walk from a node to the root ends when parents were created before
    their children. *)
Lemma ancestors_total h : parents_lt h ->
  forall fuel l, l < length h -> l < fuel ->
    exists up, ancestors fuel h l = Ok up.
Proof.
  intros Hlt fuel. induction fuel as [|fuel IH]; intros l Hl Hfuel; [lia|].
  destruct (lookup_lt_is_Some_2 _ _ Hl) as [n Hn]. simpl.
  apply node_at_Ok in Hn as Hn'. rewrite Hn'. simpl.
  destruct (parent n) as [q|] eqn:Hq; [|by eexists].
  pose proof (Hlt _ _ _ Hn Hq).
  destruct (IH q) as [rest Hrest]; [lia..|]. rewrite Hrest. by eexists.
Qed.

(** After the indexer has run on a parsed tree, every ['parent'] was
    created before its child and has an aggregate value. *)
Lemma indexed_parents h0 h idx :
  (forall l n, h0 !! l = Some n -> parent n = None) ->
  ipost h0 0 h idx ->
  parents_lt h /\
  forall l n q, h !! l = Some n -> parent n = Some q -> has_leaf h q.
Proof.
  intros Hpar Hpost. split.
  - intros l n q Hn Hq.
    destruct (ip_parent _ _ _ _ Hpost _ _ _ Hn Hq) as [(m & Hm & Hmq)|[? _]];
      [|done].
    rewrite (Hpar _ _ Hm) in Hmq. done.
  - intros l n q Hn Hq.
    destruct (ip_parent _ _ _ _ Hpost _ _ _ Hn Hq) as [(m & Hm & Hmq)|[_ ?]];
      [|done].
    rewrite (Hpar _ _ Hm) in Hmq. done.
Qed.

(** ** When the decomposition fails *)


Lemma elem_of_rev {A} (x : A) l : x ∈ rev l <-> x ∈ l.
Proof. rewrite !list_elem_of_In. symmetry. apply in_rev. Qed.


Lemma split_change_ok h fw p c :
  has_leaf h p -> has_leaf h c ->
  is_ok (split_change h fw (p, c)) = split_ok (length fw) h p.
Proof.
  intros (pn & pv & Hpn & Hpv) (cn & cv & Hcn & Hcv).
  unfold split_change, split_ok, np_iadd, node_at. rewrite Hpn, Hcn. simpl.
  destruct (split pn) as [s|]; [|done]. simpl.
  destruct (feature_idx s) as [i|]; [|done]. simpl.
  destruct (np_index (length fw) i); [|done]. simpl.
  by rewrite Hcv, Hpv.
Qed.

Lemma path_changes_ok h path : forall fw,
  (forall x, x ∈ path -> has_leaf h x) ->
  is_ok (foldM (split_change h) fw (zip path (tail path))) = true <->
  forall p, p ∈ removelast path -> split_ok (length fw) h p = true.
Proof.
  induction path as [|x [|y path] IH]; intros fw Hleaf.
  - split; [intros _ p Hp; by apply elem_of_nil in Hp | done].
  - split; [intros _ p Hp; by apply elem_of_nil in Hp | done].
  - change (zip (x :: y :: path) (tail (x :: y :: path)))
      with ((x, y) :: zip (y :: path) (tail (y :: path))).
    change (removelast (x :: y :: path)) with (x :: removelast (y :: path)).
    cbn [foldM].
    assert (Hx : has_leaf h x) by (apply Hleaf; left).
    assert (Hy : has_leaf h y) by (apply Hleaf; right; left).
    pose proof (split_change_ok h fw x y Hx Hy) as Hstep.
    destruct (split_change h fw (x, y)) as [fw1|e] eqn:H1; simpl in Hstep.
    + apply split_change_sum in H1 as [_ Hlen]. simpl.
      rewrite (IH fw1) by (intros; apply Hleaf; by right). rewrite Hlen.
      split.
      * intros H p [->|Hp]%elem_of_cons; [done | auto].
      * intros H p Hp. apply H. by right.
    + simpl. split; [done|]. intros H.
      assert (split_ok (length fw) h x = true) by (apply H; left). congruence.
Qed.

Lemma ancestors_have_leaf h :
  (forall l n q, h !! l = Some n -> parent n = Some q -> has_leaf h q) ->
  forall fuel l up,
    has_leaf h l -> ancestors fuel h l = Ok up ->
    forall x, x ∈ up -> has_leaf h x.
Proof.
  intros Hpar fuel. induction fuel as [|fuel IH]; intros l up Hl H; [done|].
  simpl in H. apply bind_Ok in H as (n & Hn & H). apply node_at_Ok in Hn.
  destruct (parent n) as [q|] eqn:Hq.
  - apply bind_Ok in H as (rest & Hrest & H). injection H as <-.
    intros x [->|Hx]%elem_of_cons; [done|].
    eapply IH; [|exact Hrest|exact Hx]. by eapply Hpar.
  - injection H as <-. by intros x ->%list_elem_of_singleton.
Qed.

(** One turn of the loop over the trees, once the tree is parsed and
    indexed and the path is built. *)
Lemma tree_weights_path fn s fw d id h0 root h idx l ln v up :
  parse_tree_dump d = Ok (h0, Some root) ->
  indexed_leafs (length h0) h0 root = Ok (h, idx) ->
  idx !! id = Some l -> h !! l = Some ln -> leaf ln = Some v ->
  ancestors (length h) h l = Ok up ->
  tree_weights fn (s, fw) (d, id) =
    fw1 ← foldM (split_change h) fw (zip (rev up) (tail (rev up)));
    fw2 ← np_iadd fw1 (bias_idx fn)
            (match rev up with
             | [] => Raise IndexError
             | r :: _ => rn ← node_at h r; getitem "leaf" (leaf rn)
             end);
    Ok ((s + v)%Q, fw2).
Proof.
  intros Hparse Hidx Hl Hln Hv Hup. unfold tree_weights.
  rewrite Hparse. cbn [mbind result_bind]. rewrite Hidx.
  cbn [mbind result_bind]. rewrite Hl. cbn [mbind result_bind].
  apply node_at_Ok in Hln. rewrite Hln. cbn [mbind result_bind].
  rewrite Hv. cbn [mbind result_bind getitem]. rewrite Hup. done.
Qed.


(** ** The ['missing'] entry is not read *)

Lemma foldM_rmap {A A' B} (g : A -> A') (f : A -> B -> result A)
    (f' : A' -> B -> result A') l : forall a,
  (forall a b, f' (g a) b = rmap g (f a b)) ->
  foldM f' (g a) l = rmap g (foldM f a l).
Proof.
  induction l as [|b l IH]; intros a Hf; [done|]. simpl.
  rewrite Hf. destruct (f a b) as [a1|e]; simpl; [by apply IH | done].
Qed.

Lemma node_at_erase h l : node_at (erase <$> h) l = rmap erase (node_at h l).
Proof. unfold node_at. rewrite list_lookup_fmap. by destruct (h !! l). Qed.

Lemma erase_alter (f : node -> node) (h : heap) (l : loc) :
  (forall n, erase (f n) = f (erase n)) ->
  erase <$> alter f l h = alter f l (erase <$> h).
Proof. intros Hf. apply list_fmap_alter, Forall_true. auto. Qed.

Lemma child_leafs_erase h cs : child_leafs (erase <$> h) cs = child_leafs h cs.
Proof.
  induction cs as [|c cs IH]; [done|]. simpl.
  rewrite node_at_erase, IH. by destruct (node_at h c).
Qed.

Lemma index_child_erase rec rec' p st c :
  (forall h c, rec' (erase <$> h) c = rmap herase (rec h c)) ->
  index_child rec' p (herase st) c = rmap herase (index_child rec p st c).
Proof.
  intros Hrec. destruct st as [h idx]. unfold index_child, herase. simpl.
  rewrite <- erase_alter by done. rewrite node_at_erase.
  destruct (node_at _ c) as [cn|e]; [|done]. simpl.
  destruct (leaf cn); [done|]. rewrite Hrec.
  by destruct (rec _ c) as [[h2 sub]|e].
Qed.

Lemma indexed_leafs_erase fuel : forall h p,
  indexed_leafs fuel (erase <$> h) p = rmap herase (indexed_leafs fuel h p).
Proof.
  induction fuel as [|fuel IH]; intros h p; [done|]. simpl.
  rewrite node_at_erase. destruct (node_at h p) as [pn|e]; [|done]. simpl.
  destruct (children pn) as [cs|]; [|done]. simpl.
  change (erase <$> h, (∅ : gmap Z loc)) with (herase (h, ∅)).
  rewrite (foldM_rmap herase (index_child (indexed_leafs fuel) p))
    by (intros; by apply index_child_erase).
  destruct (foldM _ (h, ∅) cs) as [[hi idx]|e]; [|done]. simpl.
  rewrite child_leafs_erase. destruct (child_leafs hi cs) as [vs|e]; [|done].
  simpl. unfold herase. simpl. by rewrite erase_alter.
Qed.

Lemma ancestors_erase fuel : forall h l,
  ancestors fuel (erase <$> h) l = ancestors fuel h l.
Proof.
  induction fuel as [|fuel IH]; intros h l; [done|]. simpl.
  rewrite node_at_erase. destruct (node_at h l) as [n|e]; [|done]. simpl.
  destruct (parent n); [|done]. by rewrite IH.
Qed.

Lemma split_change_erase h fw pc :
  split_change (erase <$> h) fw pc = split_change h fw pc.
Proof.
  destruct pc as [p c]. unfold split_change. rewrite !node_at_erase.
  destruct (node_at h p) as [pn|e]; [|done]. simpl.
  destruct (split pn) as [s|]; [|done]. simpl.
  destruct (feature_idx s) as [i|]; [|done]. simpl.
  destruct (node_at h c); done.
Qed.

Lemma tree_weights_parsed_erase fn acc leaf_id h0 root :
  tree_weights_parsed fn acc leaf_id (erase <$> h0, root) =
  tree_weights_parsed fn acc leaf_id (h0, root).
Proof.
  destruct acc as [s fw]. unfold tree_weights_parsed.
  destruct root as [r|]; [|done]. cbn [mbind result_bind].
  rewrite length_fmap, indexed_leafs_erase.
  destruct (indexed_leafs (length h0) h0 r) as [[h idx]|e]; [|done].
  cbn [rmap herase fst snd mbind result_bind].
  destruct (idx !! leaf_id) as [l|]; [|done]. cbn [mbind result_bind].
  rewrite node_at_erase. destruct (node_at h l) as [ln|e]; [|done].
  cbn [rmap mbind result_bind]. change (leaf (erase ln)) with (leaf ln).
  destruct (getitem "leaf" (leaf ln)) as [v|e]; [|done]. cbn [mbind result_bind].
  rewrite length_fmap, ancestors_erase.
  destruct (ancestors (length h) h l) as [up|e]; [|done]. cbn [mbind result_bind].
  rewrite (foldM_ext (split_change h)) by apply split_change_erase.
  destruct (foldM (split_change h) fw _) as [fw1|e]; [|done].
  cbn [mbind result_bind].
  destruct (rev up) as [|r0 path]; [done|].
  rewrite node_at_erase. by destruct (node_at h r0).
Qed.

Lemma tree_weights_split fn acc d leaf_id :
  tree_weights fn acc (d, leaf_id) =
  p ← parse_tree_dump d; tree_weights_parsed fn acc leaf_id p.
Proof.
  destruct acc as [s fw]. unfold tree_weights, tree_weights_parsed.
  by destruct (parse_tree_dump d) as [[h0 root]|e].
Qed.

Lemma branch_line_not_empty f : wf_fields f = true -> branch_line f <> EmptyString.
Proof.
  unfold wf_fields, branch_line. intros H.
  repeat (apply andb_prop in H as [H ?]).
  destruct (f_tabs f) as [|t ts]; [|done].
  destruct (f_id f) as [|c cs]; done.
Qed.

Lemma wf_with_missing f m :
  wf_fields f = true -> run is_digit m = true ->
  wf_fields (with_missing m f) = true.
Proof.
  unfold wf_fields. intros H Hm.
  repeat (apply andb_prop in H as [H ?]). simpl.
  repeat (apply andb_true_intro; split); done.
Qed.

Lemma place_node_variant st1 st2 d n1 n2 :
  perase st1 = perase st2 -> erase n1 = erase n2 ->
  rmap perase (place_node st1 d n1) = rmap perase (place_node st2 d n2).
Proof.
  unfold perase. intros [= Hh Hr Hs] Hn.
  assert (Hlen : length (p_heap st1) = length (p_heap st2)).
  { by rewrite <- (length_fmap erase (p_heap st1)), Hh, length_fmap. }
  unfold place_node. rewrite Hs, Hlen.
  destruct (d =? 0)%nat.
  - destruct (p_stack st2); [|done]. simpl. unfold perase. simpl.
    rewrite !fmap_app, Hh. cbn [fmap list_fmap]. by rewrite Hn.
  - destruct (length (p_stack st2) <? d)%nat; [done|].
    destruct (last _) as [top|]; [|done]. simpl. unfold perase. simpl.
    rewrite !erase_alter by done. rewrite !fmap_app, Hh, Hr.
    cbn [fmap list_fmap]. by rewrite Hn.
Qed.

Lemma parse_step_variant st1 st2 l1 l2 :
  perase st1 = perase st2 -> missing_variant l1 l2 ->
  rmap perase (parse_step st1 l1) = rmap perase (parse_step st2 l2).
Proof.
  intros Hst Hv. destruct Hv as [line|f m Hf Hm].
  - unfold parse_step. destruct line as [|a line]; [simpl; by f_equal|].
    destruct (_parse_dump_line _) as [[d nd]|e]; [|done].
    cbn [mbind result_bind]. by apply place_node_variant.
  - pose proof (wf_with_missing _ _ Hf Hm) as Hf'.
    pose proof (branch_line_not_empty _ Hf) as Hne.
    pose proof (branch_line_not_empty _ Hf') as Hne'.
    unfold parse_step.
    destruct (branch_line f) as [|a s] eqn:E; [done|]. rewrite <- E.
    destruct (branch_line (with_missing m f)) as [|a' s'] eqn:E'; [done|].
    rewrite <- E'. rewrite !parse_branch_line by done.
    change (f_condition (with_missing m f)) with (f_condition f).
    destruct (float (f_condition f)) as [c|e]; [|done].
    cbn [mbind result_bind]. by apply place_node_variant.
Qed.

Lemma parse_lines_variant ls1 ls2 :
  Forall2 missing_variant ls1 ls2 ->
  forall st1 st2, perase st1 = perase st2 ->
    rmap perase (foldM parse_step st1 ls1) = rmap perase (foldM parse_step st2 ls2).
Proof.
  induction 1 as [|l1 l2 ls1 ls2 Hl _ IH]; intros st1 st2 Hst.
  - simpl. by f_equal.
  - simpl. pose proof (parse_step_variant _ _ _ _ Hst Hl) as Hstep.
    destruct (parse_step st1 l1) as [st1'|e1], (parse_step st2 l2) as [st2'|e2];
      cbn [rmap] in Hstep; try done.
    cbn [mbind result_bind]. apply IH. congruence.
Qed.

(** C9: two dumps that differ only in the values of their [missing=]
    fields are decomposed alike: whatever the leaf id, the score and the
    contribution vector (or the failure) are the same. *)
Theorem missing_noninterference d1 d2 leaf_id fn :
  Forall2 missing_variant (split_lines d1) (split_lines d2) ->
  target_feature_weights [leaf_id] [d1] fn =
  target_feature_weights [leaf_id] [d2] fn.
Proof.
  intros Hv. unfold target_feature_weights.
  change (zip [d1] [leaf_id]) with [(d1, leaf_id)].
  change (zip [d2] [leaf_id]) with [(d2, leaf_id)].
  cbn [foldM]. rewrite !tree_weights_split.
  pose proof (parse_lines_variant _ _ Hv (PState [] None []) (PState [] None [])
                eq_refl) as Hparse.
  unfold parse_tree_dump, parse_lines.
  destruct (foldM parse_step _ (split_lines d1)) as [st1|e1],
           (foldM parse_step _ (split_lines d2)) as [st2|e2];
    simpl in Hparse; try done; [|by injection Hparse as <-].
  injection Hparse as Hh Hr Hs. cbn [mbind result_bind].
  rewrite <- (tree_weights_parsed_erase _ _ _ (p_heap st1)).
  rewrite <- (tree_weights_parsed_erase _ _ _ (p_heap st2)).
  by rewrite Hh, Hr.
Qed.


(** ** Leaf lines and blank lines *)

Lemma leaf_match_line f :
  wf_leaf_fields f = true ->
  branch_match (str (leaf_line f)) = None /\
  leaf_match (str (leaf_line f)) = Some (lf_tabs f, lf_id f, lf_value f).
Proof.
  unfold wf_leaf_fields. intros H.
  repeat (apply andb_prop in H as [H ?]).
  unfold leaf_line, str. rewrite list_ascii_of_string_of_list_ascii. split.
  - unfold branch_match.
    rewrite span_app; [|done|by eapply run_head, digit_not_tab].
    rewrite span1_app by done. done.
  - unfold leaf_match.
    rewrite span_app; [|done|by eapply run_head, digit_not_tab].
    rewrite span1_app by done. simpl.
    rewrite <- (app_nil_r (lf_value f)) at 1. rewrite span_app by done. done.
Qed.

(** X1: a leaf line (tabs, a run of digits, [:leaf=], a value without
    newline) is parsed into the number of its tabs and a node that has only
    a ['nodeid'] and a ['leaf']; when [float()] rejects the value, its
    [ValueError] is the result. *)
Theorem parse_dump_line_leaf f :
  wf_leaf_fields f = true ->
  _parse_dump_line (leaf_line f) =
    v ← float (lf_value f);
    Ok (length (lf_tabs f),
        Node None (int_of_digits (lf_id f)) None None None None None (Some v)
             None None).
Proof.
  intros H. destruct (leaf_match_line f H) as [Hb Hl].
  unfold _parse_dump_line. by rewrite Hb, Hl.
Qed.

Lemma parse_lines_nonblank lines : forall st,
  foldM parse_step st lines = foldM parse_step st (List.filter nonblank lines).
Proof.
  induction lines as [|line lines IH]; intros st; [done|].
  destruct line as [|a line]; simpl; [apply IH|].
  destruct (_parse_dump_line (String a line) ≫= _) as [st1|e]; simpl; [apply IH | done].
Qed.

(** X2: the parser skips empty lines: two dumps with the same non-empty
    lines, in the same order, give the same result. *)
Theorem parse_tree_dump_skips_blank_lines d1 d2 :
  List.filter nonblank (split_lines d1) = List.filter nonblank (split_lines d2) ->
  parse_tree_dump d1 = parse_tree_dump d2.
Proof.
  intros H. unfold parse_tree_dump, parse_lines.
  by rewrite (parse_lines_nonblank (split_lines d1)),
             (parse_lines_nonblank (split_lines d2)), H.
Qed.


(** ** The tree that the parser builds from the indentation *)

Lemma parse_line_depth line d nd :
  _parse_dump_line line = Ok (d, nd) -> d = line_depth line.
Proof.
  unfold _parse_dump_line, branch_match, leaf_match, line_depth. intros H.
  destruct (span is_tab (str line)) as [tabs r]. simpl.
  destruct (span1 is_digit r ≫= _) as [[[[[[[? ?] ?] ?] ?] ?] ?]|] eqn:Hb.
  - repeat (match type of Hb with
            | (?m ≫= _) = Some _ =>
                let x := fresh "x" in
                destruct m as [x|]; [|discriminate Hb];
                cbn [mbind option_bind] in Hb;
                try match type of x with (_ * _)%type => destruct x end
            end).
    destruct (at_end _); [|done]. injection Hb as <- _ _ _ _ _ _.
    apply bind_Ok in H as (c & _ & H). by injection H as <- _.
  - clear Hb.
    destruct (span1 is_digit r ≫= _) as [[[? ?] ?]|] eqn:Hl; [|done].
    repeat (match type of Hl with
            | (?m ≫= _) = Some _ =>
                let x := fresh "x" in
                destruct m as [x|]; [|discriminate Hl];
                cbn [mbind option_bind] in Hl;
                try match type of x with (_ * _)%type => destruct x end
            end).
    destruct (span not_newline _) as [? ?]. destruct (at_end _); [|done].
    injection Hl as <- _ _.
    apply bind_Ok in H as (c & _ & H). by injection H as <- _.
Qed.


Lemma lookup_push (h : heap) top tn nd q :
  h !! top = Some tn ->
  alter (append_child (length h)) top (h ++ [nd]) !! q =
    if decide (q = top) then Some (append_child (length h) tn)
    else if decide (q = length h) then Some nd
    else h !! q.
Proof.
  intros Htn. pose proof (lookup_lt_Some _ _ _ Htn) as Htl.
  destruct (decide (q = top)) as [->|Hne].
  - by rewrite list_lookup_alter_eq, lookup_app_l, Htn.
  - rewrite list_lookup_alter_ne by done.
    destruct (decide (q = length h)) as [->|Hnl].
    + by rewrite lookup_app_r, Nat.sub_diag.
    + destruct (decide (q < length h)).
      * by rewrite lookup_app_l.
      * rewrite lookup_ge_None_2 by (rewrite length_app; simpl; lia).
        symmetry. apply lookup_ge_None_2. lia.
Qed.

Lemma is_child_lt_length h p c : is_child h p c -> p < length h.
Proof. intros (n & cs & Hn & _). by eapply lookup_lt_Some. Qed.

Lemma is_child_push (h : heap) top tn nd p c :
  h !! top = Some tn -> children nd = None ->
  is_child (alter (append_child (length h)) top (h ++ [nd])) p c <->
  is_child h p c \/ (p = top /\ c = length h).
Proof.
  intros Htn Hnd. unfold is_child. setoid_rewrite (lookup_push h top tn nd _ Htn).
  split.
  - intros (n & cs & Hn & Hcs & Hc).
    destruct (decide (p = top)) as [->|Hne].
    + injection Hn as <-. simpl in Hcs. injection Hcs as <-.
      apply elem_of_app in Hc as [Hc| ->%list_elem_of_singleton]; [|by right].
      left. destruct (children tn) as [cs|] eqn:E; [by exists tn, cs|].
      by apply elem_of_nil in Hc.
    + destruct (decide (p = length h)) as [->|Hnl]; [congruence|].
      left. by exists n, cs.
  - intros [(n & cs & Hn & Hcs & Hc)|[-> ->]].
    + pose proof (lookup_lt_Some _ _ _ Hn).
      destruct (decide (p = top)) as [->|Hne].
      * rewrite Htn in Hn. injection Hn as <-.
        exists (append_child (length h) tn), (cs ++ [length h]).
        split; [done|]. split; [by simpl; rewrite Hcs|]. set_solver.
      * exists n, cs. rewrite decide_False by lia. done.
    + rewrite decide_True by done.
      exists (append_child (length h) tn), (default [] (children tn) ++ [length h]).
      split; [done|]. split; [done|]. set_solver.
Qed.

Lemma pshape_init : pshape [] (PState [] None []).
Proof.
  split; simpl.
  - constructor.
  - by intros i s Hs.
  - by intros s Hs.
  - by intros i s j line Hs.
  - intros p c (n & cs & Hn & _). by rewrite lookup_nil in Hn.
  - intros p q c (n & cs & Hn & _). by rewrite lookup_nil in Hn.
  - intros p n cs Hn. by rewrite lookup_nil in Hn.
Qed.

Lemma pshape_root line nd :
  _parse_dump_line line = Ok (line_depth line, nd) -> children nd = None ->
  line_depth line = 0 -> pshape [line] (PState [nd] (Some 0) [0]).
Proof.
  intros Hline Hc Hd.
  assert (Hno : forall p c, ~ is_child [nd] p c).
  { intros p c (n & cs & Hn & Hcs & _). destruct p; simpl in Hn; [|done].
    injection Hn as <-. congruence. }
  split; simpl.
  - constructor; [|constructor]. exists nd. split; [done|].
    by destruct nd; simpl in *; subst.
  - intros [|i] s Hs; simpl in Hs; [|done]. injection Hs as <-. by exists line.
  - intros s Hs. by injection Hs.
  - intros [|i] s j l Hs Hj Hl; simpl in Hs; [|done]. injection Hs as <-.
    destruct j; [lia|]. done.
  - intros p c H. by destruct (Hno p c).
  - intros p q c H. by destruct (Hno p c).
  - intros [|p] n cs Hn Hcs; simpl in Hn; [|done]. injection Hn as <-. congruence.
Qed.

Lemma pshape_push ls st line nd d top :
  pinv st -> pshape ls st ->
  _parse_dump_line line = Ok (line_depth line, nd) -> children nd = None ->
  line_depth line = S d -> S d <= length (p_stack st) ->
  last (take (S d) (p_stack st)) = Some top ->
  pshape (ls ++ [line])
    (PState (alter (append_child (length (p_heap st))) top (p_heap st ++ [nd]))
            (p_result st) (take (S d) (p_stack st) ++ [length (p_heap st)])).
Proof.
  intros Hinv [Hnodes Hstack Hstack0 Hbetween Hedge Huniq Hnodup] Hline Hc Hd Hle Htop.
  set (h := p_heap st) in *.
  assert (Hlen : length ls = (length h)) by (by apply Forall2_length in Hnodes).
  assert (Htk : length (take (S d) (p_stack st)) = S d) by (by apply length_take_le).
  assert (Htop' : p_stack st !! d = Some top).
  { rewrite last_lookup, Htk in Htop. simpl in Htop.
    by rewrite lookup_take_lt in Htop by lia. }
  assert (Htl : top < (length h)).
  { eapply (pi_stack _ Hinv). by eapply list_elem_of_lookup_2. }
  destruct (lookup_lt_is_Some_2 h top Htl) as [tn Htn].
  destruct (Hstack _ _ Htop') as (ltop & Hltop & Hdtop).
  assert (Hstk : forall i s,
    (take (S d) (p_stack st) ++ [(length h)]) !! i = Some s ->
    (i <= d /\ p_stack st !! i = Some s) \/ (i = S d /\ s = (length h))).
  { intros i s Hs. apply lookup_app_Some in Hs as [Hs|[Hi Hs]].
    - pose proof (lookup_lt_Some _ _ _ Hs) as Hi. rewrite Htk in Hi.
      rewrite lookup_take_lt in Hs by done. left. split; [lia|done].
    - rewrite Htk in Hi, Hs. right.
      apply list_lookup_singleton_Some in Hs as [? <-]. split; [lia|done]. }
  split; cbn [p_heap p_stack p_result]; fold h.
  - apply Forall2_same_length_lookup. split.
    { rewrite length_alter, !length_app. simpl. lia. }
    intros i x y Hx Hy. rewrite (lookup_push h top tn nd i Htn) in Hy.
    destruct (decide (i = top)) as [->|Hne].
    + injection Hy as <-. rewrite lookup_app_l in Hx by lia.
      destruct (Forall2_lookup_lr _ _ _ _ _ _ Hnodes Hx Htn) as (nd' & H1 & H2).
      exists nd'. split; [done|]. by rewrite <- H2.
    + destruct (decide (i = (length h))) as [->|Hnl].
      * injection Hy as <-. rewrite lookup_app_r, Hlen, Nat.sub_diag in Hx by lia.
        injection Hx as <-. exists nd. split; [done|].
        by destruct nd; simpl in *; subst.
      * pose proof (lookup_lt_Some _ _ _ Hy).
        rewrite lookup_app_l in Hx by lia.
        by eapply Forall2_lookup_lr.
  - intros i s Hs. destruct (Hstk _ _ Hs) as [[Hi Hs']|[-> ->]].
    + destruct (Hstack _ _ Hs') as (line' & Hl' & Hd').
      exists line'. split; [|done]. apply lookup_app_Some. by left.
    + exists line. split; [|done].
      rewrite lookup_app_r, Hlen, Nat.sub_diag by lia. done.
  - intros s Hs. destruct (Hstk _ _ Hs) as [[_ Hs']|[? _]]; [auto|done].
  - intros i s j lj Hs Hsj Hj. destruct (Hstk _ _ Hs) as [[Hi Hs']|[-> ->]].
    + apply lookup_app_Some in Hj as [Hj|[Hjl Hj]].
      * by eapply Hbetween.
      * rewrite Hlen in Hj. apply list_lookup_singleton_Some in Hj as [_ <-]. lia.
    + pose proof (lookup_lt_Some _ _ _ Hj) as Hjl.
      rewrite length_app, Hlen in Hjl. simpl in Hjl. lia.
  - intros p c Hpc. rewrite length_alter, length_app. simpl.
    apply (is_child_push h top tn nd p c Htn Hc) in Hpc as [Hpc|[-> ->]].
    + destruct (Hedge _ _ Hpc) as ([Hp1 Hp2] & lp & lc & Hlp & Hlc & Hdd & Hbt).
      split; [lia|]. exists lp, lc.
      split; [apply lookup_app_Some; by left|].
      split; [apply lookup_app_Some; by left|]. split; [done|].
      intros j lj Hj Hlj. apply lookup_app_Some in Hlj as [Hlj|[Hjl _]].
      * by eapply Hbt.
      * lia.
    + split; [lia|]. exists ltop, line.
      split; [apply lookup_app_Some; by left|].
      split; [by rewrite lookup_app_r, Hlen, Nat.sub_diag by lia|].
      split; [lia|].
      intros j lj Hj Hlj. apply lookup_app_Some in Hlj as [Hlj|[Hjl _]]; [|lia].
      rewrite Hdtop. eapply Hbetween; [exact Htop'| |exact Hlj]. lia.
  - intros p q c Hp Hq.
    apply (is_child_push h top tn nd p c Htn Hc) in Hp.
    apply (is_child_push h top tn nd q c Htn Hc) in Hq.
    destruct Hp as [Hp|[-> ->]], Hq as [Hq|[-> Hq]]; try done.
    + by eapply Huniq.
    + subst c. destruct (Hedge _ _ Hp) as ([_ ?] & _). lia.
    + destruct (Hedge _ _ Hq) as ([_ ?] & _). lia.
  - intros p n cs Hn Hcs. rewrite (lookup_push h top tn nd p Htn) in Hn.
    destruct (decide (p = top)) as [->|Hne].
    + injection Hn as <-. simpl in Hcs. injection Hcs as <-.
      split; [|by destruct (default [] (children tn))].
      apply NoDup_app. split; [|split; [|apply NoDup_singleton]].
      * destruct (children tn) as [cs|] eqn:E; [by eapply Hnodup|apply NoDup_nil_2].
      * intros c Hc' ->%list_elem_of_singleton.
        destruct (children tn) as [cs|] eqn:E; [|by apply elem_of_nil in Hc'].
        destruct (Hedge top (length h)) as ([_ ?] & _); [by exists tn, cs|]. lia.
    + destruct (decide (p = (length h))) as [->|Hnl]; [congruence|]. by eapply Hnodup.
Qed.


Lemma pshape_step ls st line st' :
  pinv st -> pshape ls st -> parse_step st line = Ok st' ->
  pshape (ls ++ List.filter nonblank [line]) st'.
Proof.
  intros Hinv Hshape H. unfold parse_step in H.
  destruct line as [|a line]; [injection H as <-; by rewrite app_nil_r|].
  change (List.filter nonblank [String a line]) with [String a line].
  apply bind_Ok in H as ([d nd] & Hline & H).
  pose proof (parse_line_depth _ _ _ Hline) as ->.
  destruct (parse_line_fresh _ _ _ Hline) as [Hc _]. unfold place_node in H.
  destruct (Nat.eqb_spec (line_depth (String a line)) 0) as [Hd|Hd].
  - destruct (p_stack st) eqn:Hst; [|done]. injection H as <-.
    destruct (pi_empty _ Hinv Hst) as [Hh _].
    pose proof (ps_nodes _ _ Hshape) as Hnodes. rewrite Hh in Hnodes |- *.
    apply Forall2_nil_inv_r in Hnodes as ->. by apply pshape_root.
  - destruct (Nat.ltb_spec (length (p_stack st)) (line_depth (String a line)))
      as [|Hle]; [done|].
    destruct (line_depth (String a line)) as [|d] eqn:Hdepth; [done|].
    assert (Hstk :
      (if (S d <? length (p_stack st))%nat then take (S d) (p_stack st)
       else p_stack st) = take (S d) (p_stack st)).
    { destruct (Nat.ltb_spec (S d) (length (p_stack st))); [done|].
      symmetry. apply take_ge. lia. }
    rewrite Hstk in H. destruct (last _) as [top|] eqn:Htop; [|done].
    injection H as <-. apply pshape_push; try done. by rewrite Hdepth.
Qed.

Lemma parse_lines_shape lines : forall st st' ls,
  pinv st -> pshape ls st -> foldM parse_step st lines = Ok st' ->
  pshape (ls ++ List.filter nonblank lines) st'.
Proof.
  induction lines as [|line lines IH]; intros st st' ls Hinv Hshape H.
  - injection H as <-. by rewrite app_nil_r.
  - simpl in H. apply bind_Ok in H as (st1 & H1 & H).
    pose proof (pshape_step _ _ _ _ Hinv Hshape H1) as Hshape1.
    pose proof (parse_step_inv _ _ _ Hinv H1) as Hinv1.
    pose proof (IH _ _ _ Hinv1 Hshape1 H) as Hfinal.
    rewrite <- app_assoc, <- List.filter_app in Hfinal. exact Hfinal.
Qed.

Lemma parse_tree_dump_shape text_dump h r :
  parse_tree_dump text_dump = Ok (h, r) ->
  exists st,
    p_heap st = h /\ p_result st = r /\ pinv st /\
    pshape (List.filter nonblank (split_lines text_dump)) st.
Proof.
  unfold parse_tree_dump. intros H. apply bind_Ok in H as (st & Hst & H).
  injection H as <- <-. exists st. split; [done|]. split; [done|].
  split.
  - eapply parse_lines_inv; [apply pinv_init | exact Hst].
  - apply (parse_lines_shape _ _ _ [] pinv_init pshape_init Hst).
Qed.

(** X3: the store of a parsed dump is a tree: the children of a node were
    created after it, every node but the first is a child of exactly one
    node, no list of children is empty or has a node twice, and no node has
    a ['parent'] yet. *)
Theorem parse_tree_dump_tree text_dump h r :
  parse_tree_dump text_dump = Ok (h, r) ->
  (forall p c, is_child h p c -> p < c < length h) /\
  (forall c, 0 < c < length h ->
     exists p, is_child h p c /\ forall q, is_child h q c -> q = p) /\
  (forall p n cs, h !! p = Some n -> children n = Some cs ->
     NoDup cs /\ cs <> []) /\
  (forall l n, h !! l = Some n -> parent n = None).
Proof.
  intros H. destruct (parse_tree_dump_shape _ _ _ H) as (st & <- & _ & Hinv & Hs).
  split; [|split; [|split]].
  - intros p c Hpc. by destruct (ps_edge _ _ Hs _ _ Hpc).
  - intros c Hc. destruct (pi_child _ Hinv c Hc) as (p & n & cs & Hn & Hcs & Hin).
    exists p. split; [by exists n, cs|].
    intros q Hq. eapply (ps_unique _ _ Hs); [exact Hq|]. by exists n, cs.
  - apply (ps_nodup _ _ Hs).
  - apply (pi_parent _ Hinv).
Qed.

(** X4: the store of a parsed dump has one node per non-empty line, in the
    order of the lines, each with the entries that [_parse_dump_line] gives
    for its line; the result is the first node, or [None] when there is no
    node. *)
Theorem parse_tree_dump_nodes text_dump h r :
  parse_tree_dump text_dump = Ok (h, r) ->
  Forall2 node_of_line (List.filter nonblank (split_lines text_dump)) h /\
  r = match h with [] => None | _ :: _ => Some 0 end.
Proof.
  intros H. destruct (parse_tree_dump_shape _ _ _ H) as (st & <- & <- & Hinv & Hs).
  split; [apply (ps_nodes _ _ Hs)|].
  destruct (p_stack st) as [|s stack] eqn:Hst.
  - destruct (pi_empty _ Hinv Hst) as [-> ->]. done.
  - assert (Hlt : s < length (p_heap st)).
    { apply (pi_stack _ Hinv). rewrite Hst. left. }
    rewrite (pi_root _ Hinv) by (by rewrite Hst).
    destruct (p_heap st); [simpl in Hlt; lia | done].
Qed.

(** X5: the indentation decides the tree: the first non-empty line has no
    tab, and the parent of a node is the nearest earlier line with one tab
    less (every line between the two is indented more than the parent). *)
Theorem parse_tree_dump_indentation text_dump h r :
  parse_tree_dump text_dump = Ok (h, r) ->
  let ls := List.filter nonblank (split_lines text_dump) in
  (forall l0, ls !! 0 = Some l0 -> line_depth l0 = 0) /\
  (forall p c, is_child h p c ->
     exists lp lc,
       ls !! p = Some lp /\ ls !! c = Some lc /\
       line_depth lc = S (line_depth lp) /\
       forall j lj, p < j < c -> ls !! j = Some lj ->
         line_depth lp < line_depth lj).
Proof.
  intros H ls. destruct (parse_tree_dump_shape _ _ _ H) as (st & <- & _ & Hinv & Hs).
  fold ls in Hs. split.
  - intros l0 Hl0.
    pose proof (Forall2_length _ _ _ (ps_nodes _ _ Hs)) as Hlen.
    destruct (p_stack st) as [|s stack] eqn:Hst.
    + destruct (pi_empty _ Hinv Hst) as [Hh _]. rewrite Hh in Hlen.
      apply lookup_lt_Some in Hl0. simpl in Hlen. lia.
    + assert (H0 : p_stack st !! 0 = Some s) by (by rewrite Hst).
      pose proof (ps_stack0 _ _ Hs _ H0) as ->.
      destruct (ps_stack _ _ Hs _ _ H0) as (line & Hline & Hd). congruence.
  - intros p c Hpc. by destruct (ps_edge _ _ Hs _ _ Hpc) as (_ & ?).
Qed.


(** ** The exception of a failed decomposition *)

Lemma parse_line_kind line d nd :
  _parse_dump_line line = Ok (d, nd) -> is_Some (split nd) \/ is_Some (leaf nd).
Proof.
  unfold _parse_dump_line. intros H.
  destruct (branch_match (str line)) as [[[[[[[? ?] ?] ?] ?] ?] ?]|].
  - apply bind_Ok in H as (c & _ & H). injection H as <- <-. left. by eexists.
  - destruct (leaf_match (str line)) as [[[? ?] ?]|]; [|done].
    apply bind_Ok in H as (c & _ & H). injection H as <- <-. right. by eexists.
Qed.

Lemma index_children_parents_branch h0 fuel p :
  children_gt h0 -> ~ has_leaf h0 p ->
  (forall h c h' idx,
     evolves h0 h -> parents_branch h0 h -> ~ has_leaf h c ->
     indexed_leafs fuel h c = Ok (h', idx) -> parents_branch h0 h') ->
  forall cs hi idx hf idxf,
    evolves h0 hi -> parents_branch h0 hi ->
    foldM (index_child (indexed_leafs fuel) p) (hi, idx) cs = Ok (hf, idxf) ->
    evolves h0 hf /\ parents_branch h0 hf.
Proof.
  intros Hgt Hp0 IH cs.
  induction cs as [|c cs IHcs]; intros hi idx hf idxf Hev Hpb H.
  - by injection H as <- <-.
  - cbn [foldM] in H. apply bind_Ok in H as ([h1' idx1] & H1 & H).
    unfold index_child in H1.
    pose proof (evolves_set_parent hi p c) as E1.
    set (h1 := alter (set_parent p) c hi) in *.
    assert (Hev1 : evolves h0 h1) by (by eapply evolves_trans).
    assert (Hpb1 : parents_branch h0 h1).
    { intros l n q Hn Hq. destruct (decide (c = l)) as [<-|Hne].
      - subst h1. rewrite list_lookup_alter_eq in Hn.
        destruct (hi !! c) as [m|]; [|done]. injection Hn as <-.
        simpl in Hq. by injection Hq as <-.
      - subst h1. rewrite list_lookup_alter_ne in Hn by done. by eapply Hpb. }
    apply bind_Ok in H1 as (cn & Hcn & H1). apply node_at_Ok in Hcn.
    destruct (leaf cn) as [v|] eqn:Hleaf.
    + injection H1 as <- <-. by eapply IHcs.
    + apply bind_Ok in H1 as ([h2 sub] & Hrec & H1). injection H1 as <- <-.
      assert (Hnl : ~ has_leaf h1 c).
      { intros (n & v & Hn & Hv). congruence. }
      assert (Hgt1 : children_gt h1) by (by eapply children_gt_evolves).
      pose proof (indexed_leafs_spec _ _ _ _ _ Hgt1 Hnl Hrec) as Hpost.
      eapply IHcs; [| |exact H].
      * eapply evolves_trans; [exact Hev1 | apply Hpost].
      * by eapply IH.
Qed.

(** The indexer makes only nodes that had no ['leaf'] the ['parent'] of a
    node. *)
Lemma parents_are_branches h0 fuel : children_gt h0 ->
  forall h p h' idx,
    evolves h0 h -> parents_branch h0 h -> ~ has_leaf h p ->
    indexed_leafs fuel h p = Ok (h', idx) -> parents_branch h0 h'.
Proof.
  intros Hgt.
  induction fuel as [|fuel IH]; intros h p h' idx Hev Hpb Hnl H; [done|].
  simpl in H.
  apply bind_Ok in H as (pn & Hpn & H). apply node_at_Ok in Hpn.
  apply bind_Ok in H as (cs & Hcs & H). apply getitem_Ok in Hcs.
  apply bind_Ok in H as ([hi idxi] & Hloop & H).
  apply bind_Ok in H as (vs & Hvs & H). injection H as <- <-.
  assert (Hp0 : ~ has_leaf h0 p).
  { intros Hp. apply Hnl. by eapply has_leaf_evolves. }
  destruct (index_children_parents_branch h0 fuel p Hgt Hp0 IH _ _ _ _ _
              Hev Hpb Hloop) as [_ Hpbi].
  intros l n q Hn Hq. destruct (decide (p = l)) as [<-|Hne].
  - rewrite list_lookup_alter_eq in Hn.
    destruct (hi !! p) as [m|] eqn:Hm; [|done]. injection Hn as <-.
    by eapply Hpbi.
  - rewrite list_lookup_alter_ne in Hn by done. by eapply Hpbi.
Qed.

Lemma ancestors_parents h : forall fuel l up,
  ancestors fuel h l = Ok up ->
  forall p, p ∈ tail up -> exists c n, h !! c = Some n /\ parent n = Some p.
Proof.
  intros fuel. induction fuel as [|fuel IH]; intros l up H; [done|].
  simpl in H. apply bind_Ok in H as (n & Hn & H). apply node_at_Ok in Hn.
  destruct (parent n) as [q|] eqn:Hq.
  - apply bind_Ok in H as (rest & Hrest & H). injection H as <-.
    destruct (ancestors_head _ _ _ _ Hrest) as [rest' ->].
    intros p [->|Hp]%elem_of_cons; [by exists l, n|].
    by eapply (IH _ _ Hrest).
  - injection H as <-. intros p Hp. by apply elem_of_nil in Hp.
Qed.

(** The exception of [split_change] when the split of the parent does not
    give a position of the vector. *)
Lemma split_change_raise h fw p c pn s :
  has_leaf h c -> h !! p = Some pn -> split pn = Some s ->
  (f_num_match (str s) = None ->
   split_change h fw (p, c) = Raise AttributeError) /\
  (forall num, f_num_match (str s) = Some num ->
     is_ok (np_index (length fw) (int_of_digits num - 1)) = false ->
     split_change h fw (p, c) = Raise IndexError).
Proof.
  intros _ Hpn Hs. unfold split_change, feature_idx, np_iadd.
  apply node_at_Ok in Hpn. rewrite Hpn. cbn [mbind result_bind].
  rewrite Hs. cbn [mbind result_bind getitem]. split.
  - intros ->. done.
  - intros num -> Hidx. cbn [mbind result_bind].
    unfold np_index in *.
    destruct (_ && _)%bool; [done|]. destruct (_ && _)%bool; done.
Qed.

(** The walk along the path fails at the first split that does. *)
Lemma path_changes_first h e path : forall fw i p,
  (forall x, x ∈ path -> has_leaf h x) ->
  removelast path !! i = Some p ->
  (forall j q, j < i -> removelast path !! j = Some q ->
     split_ok (length fw) h q = true) ->
  (forall fw' c, length fw' = length fw -> has_leaf h c ->
     split_change h fw' (p, c) = Raise e) ->
  foldM (split_change h) fw (zip path (tail path)) = Raise e.
Proof.
  induction path as [|x [|y path] IH]; intros fw i p Hleaf Hi Hbefore Hp.
  - done.
  - done.
  - change (zip (x :: y :: path) (tail (x :: y :: path)))
      with ((x, y) :: zip (y :: path) (tail (y :: path))).
    change (removelast (x :: y :: path)) with (x :: removelast (y :: path))
      in Hi, Hbefore.
    cbn [foldM].
    assert (Hx : has_leaf h x) by (apply Hleaf; left).
    assert (Hy : has_leaf h y) by (apply Hleaf; right; left).
    destruct i as [|i].
    + injection Hi as <-. by rewrite Hp.
    + pose proof (split_change_ok h fw x y Hx Hy) as Hstep.
      rewrite (Hbefore 0 x) in Hstep by (done || lia).
      destruct (split_change h fw (x, y)) as [fw1|] eqn:H1; [|done].
      apply split_change_sum in H1 as [_ Hlen]. cbn [mbind result_bind].
      apply (IH fw1 i p).
      * intros z Hz. apply Hleaf. by right.
      * exact Hi.
      * intros j q Hj Hq. rewrite Hlen. apply (Hbefore (S j)); [lia | done].
      * intros fw' c Hfw'. apply Hp. congruence.
Qed.

(** C5 (amended): the decomposer never looks a split token up in the
    feature-name mapping: of the feature names only the length and the bias
    index matter.  On a parsed and indexed tree, the decomposition of a leaf
    returns exactly when every split token on the path from the root to the
    leaf has the form [f] followed by digits and gives an index inside the
    vector, and the bias index is inside the vector.  Otherwise it fails:
    every node on the path above the leaf has a split token, and the first
    of them, from the root, that does not give a position of the vector
    decides the exception, [AttributeError] for a token of another form
    and [IndexError] for an index outside the vector; when only the bias
    index is outside the vector the exception is [IndexError]. *)
Theorem target_feature_weights_fails_iff dump leaf_id fn h0 root h idx l :
  parse_tree_dump dump = Ok (h0, Some root) ->
  ~ has_leaf h0 root ->
  indexed_leafs (length h0) h0 root = Ok (h, idx) ->
  idx !! leaf_id = Some l ->
  exists up,
    ancestors (length h) h l = Ok up /\
    (is_ok (target_feature_weights [leaf_id] [dump] fn) = true <->
     (forall p, p ∈ tail up -> split_ok (len fn) h p = true) /\
     is_ok (np_index (len fn) (bias_idx fn)) = true) /\
    (forall fn',
       len fn' = len fn -> bias_idx fn' = bias_idx fn ->
       target_feature_weights [leaf_id] [dump] fn' =
       target_feature_weights [leaf_id] [dump] fn) /\
    (forall p, p ∈ tail up ->
       exists pn s, h !! p = Some pn /\ split pn = Some s) /\
    (forall i p pn s,
       rev (tail up) !! i = Some p ->
       (forall j q, j < i -> rev (tail up) !! j = Some q ->
          split_ok (len fn) h q = true) ->
       h !! p = Some pn -> split pn = Some s ->
       (f_num_match (str s) = None ->
        target_feature_weights [leaf_id] [dump] fn = Raise AttributeError) /\
       (forall num, f_num_match (str s) = Some num ->
          is_ok (np_index (len fn) (int_of_digits num - 1)) = false ->
          target_feature_weights [leaf_id] [dump] fn = Raise IndexError)) /\
    ((forall p, p ∈ tail up -> split_ok (len fn) h p = true) ->
     is_ok (np_index (len fn) (bias_idx fn)) = false ->
     target_feature_weights [leaf_id] [dump] fn = Raise IndexError).
Proof.
  intros Hparse Hroot Hidx Hl.
  destruct (parse_tree_dump_store _ _ _ Hparse) as (-> & Hlen & Hgt & Hpar & _).
  pose proof (indexed_leafs_spec _ _ _ _ _ Hgt Hroot Hidx) as Hpost.
  destruct (ip_idx _ _ _ _ Hpost _ _ Hl) as (ln & Hln & _ & [v Hv]).
  destruct (indexed_parents _ _ _ Hpar Hpost) as [Hlt Hpl].
  destruct (ancestors_total h Hlt (length h) l) as [up Hup];
    [by eapply lookup_lt_Some..|].
  exists up. split; [done|].
  assert (Hleafs : forall x, x ∈ up -> has_leaf h x).
  { eapply ancestors_have_leaf; [exact Hpl| |exact Hup]. by exists ln, v. }
  destruct (ancestors_head _ _ _ _ Hup) as [rest ->].
  assert (Heq : forall fn0,
    target_feature_weights [leaf_id] [dump] fn0 =
      fw1 ← foldM (split_change h) (replicate (len fn0) 0%Q)
             (zip (rev (l :: rest)) (tail (rev (l :: rest))));
      fw2 ← np_iadd fw1 (bias_idx fn0)
              (match rev (l :: rest) with
               | [] => Raise IndexError
               | r :: _ => rn ← node_at h r; getitem "leaf" (leaf rn)
               end);
      Ok ((0 + v)%Q, fw2)).
  { intros fn0. unfold target_feature_weights.
    change (zip [dump] [leaf_id]) with [(dump, leaf_id)]. cbn [foldM].
    rewrite (tree_weights_path fn0 _ _ _ _ _ _ _ _ _ _ _ _
               Hparse Hidx Hl Hln Hv Hup).
    destruct (foldM (split_change h) _ _); [|done]. cbn [mbind result_bind].
    destruct (np_iadd _ _ _); done. }
  assert (Hpaths0 : forall x, x ∈ rev (l :: rest) -> has_leaf h x).
  { intros x Hx. apply Hleafs. by apply elem_of_rev. }
  assert (Hremove : removelast (rev (l :: rest)) = rev (tail (l :: rest))).
  { simpl. by rewrite removelast_last. }
  split; [|split; [|split; [|split]]].
  - rewrite Heq.
    pose proof (path_changes_ok h (rev (l :: rest)) (replicate (len fn) 0%Q))
      as Hpath.
    rewrite length_replicate in Hpath.
    assert (Hrev : forall p, p ∈ removelast (rev (l :: rest)) <-> p ∈ tail (l :: rest)).
    { intros p. simpl. rewrite removelast_last. apply elem_of_rev. }
    destruct (rev (l :: rest)) as [|r path] eqn:Hpaths.
    { simpl in Hpaths. by destruct (rev rest). }
    assert (Hr : has_leaf h r).
    { apply Hleafs. apply elem_of_rev. rewrite Hpaths. left. }
    destruct Hr as (rn & rv & Hrn & Hrv).
    apply node_at_Ok in Hrn. rewrite Hrn. cbn [mbind result_bind getitem].
    rewrite Hrv.
    destruct (foldM (split_change h) _ _) as [fw1|e] eqn:Hfold.
    + apply path_changes_sum in Hfold as Hsum. destruct Hsum as [_ Hlen1].
      rewrite length_replicate in Hlen1.
      cbn [mbind result_bind]. unfold np_iadd. rewrite Hlen1.
      split.
      * intros H. split.
        -- intros p Hp. apply Hpath; [|done|by apply Hrev].
           intros x Hx. apply Hleafs. apply elem_of_rev. by rewrite Hpaths.
        -- by destruct (np_index (len fn) (bias_idx fn)).
      * intros [_ H]. by destruct (np_index (len fn) (bias_idx fn)).
    + cbn [mbind result_bind]. split; [done|]. intros [H _].
      apply Hpath.
      * intros x Hx. apply Hleafs. apply elem_of_rev. by rewrite Hpaths.
      * intros p Hp. apply H. by apply Hrev.
  - intros fn' Hlen' Hbias. rewrite !Heq, Hlen', Hbias. done.
  - intros p Hp.
    destruct (ancestors_parents _ _ _ _ Hup p Hp) as (c & cn & Hcn & Hcp).
    assert (Hbranch : ~ has_leaf h0 p).
    { eapply (parents_are_branches h0 (length h0) Hgt h0 0 h idx);
        [apply evolves_refl| |done..].
      intros x n q Hn Hq. rewrite (Hpar _ _ Hn) in Hq. done. }
    destruct (Hleafs p) as (pn & pv & Hpn & _); [by right|].
    assert (Hp0 : p < length h0).
    { rewrite <- (proj1 (ip_evolves _ _ _ _ Hpost)). by eapply lookup_lt_Some. }
    apply lookup_lt_is_Some_2 in Hp0 as [n0 Hn0].
    destruct (parse_tree_dump_shape _ _ _ Hparse) as (st & <- & _ & _ & Hs).
    destruct (Forall2_lookup_r _ _ _ _ _ (ps_nodes _ _ Hs) Hn0)
      as (line & _ & nd & Hline & Hnd).
    destruct (children_evolves _ _ _ _ _ (ip_evolves _ _ _ _ Hpost) Hn0 Hpn)
      as (_ & _ & Hsplit).
    exists pn. destruct (parse_line_kind _ _ _ Hline) as [[s Hsp]|[w Hw]].
    + exists s. split; [done|]. rewrite Hsplit, <- Hsp, <- Hnd. done.
    + destruct Hbranch. exists n0, w. split; [done|]. rewrite <- Hw, <- Hnd. done.
  - intros i p pn s Hi Hbefore Hpn Hs.
    rewrite <- Hremove in Hi, Hbefore.
    assert (Hfail : forall e,
      (forall fw' c, length fw' = length (replicate (len fn) 0%Q) ->
         has_leaf h c -> split_change h fw' (p, c) = Raise e) ->
      target_feature_weights [leaf_id] [dump] fn = Raise e).
    { intros e He. rewrite Heq.
      rewrite (path_changes_first h e (rev (l :: rest))
                 (replicate (len fn) 0%Q) i p); [done|done|done| |done].
      intros j q Hj Hq. rewrite length_replicate. by eapply Hbefore. }
    split.
    + intros Hform. apply Hfail. intros fw' c _ Hc.
      by apply (split_change_raise h fw' p c pn s).
    + intros num Hform Hout. apply Hfail. intros fw' c Hfw' Hc.
      apply (proj2 (split_change_raise h fw' p c pn s Hc Hpn Hs) num Hform).
      by rewrite Hfw', length_replicate.
  - intros Hall Hbias. rewrite Heq.
    pose proof (path_changes_ok h (rev (l :: rest)) (replicate (len fn) 0%Q)
                  Hpaths0) as Hpath.
    rewrite length_replicate, Hremove in Hpath.
    destruct (foldM (split_change h) _ _) as [fw1|e] eqn:Hfold.
    + apply path_changes_sum in Hfold as [_ Hlen1].
      rewrite length_replicate in Hlen1.
      cbn [mbind result_bind]. unfold np_iadd. rewrite Hlen1.
      destruct (np_index (len fn) (bias_idx fn)) as [k|e] eqn:Hk; [done|].
      unfold np_index in Hk.
      destruct (_ && _)%bool; [done|]. destruct (_ && _)%bool; [done|].
      by injection Hk as <-.
    + assert (is_true false); [|done]. apply Hpath.
      intros p Hp. apply Hall. by apply elem_of_rev.
Qed.


(** ** The ensemble: sums and additivity *)

(** X6: for any number of trees, the vector that [target_feature_weights]
    returns has one entry per feature name (bias included) and its entries
    sum to the returned score. *)
Theorem target_feature_weights_sums_to_score leaf_ids tree_dumps fn score fw :
  target_feature_weights leaf_ids tree_dumps fn = Ok (score, fw) ->
  (Qsum fw == score)%Q /\ length fw = len fn.
Proof.
  unfold target_feature_weights. intros H.
  apply target_feature_weights_sum in H as [Hs Hl].
  rewrite Qsum_replicate in Hs. rewrite length_replicate in Hl.
  split; [|done].
  assert (H0 : (Qsum fw == (Qsum fw - score) + score)%Q) by ring.
  rewrite H0, Hs. ring.
Qed.

Lemma np_iadd_alter a i v a' :
  np_iadd a i v = Ok a' ->
  exists k x,
    np_index (length a) i = Ok k /\ k < length a /\
    a' = alter (fun y => (y + x)%Q) k a /\
    forall b, length b = length a ->
      np_iadd b i v = Ok (alter (fun y => (y + x)%Q) k b).
Proof.
  intros H. destruct (np_iadd_Ok _ _ _ _ H) as (k & x & Hk & Hv & ->).
  exists k, x. split; [done|]. split; [by eapply np_index_lt|]. split; [done|].
  intros b Hb. unfold np_iadd. by rewrite Hb, Hk, Hv.
Qed.

Lemma split_change_alter h fw pc fw' :
  split_change h fw pc = Ok fw' ->
  exists k x,
    k < length fw /\ split_pos (length fw) h pc.1 = Some k /\
    fw' = alter (fun y => (y + x)%Q) k fw /\
    forall fw0, length fw0 = length fw ->
      split_change h fw0 pc = Ok (alter (fun y => (y + x)%Q) k fw0).
Proof.
  destruct pc as [p c]. unfold split_change, split_pos. intros H. simpl.
  apply bind_Ok in H as (pn & Hpn & H). apply bind_Ok in H as (s & Hs & H).
  apply bind_Ok in H as (i & Hi & H).
  apply node_at_Ok in Hpn as Hpn'. apply getitem_Ok in Hs as Hs'.
  destruct (np_iadd_alter _ _ _ _ H) as (k & x & Hk & Hlt & -> & Hall).
  exists k, x. rewrite Hpn', Hs', Hi, Hk. split; [done|]. split; [done|].
  split; [done|]. intros fw0 H0. rewrite Hpn. simpl. rewrite Hs. simpl.
  rewrite Hi. simpl. by apply Hall.
Qed.


Lemma length_apply_updates upd : forall a, length (apply_updates upd a) = length a.
Proof.
  induction upd as [|u upd IH]; intros a; [done|].
  unfold apply_updates in *. simpl. by rewrite IH, length_alter.
Qed.

Lemma apply_updates_app u1 u2 a :
  apply_updates (u1 ++ u2) a = apply_updates u2 (apply_updates u1 a).
Proof. unfold apply_updates. apply fold_left_app. Qed.

(** What a successful walk along the path does to any vector of the same
    length. *)
Lemma path_changes_updates h pairs : forall fw fw',
  foldM (split_change h) fw pairs = Ok fw' ->
  exists upd,
    Forall2 (fun pc u => split_pos (length fw) h pc.1 = Some u.1) pairs upd /\
    fw' = apply_updates upd fw /\
    forall fw0, length fw0 = length fw ->
      foldM (split_change h) fw0 pairs = Ok (apply_updates upd fw0).
Proof.
  induction pairs as [|pc pairs IH]; intros fw fw' H.
  - injection H as <-. exists []. split; [constructor|]. by split.
  - simpl in H. apply bind_Ok in H as (fw1 & H1 & H).
    destruct (split_change_alter _ _ _ _ H1) as (k & x & Hk & Hpos & -> & Hall).
    destruct (IH _ _ H) as (upd & Hupd & -> & Hrest).
    rewrite length_alter in Hupd, Hrest.
    exists ((k, x) :: upd). split; [by constructor|]. split; [done|].
    intros fw0 H0. simpl. rewrite (Hall _ H0). simpl.
    apply Hrest. by rewrite length_alter.
Qed.

(** What one turn of the loop over the trees does to any score and any
    vector of the same length. *)
Lemma tree_weights_updates fn s fw x s' fw' :
  tree_weights fn (s, fw) x = Ok (s', fw') ->
  exists v upd,
    s' = (s + v)%Q /\ fw' = apply_updates upd fw /\
    forall s0 fw0, length fw0 = length fw ->
      tree_weights fn (s0, fw0) x = Ok ((s0 + v)%Q, apply_updates upd fw0).
Proof.
  destruct x as [d id]. intros H.
  destruct (tree_weights_Ok _ _ _ _ _ _ _ H)
    as (h0 & root & h & idx & l & ln & v & Hparse & Hidx & Hl & Hln & Hv & -> & _).
  assert (Hup : exists up, ancestors (length h) h l = Ok up).
  { unfold tree_weights in H. rewrite Hparse in H. cbn [mbind result_bind] in H.
    rewrite Hidx in H. cbn [mbind result_bind] in H. rewrite Hl in H.
    cbn [mbind result_bind] in H. apply node_at_Ok in Hln. rewrite Hln in H.
    cbn [mbind result_bind] in H. rewrite Hv in H.
    cbn [mbind result_bind getitem] in H.
    destruct (ancestors (length h) h l); [by eexists | done]. }
  destruct Hup as [up Hup].
  rewrite (tree_weights_path fn _ _ _ _ _ _ _ _ _ _ _ _
             Hparse Hidx Hl Hln Hv Hup) in H.
  apply bind_Ok in H as (fw1 & H1 & H). apply bind_Ok in H as (fw2 & H2 & H).
  injection H as <-.
  destruct (path_changes_updates _ _ _ _ H1) as (upd & _ & -> & Hpath).
  destruct (np_iadd_alter _ _ _ _ H2) as (k & x & _ & _ & -> & Hbias).
  rewrite length_apply_updates in Hbias.
  exists v, (upd ++ [(k, x)]). split; [done|].
  split; [by rewrite apply_updates_app|].
  intros s0 fw0 H0.
  rewrite (tree_weights_path fn _ _ _ _ _ _ _ _ _ _ _ _
             Hparse Hidx Hl Hln Hv Hup).
  rewrite (Hpath _ H0). cbn [mbind result_bind].
  rewrite Hbias by (by rewrite length_apply_updates).
  by rewrite apply_updates_app.
Qed.

Lemma trees_weights_updates fn dls : forall s fw s' fw',
  foldM (tree_weights fn) (s, fw) dls = Ok (s', fw') ->
  exists vs upd,
    s' = fold_left Qplus vs s /\ fw' = apply_updates upd fw /\
    forall s0 fw0, length fw0 = length fw ->
      foldM (tree_weights fn) (s0, fw0) dls =
        Ok (fold_left Qplus vs s0, apply_updates upd fw0).
Proof.
  induction dls as [|x dls IH]; intros s fw s' fw' H.
  - injection H as <- <-. exists [], []. by repeat split.
  - simpl in H. apply bind_Ok in H as ([s1 fw1] & H1 & H).
    destruct (tree_weights_updates _ _ _ _ _ _ H1) as (v & u1 & -> & -> & Hone).
    destruct (IH _ _ _ _ H) as (vs & u2 & -> & -> & Hrest).
    rewrite length_apply_updates in Hrest.
    exists (v :: vs), (u1 ++ u2). split; [done|].
    split; [by rewrite apply_updates_app|].
    intros s0 fw0 H0. cbn [foldM]. rewrite (Hone _ _ H0). cbn [mbind result_bind].
    rewrite Hrest by (by rewrite length_apply_updates).
    by rewrite apply_updates_app.
Qed.

Lemma veq_alter (a b : list Q) f g k :
  Forall2 Qeq a b -> (forall x y, (x == y)%Q -> (f x == g y)%Q) ->
  Forall2 Qeq (alter f k a) (alter g k b).
Proof.
  intros H Hf. revert k. induction H as [|x y a b Hxy H IH]; intros k.
  - constructor.
  - destruct k as [|k]; simpl.
    + constructor; [by apply Hf | done].
    + constructor; [done | apply IH].
Qed.

Lemma apply_updates_veq upd : forall a b,
  Forall2 Qeq a b -> Forall2 Qeq (apply_updates upd a) (apply_updates upd b).
Proof.
  induction upd as [|u upd IH]; intros a b H; [done|].
  unfold apply_updates in *. simpl. apply IH, veq_alter; [done|].
  intros x y Hxy. by rewrite Hxy.
Qed.

Lemma vadd_alter (a z : list Q) k x :
  Forall2 Qeq (alter (fun y => (y + x)%Q) k (vadd a z))
              (vadd a (alter (fun y => (y + x)%Q) k z)).
Proof.
  unfold vadd. revert z k. induction a as [|v a IH]; intros z k; [done|].
  destruct z as [|w z]; [done|].
  destruct k as [|k]; simpl; constructor.
  - ring.
  - apply Forall2_same_length_lookup. split; [done|].
    intros i p q Hp Hq. rewrite Hp in Hq. by injection Hq as <-.
  - done.
  - apply IH.
Qed.

Lemma apply_updates_vadd upd : forall a z,
  Forall2 Qeq (apply_updates upd (vadd a z)) (vadd a (apply_updates upd z)).
Proof.
  induction upd as [|u upd IH]; intros a z.
  - apply Forall2_same_length_lookup. split; [done|].
    intros i p q Hp Hq. simpl in *. rewrite Hp in Hq. by injection Hq as <-.
  - change (apply_updates (u :: upd) (vadd a z))
      with (apply_updates upd (alter (fun y => (y + u.2)%Q) u.1 (vadd a z))).
    change (apply_updates (u :: upd) z)
      with (apply_updates upd (alter (fun y => (y + u.2)%Q) u.1 z)).
    etrans; [|apply IH]. apply apply_updates_veq, vadd_alter.
Qed.

Lemma vadd_zeros a : Forall2 Qeq a (vadd a (replicate (length a) 0%Q)).
Proof.
  unfold vadd. induction a as [|v a IH]; simpl; constructor; [ring | done].
Qed.

Lemma apply_updates_zeros upd a :
  Forall2 Qeq (apply_updates upd a)
              (vadd a (apply_updates upd (replicate (length a) 0%Q))).
Proof.
  etrans; [|apply apply_updates_vadd]. apply apply_updates_veq, vadd_zeros.
Qed.


Lemma vadd_veq a b b' : Forall2 Qeq b b' -> Forall2 Qeq (vadd a b) (vadd a b').
Proof.
  unfold vadd. intros H. revert a.
  induction H as [|x y b b' Hxy H IH]; intros [|v a]; simpl; try constructor.
  - by rewrite Hxy.
  - apply IH.
Qed.

Lemma trees_weights_additive fn n dls : forall s fw,
  foldM (tree_weights fn) (0%Q, replicate n 0%Q) dls = Ok (s, fw) ->
  exists rs,
    Forall2 (fun dl r => tree_weights fn (0%Q, replicate n 0%Q) dl = Ok r) dls rs /\
    (s == Qsum rs.*1)%Q /\
    Forall2 Qeq fw (fold_right vadd (replicate n 0%Q) rs.*2).
Proof.
  induction dls as [|x dls IH]; intros s fw H.
  - injection H as <- <-. exists []. split; [constructor|]. split; [done|].
    simpl. apply Forall2_same_length_lookup. split; [done|].
    intros i p q Hp Hq. rewrite Hp in Hq. by injection Hq as <-.
  - simpl in H. apply bind_Ok in H as ([s1 fw1] & H1 & H).
    assert (Hlen : length fw1 = n).
    { destruct x as [d id]. apply tree_weights_Ok in H1
        as (_ & _ & _ & _ & _ & _ & _ & _ & _ & _ & _ & _ & _ & _ & Hl).
      by rewrite Hl, length_replicate. }
    destruct (trees_weights_updates _ _ _ _ _ _ H) as (vs & upd & -> & -> & Hany).
    specialize (Hany 0%Q (replicate n 0%Q)).
    rewrite length_replicate in Hany. specialize (Hany (eq_sym Hlen)).
    destruct (IH _ _ Hany) as (rs & Hrs & Hs & Hfw).
    exists ((s1, fw1) :: rs). split; [by constructor|]. split.
    + cbn [fmap list_fmap fst]. rewrite Qsum_cons, <- Hs, !fold_left_Qplus. ring.
    + cbn [fmap list_fmap snd fold_right].
      etrans; [apply apply_updates_zeros|]. rewrite Hlen. by apply vadd_veq.
Qed.

(** X7: with exact addition, subtraction and mean (the floating-point
    numbers of the code idealised as exact rationals), the ensemble is
    additive: when the decomposer returns for a list of trees, it returns
    for each tree alone, the score is the sum of the scores of the trees and
    the vector is the sum of their vectors. *)
Theorem target_feature_weights_additive leaf_ids tree_dumps fn score fw :
  target_feature_weights_with Qplus Qminus mean leaf_ids tree_dumps fn =
    Ok (score, fw) ->
  exists rs,
    Forall2 (fun dl r =>
               target_feature_weights_with Qplus Qminus mean [dl.2] [dl.1] fn =
                 Ok r)
            (zip tree_dumps leaf_ids) rs /\
    (score == Qsum rs.*1)%Q /\
    Forall2 Qeq fw (fold_right vadd (replicate (len fn) 0%Q) rs.*2).
Proof.
  rewrite target_feature_weights_with_exact.
  unfold target_feature_weights. intros H.
  destruct (trees_weights_additive _ _ _ _ _ H) as (rs & Hrs & Hs & Hfw).
  exists rs. split; [|done].
  eapply Forall2_impl; [exact Hrs|]. intros [d id] r Hr.
  rewrite target_feature_weights_with_exact. unfold target_feature_weights.
  change (zip [(d, id).1] [(d, id).2]) with [(d, id)]. cbn [foldM].
  by rewrite Hr.
Qed.

(** ** Features that the path does not test *)

Lemma apply_updates_lookup_other upd k : forall a : list Q,
  Forall (fun u => u.1 <> k) upd -> apply_updates upd a !! k = a !! k.
Proof.
  induction upd as [|u upd IH]; intros a H; [done|].
  apply Forall_cons in H as [Hu H].
  change (apply_updates (u :: upd) a)
    with (apply_updates upd (alter (fun y => (y + u.2)%Q) u.1 a)).
  rewrite IH by done. by rewrite list_lookup_alter_ne.
Qed.

Lemma elem_of_zip_tail {A} (path : list A) x y :
  (x, y) ∈ zip path (tail path) -> x ∈ removelast path.
Proof.
  induction path as [|a [|b path] IH]; intros H.
  - by apply elem_of_nil in H.
  - by apply elem_of_nil in H.
  - change (zip (a :: b :: path) (tail (a :: b :: path)))
      with ((a, b) :: zip (b :: path) (tail (b :: path))) in H.
    change (removelast (a :: b :: path)) with (a :: removelast (b :: path)).
    apply elem_of_cons in H as [[= -> ->]|H]; [left | right; by apply IH].
Qed.

(** X8: a feature that no split on the path from the root to the leaf
    tests, and that is not the bias, gets the contribution 0 from the
    tree. *)
Theorem untested_feature_gets_zero dump leaf_id fn h0 root h idx l up score fw k :
  parse_tree_dump dump = Ok (h0, Some root) ->
  indexed_leafs (length h0) h0 root = Ok (h, idx) ->
  idx !! leaf_id = Some l ->
  ancestors (length h) h l = Ok up ->
  target_feature_weights [leaf_id] [dump] fn = Ok (score, fw) ->
  k < len fn ->
  (forall p, p ∈ tail up -> split_pos (len fn) h p <> Some k) ->
  np_index (len fn) (bias_idx fn) <> Ok k ->
  fw !! k = Some 0%Q.
Proof.
  intros Hparse Hidx Hl Hup H Hk Hsplit Hbias.
  unfold target_feature_weights in H.
  change (zip [dump] [leaf_id]) with [(dump, leaf_id)] in H. cbn [foldM] in H.
  apply bind_Ok in H as ([s1 fw1] & H1 & H). injection H as -> ->.
  destruct (tree_weights_Ok _ _ _ _ _ _ _ H1)
    as (h0' & root' & h' & idx' & l' & ln & v &
        Hparse' & Hidx' & Hl' & Hln & Hv & _).
  rewrite Hparse in Hparse'. injection Hparse' as <- <-.
  rewrite Hidx in Hidx'. injection Hidx' as <- <-.
  rewrite Hl in Hl'. injection Hl' as <-.
  rewrite (tree_weights_path fn _ _ _ _ _ _ _ _ _ _ _ _
             Hparse Hidx Hl Hln Hv Hup) in H1.
  apply bind_Ok in H1 as (fw1 & Hpath & H1). apply bind_Ok in H1 as (fw2 & H2 & H1).
  injection H1 as _ <-.
  destruct (path_changes_updates _ _ _ _ Hpath) as (upd & Hupd & -> & _).
  destruct (np_iadd_alter _ _ _ _ H2) as (kb & x & Hkb & _ & -> & _).
  rewrite length_apply_updates in Hkb. rewrite length_replicate in Hkb, Hupd.
  rewrite list_lookup_alter_ne by congruence.
  rewrite apply_updates_lookup_other; [by apply lookup_replicate_2|].
  apply Forall_forall. intros u Hu.
  apply list_elem_of_lookup in Hu as [i Hi].
  destruct (Forall2_lookup_r _ _ _ _ _ Hupd Hi) as ([p c] & Hpc & Hpos).
  intros Huk. apply (Hsplit p); [|by rewrite <- Huk].
  apply list_elem_of_lookup_2, elem_of_zip_tail in Hpc.
  destruct (ancestors_head _ _ _ _ Hup) as [rest ->].
  simpl in Hpc. rewrite removelast_last in Hpc.
  by apply (proj1 (elem_of_rev _ _)) in Hpc.
Qed.

(** X9: what the decomposer does with a dump without a tree and with a leaf
    id that is not in the index: an empty dump raises [TypeError], a leaf id
    that the index of the tree does not have raises a [KeyError] with the
    id. *)
Theorem target_feature_weights_lookup_failures leaf_id fn :
  (forall n, target_feature_weights [leaf_id] [newlines n] fn = Raise TypeError) /\
  (forall dump h0 root h idx,
     parse_tree_dump dump = Ok (h0, Some root) ->
     indexed_leafs (length h0) h0 root = Ok (h, idx) ->
     idx !! leaf_id = None ->
     target_feature_weights [leaf_id] [dump] fn = Raise (KeyError (KInt leaf_id))).
Proof.
  split.
  - intros n. unfold target_feature_weights.
    change (zip [newlines n] [leaf_id]) with [(newlines n, leaf_id)].
    cbn [foldM]. unfold tree_weights, parse_tree_dump, parse_lines.
    by rewrite split_lines_newlines, parse_lines_blank.
  - intros dump h0 root h idx Hparse Hidx Hl. unfold target_feature_weights.
    change (zip [dump] [leaf_id]) with [(dump, leaf_id)].
    cbn [foldM]. unfold tree_weights. rewrite Hparse. cbn [mbind result_bind].
    rewrite Hidx. cbn [mbind result_bind]. by rewrite Hl.
Qed.


(** ** The chunks of the ensemble aggregator *)

Lemma foldM_collect {A B} (g : A -> result B) xs : forall acc r,
  foldM (fun acc x => y ← g x; Ok (acc ++ [y])) acc xs = Ok r ->
  exists ys, r = acc ++ ys /\ Forall2 (fun x y => g x = Ok y) xs ys.
Proof.
  induction xs as [|x xs IH]; intros acc r H.
  - injection H as <-. exists []. by rewrite app_nil_r.
  - simpl in H. apply bind_Ok in H as (acc1 & H1 & H).
    apply bind_Ok in H1 as (y & Hy & H1). injection H1 as <-.
    destruct (IH _ _ H) as (ys & -> & Hys).
    exists (y :: ys). rewrite <- app_assoc. split; [done|]. by constructor.
Qed.

(** X10: when there are as many dumps as leaf ids, the aggregator raises
    the [ValueError] of [range] for [n_estimators = 0]; when it returns, it
    returns one result per chunk of [n_estimators] consecutive trees (the
    last chunk may be shorter), the result of chunk [k] is what
    [target_feature_weights] returns for the trees [k * n_estimators] to
    [(k + 1) * n_estimators - 1], and its vector has one entry per feature
    name. *)
Theorem prediction_feature_weights_classes leaf_ids tree_dumps n fn :
  length tree_dumps = length leaf_ids ->
  (n = 0 ->
   prediction_feature_weights leaf_ids tree_dumps n fn =
     Raise (ValueError "range() arg 3 must not be zero")) /\
  (forall r,
     prediction_feature_weights leaf_ids tree_dumps n fn = Ok r ->
     0 < n /\
     length r = (length leaf_ids + n - 1) / n /\
     forall k sw, r !! k = Some sw ->
       target_feature_weights (slice leaf_ids (k * n) (k * n + n))
                              (slice tree_dumps (k * n) (k * n + n)) fn = Ok sw /\
       length sw.2 = len fn).
Proof.
  intros Hlen. unfold prediction_feature_weights.
  rewrite Hlen, Nat.eqb_refl. split; [by intros ->|].
  intros r H. destruct n as [|n]; [done|].
  cbn [range0 mbind result_bind] in H.
  apply foldM_collect in H as (ys & -> & Hys). simpl.
  split; [lia|]. split.
  { apply Forall2_length in Hys. by rewrite length_fmap, length_seq in Hys. }
  intros k [s fw] Hk.
  destruct (Forall2_lookup_r _ _ _ _ _ Hys Hk) as (start & Hstart & Hsw).
  rewrite list_lookup_fmap in Hstart.
  destruct (seq _ _ !! k) as [k'|] eqn:Hseq; [|done].
  apply lookup_seq in Hseq as [-> _]. injection Hstart as <-.
  simpl in Hsw. split; [done|].
  unfold target_feature_weights in Hsw.
  apply target_feature_weights_sum in Hsw as [_ Hl].
  by rewrite length_replicate in Hl.
Qed.


(** ** The top features *)

Lemma np_take_Ok {A} (a : list A) indices xs :
  np_take a indices = Ok xs ->
  Forall2 (fun i x => exists k, np_index (length a) i = Ok k /\ a !! k = Some x)
          indices xs.
Proof.
  revert xs. induction indices as [|i indices IH]; intros xs H.
  - injection H as <-. constructor.
  - simpl in H. apply bind_Ok in H as (k & Hk & H).
    apply bind_Ok in H as (x & Hx & H). apply bind_Ok in H as (xs' & Hxs & H).
    injection H as <-. constructor; [|by apply IH].
    exists k. split; [done|]. by destruct (a !! k) as [y|]; [injection Hx as ->|].
Qed.

(** The features are the names and the coefficients at the positions of the
    indices, in the order of the indices. *)
Lemma _features_Ok indices feature_names coef features :
  length feature_names = length coef ->
  _features indices feature_names coef = Ok features ->
  Forall2 (fun i nv =>
             exists k, np_index (length coef) i = Ok k /\
                       feature_names !! k = Some nv.1 /\ coef !! k = Some nv.2)
          indices features.
Proof.
  intros Hlen H. unfold _features in H.
  destruct indices as [|i0 indices0] eqn:E; [injection H as <-; constructor|].
  rewrite <- E in *. clear E i0 indices0.
  apply bind_Ok in H as (names & Hn & H). apply bind_Ok in H as (values & Hv & H).
  injection H as <-. apply np_take_Ok in Hn, Hv. rewrite Hlen in Hn.
  revert names values Hn Hv. induction indices as [|i indices IH];
    intros names values Hn Hv.
  - apply Forall2_nil_inv_l in Hn as ->. constructor.
  - apply Forall2_cons_inv_l in Hn as (n & names' & (k & Hk & Hnk) & Hn & ->).
    apply Forall2_cons_inv_l in Hv as (v & values' & (k' & Hk' & Hvk) & Hv & ->).
    rewrite Hk in Hk'. injection Hk' as <-.
    simpl. constructor; [by exists k | by apply IH].
Qed.

Lemma is_positive_spec v : is_positive v = true <-> (0 < v)%Q.
Proof.
  unfold is_positive. rewrite negb_true_iff, <- not_true_iff_false, Qle_bool_iff.
  split; [apply Qnot_le_lt | apply Qlt_not_le].
Qed.

Lemma is_negative_spec v : is_negative v = true <-> (v < 0)%Q.
Proof.
  unfold is_negative. rewrite negb_true_iff, <- not_true_iff_false, Qle_bool_iff.
  split; [apply Qnot_le_lt | apply Qlt_not_le].
Qed.


Lemma get_top_features_Ok {K} (al asm : list Q -> K -> list Z)
    feature_names coef top pos neg :
  get_top_features K al asm feature_names coef top = Ok (pos, neg) ->
  exists fp fn,
    _features (selected_for_pos al coef top) feature_names coef = Ok fp /\
    _features (selected_for_neg al asm coef top) feature_names coef = Ok fn /\
    pos = _positive fp /\ neg = _negative fn.
Proof.
  unfold get_top_features. destruct top as [k|[|p [|n [|? ?]]]]; try done.
  - unfold _get_top_abs_features. intros H. apply bind_Ok in H as (f & Hf & H).
    injection H as <- <-. by exists f, f.
  - unfold _get_top_positive_features, _get_top_negative_features. intros H.
    apply bind_Ok in H as (pos' & Hp & H). apply bind_Ok in H as (neg' & Hn & H).
    injection H as <- <-.
    apply bind_Ok in Hp as (fp & Hfp & Hp). injection Hp as <-.
    apply bind_Ok in Hn as (fn & Hfn & Hn). injection Hn as <-.
    by exists fp, fn.
Qed.

(** X11: what [get_top_features] returns, whatever the two argsort
    functions are: every feature of [pos] has a coefficient above 0 and
    every feature of [neg] one below 0 (no feature with coefficient 0 is
    reported), and each name comes with the coefficient of its own
    position. *)
Theorem get_top_features_signs {K} (al asm : list Q -> K -> list Z)
    feature_names coef top pos neg :
  length feature_names = length coef ->
  get_top_features K al asm feature_names coef top = Ok (pos, neg) ->
  Forall (fun nv => (0 < nv.2)%Q /\
            exists i, i ∈ selected_for_pos al coef top /\
                      feature_at feature_names coef i nv) pos /\
  Forall (fun nv => (nv.2 < 0)%Q /\
            exists i, i ∈ selected_for_neg al asm coef top /\
                      feature_at feature_names coef i nv) neg.
Proof.
  intros Hlen H.
  destruct (get_top_features_Ok _ _ _ _ _ _ _ H) as (fp & fn & Hfp & Hfn & -> & ->).
  apply _features_Ok in Hfp, Hfn; try done.
  split; apply Forall_forall; intros nv Hnv;
    apply list_elem_of_In, filter_In in Hnv as [Hnv Hsign];
    apply list_elem_of_In, list_elem_of_lookup in Hnv as [j Hj].
  - split; [by apply is_positive_spec|].
    destruct (Forall2_lookup_r _ _ _ _ _ Hfp Hj) as (i & Hi & Hat).
    exists i. split; [by eapply list_elem_of_lookup_2 | done].
  - split; [by apply is_negative_spec|].
    destruct (Forall2_lookup_r _ _ _ _ _ Hfn Hj) as (i & Hi & Hat).
    exists i. split; [by eapply list_elem_of_lookup_2 | done].
Qed.

(** X12: [get_top_features] drops nothing but zero coefficients: when it
    returns, every index picked for the positive side whose coefficient is
    above 0 has its feature in [pos], and every index picked for the
    negative side whose coefficient is below 0 has its feature in [neg]. *)
Theorem get_top_features_complete {K} (al asm : list Q -> K -> list Z)
    feature_names coef top pos neg :
  length feature_names = length coef ->
  get_top_features K al asm feature_names coef top = Ok (pos, neg) ->
  (forall i, i ∈ selected_for_pos al coef top ->
     exists nv, feature_at feature_names coef i nv /\
                ((0 < nv.2)%Q -> nv ∈ pos)) /\
  (forall i, i ∈ selected_for_neg al asm coef top ->
     exists nv, feature_at feature_names coef i nv /\
                ((nv.2 < 0)%Q -> nv ∈ neg)).
Proof.
  intros Hlen H.
  destruct (get_top_features_Ok _ _ _ _ _ _ _ H) as (fp & fn & Hfp & Hfn & -> & ->).
  apply _features_Ok in Hfp, Hfn; try done.
  split; intros i Hi; apply list_elem_of_lookup in Hi as [j Hj].
  - destruct (Forall2_lookup_l _ _ _ _ _ Hfp Hj) as (nv & Hnv & Hat).
    exists nv. split; [done|]. intros Hpos.
    apply list_elem_of_In, filter_In. split.
    + by eapply list_elem_of_In, list_elem_of_lookup_2.
    + by apply is_positive_spec.
  - destruct (Forall2_lookup_l _ _ _ _ _ Hfn Hj) as (nv & Hnv & Hat).
    exists nv. split; [done|]. intros Hneg.
    apply list_elem_of_In, filter_In. split.
    + by eapply list_elem_of_In, list_elem_of_lookup_2.
    + by apply is_negative_spec.
Qed.


(** ** The contract of the indexer *)

Lemma is_child_evolves h h' p c :
  evolves h h' -> is_child h' p c -> is_child h p c.
Proof.
  intros Hev (n' & cs & Hn' & Hcs & Hc).
  assert (Hp : p < length h).
  { rewrite <- (proj1 Hev). by eapply lookup_lt_Some. }
  apply lookup_lt_is_Some_2 in Hp as [n Hn].
  destruct (children_evolves _ _ _ _ _ Hev Hn Hn') as (Hch & _).
  exists n, cs. split; [done|]. split; [congruence | done].
Qed.

Lemma desc_le h p l : children_gt h -> desc h p l -> p <= l.
Proof.
  intros Hgt H. induction H as [|x y z (n & cs & Hn & Hcs & Hc) _ IH]; [done|].
  pose proof (Hgt _ _ _ _ Hn Hcs Hc). lia.
Qed.

Lemma desc_comparable h a b x :
  tree_store h -> desc h a x -> desc h b x -> desc h a b \/ desc h b a.
Proof.
  unfold desc. intros Ht Ha. revert b. revert x Ha.
  apply (rtc_ind_r (fun x => forall b, rtc (is_child h) b x ->
           rtc (is_child h) a b \/ rtc (is_child h) b a)); [by right|].
  intros y x Hay Hyx IH b Hb.
  apply rtc_inv_r in Hb as [->|(y' & Hby & Hyx')].
  - left. by eapply rtc_r.
  - rewrite (ts_unique _ Ht _ _ _ Hyx' Hyx) in Hby. by apply IH.
Qed.

(** The trees below two children of a node share no node. *)
Lemma desc_siblings h p c c' x :
  tree_store h -> is_child h p c -> is_child h p c' ->
  desc h c x -> desc h c' x -> c = c'.
Proof.
  intros Ht Hc Hc' Hx Hx'.
  assert (Hup : forall a b, is_child h p a -> is_child h p b -> desc h a b ->
                  a = b).
  { intros a b Ha Hb Hab.
    apply rtc_inv_r in Hab as [->|(y & Hay & Hyb)]; [done|].
    rewrite (ts_unique _ Ht _ _ _ Hyb Hb) in Hay.
    pose proof (desc_le _ _ _ (ts_gt _ Ht) Hay).
    destruct Ha as (n & cs & Hn & Hcs & Hin).
    pose proof (ts_gt _ Ht _ _ _ _ Hn Hcs Hin). lia. }
  destruct (desc_comparable _ _ _ _ Ht Hx Hx') as [H|H]; [auto|].
  symmetry. auto.
Qed.

Lemma desc_leaf h c l n :
  tree_store h -> h !! c = Some n -> is_Some (leaf n) -> desc h c l -> l = c.
Proof.
  intros Ht Hn Hleaf H.
  apply rtc_inv in H as [->|(y & (n' & cs & Hn' & Hcs & _) & _)]; [done|].
  rewrite Hn in Hn'. injection Hn' as <-.
  rewrite (ts_leaf _ Ht _ _ Hn Hleaf) in Hcs. done.
Qed.

Lemma lcontract_init h0 h : lcontract h0 h [] h ∅.
Proof.
  split; [apply evolves_refl | done | | |].
  - intros k l Hl. by rewrite lookup_empty in Hl.
  - intros c l n Hc. by apply elem_of_nil in Hc.
  - intros c l q Hc. by apply elem_of_nil in Hc.
Qed.

Lemma index_child_contract h0 fuel h p dn hi idx c hf idxf :
  tree_store h0 ->
  (forall h1 c h2 sub,
     evolves h0 h1 ->
     (forall q, desc h0 c q -> has_leaf h1 q -> has_leaf h0 q) ->
     ~ has_leaf h1 c -> indexed_leafs fuel h1 c = Ok (h2, sub) ->
     icontract h0 h1 c h2 sub) ->
  evolves h0 h ->
  (forall q, desc h0 p q -> has_leaf h q -> has_leaf h0 q) ->
  (forall c', c' ∈ dn -> is_child h0 p c' /\ c' <> c) -> is_child h0 p c ->
  lcontract h0 h dn hi idx ->
  index_child (indexed_leafs fuel) p (hi, idx) c = Ok (hf, idxf) ->
  lcontract h0 h (dn ++ [c]) hf idxf.
Proof.
  intros Ht IH Hev Hpre Hdn Hpc [Lev Lframe Lsound Lcomp Lpar] H.
  unfold index_child in H.
  pose proof (evolves_set_parent hi p c) as E1.
  set (h1 := alter (set_parent p) c hi) in *.
  assert (Hev1 : evolves h0 h1).
  { eapply evolves_trans; [exact Hev|]. by eapply evolves_trans. }
  assert (Hother : forall c' q, c' ∈ dn -> desc h0 c' q -> ~ desc h0 c q).
  { intros c' q Hc' Hq' Hq. destruct (Hdn _ Hc') as [Hpc' Hne].
    apply Hne. by eapply (desc_siblings h0 p c' c q). }
  assert (Hunder : forall q, desc h0 c q -> hi !! q = h !! q).
  { intros q Hq. apply Lframe. intros c' Hc' Hq'. by eapply Hother. }
  assert (Hc0 : exists n0, h0 !! c = Some n0).
  { destruct Hpc as (n & cs & Hn & Hcs & Hin).
    apply lookup_lt_is_Some_2. by eapply (ts_gt _ Ht). }
  destruct Hc0 as [n0 Hn0].
  apply bind_Ok in H as (cn & Hcn & H). apply node_at_Ok in Hcn.
  assert (Hcn' : exists m, hi !! c = Some m /\ cn = set_parent p m).
  { subst h1. rewrite list_lookup_alter_eq in Hcn.
    destruct (hi !! c) as [m|]; [|done]. injection Hcn as <-. by exists m. }
  destruct Hcn' as (m & Hm & Hcnm).
  destruct (children_evolves _ _ _ _ _ Hev1 Hn0 Hcn) as (_ & Hid & _).
  assert (Hmem : forall x, x ∈ dn ++ [c] -> x ∈ dn \/ x = c).
  { intros x [?|?%list_elem_of_singleton]%elem_of_app; auto. }
  destruct (leaf cn) as [v|] eqn:Hleaf.
  - injection H as <- <-.
    assert (Hl0 : is_Some (leaf n0)).
    { assert (Hh : has_leaf h0 c).
      { apply Hpre; [by apply rtc_once|].
        exists m, v. rewrite <- (Hunder c) by done. split; [done|].
        subst cn. done. }
      destruct Hh as (n & w & Hn & Hw). rewrite Hn0 in Hn. injection Hn as <-.
      eauto. }
    split.
    + by eapply evolves_trans.
    + intros q Hq. rewrite <- Lframe.
      * subst h1. apply list_lookup_alter_ne. intros <-.
        apply (Hq c); [apply elem_of_app; right; by left | done].
      * intros c' Hc'. apply Hq. apply elem_of_app. by left.
    + intros k l Hl. destruct (decide (nodeid cn = k)) as [Hk|Hne].
      * rewrite <- Hk, lookup_insert_eq in Hl. injection Hl as <-.
        exists n0. split; [done|]. split; [congruence|]. split; [done|].
        exists c. split; [apply elem_of_app; right; by left | done].
      * rewrite lookup_insert_ne in Hl by done.
        destruct (Lsound _ _ Hl) as (n & Hn & Hnk & Hnl & c' & Hc' & Hd).
        exists n. repeat (split; [done|]). exists c'.
        split; [apply elem_of_app; by left | done].
    + intros c' l n Hc' Hd Hn Hnl.
      destruct (Hmem _ Hc') as [Hin| ->].
      * destruct (decide (nodeid cn = nodeid n)) as [Hk|Hne].
        -- rewrite <- Hk, lookup_insert_eq. eauto.
        -- rewrite lookup_insert_ne by done. by eapply Lcomp.
      * rewrite (desc_leaf _ _ _ _ Ht Hn0 Hl0 Hd) in Hn.
        rewrite Hn0 in Hn. injection Hn as <-.
        rewrite Hid, lookup_insert_eq. eauto.
    + intros c' l q Hc' Hd Hq.
      destruct (Hmem _ Hc') as [Hin| ->].
      * destruct (Lpar _ _ _ Hin Hd Hq) as (n' & Hn' & Hpn').
        exists n'. split; [|done]. subst h1.
        rewrite list_lookup_alter_ne; [done|]. intros <-.
        by eapply (Hother c' c).
      * rewrite (desc_leaf _ _ _ _ Ht Hn0 Hl0 Hd) in Hq |- *.
        rewrite (ts_unique _ Ht _ _ _ Hq Hpc).
        exists cn. split; [done|]. subst cn. done.
  - apply bind_Ok in H as ([h2 sub] & Hrec & H). injection H as <- <-.
    assert (Hnl : ~ has_leaf h1 c).
    { intros (n & v & Hn & Hv). congruence. }
    assert (Hpre1 : forall q, desc h0 c q -> has_leaf h1 q -> has_leaf h0 q).
    { intros q Hq Hl%has_leaf_set_parent.
      apply Hpre; [by eapply rtc_l|].
      destruct Hl as (n & v & Hn & Hv). exists n, v.
      rewrite <- (Hunder q) by done. done. }
    destruct (IH _ _ _ _ Hev1 Hpre1 Hnl Hrec) as [Cf Cs Cc Cp].
    assert (Hgt1 : children_gt h1).
    { eapply children_gt_evolves; [exact Hev1 | apply (ts_gt _ Ht)]. }
    pose proof (indexed_leafs_spec _ _ _ _ _ Hgt1 Hnl Hrec) as Hpost.
    split.
    + eapply evolves_trans; [exact Lev|].
      eapply evolves_trans; [exact E1 | apply Hpost].
    + intros q Hq. rewrite Cf.
      * rewrite <- Lframe.
        -- subst h1. apply list_lookup_alter_ne. intros <-.
           apply (Hq c); [apply elem_of_app; right; by left | done].
        -- intros c' Hc'. apply Hq. apply elem_of_app. by left.
      * apply Hq. apply elem_of_app. right. by left.
    + intros k l Hl. apply lookup_union_Some_raw in Hl as [Hl|[_ Hl]].
      * destruct (Cs _ _ Hl) as (n & Hn & Hnk & Hnl' & Hd).
        exists n. repeat (split; [done|]). exists c.
        split; [apply elem_of_app; right; by left | done].
      * destruct (Lsound _ _ Hl) as (n & Hn & Hnk & Hnl' & c' & Hc' & Hd).
        exists n. repeat (split; [done|]). exists c'.
        split; [apply elem_of_app; by left | done].
    + intros c' l n Hc' Hd Hn Hnl'. apply lookup_union_is_Some.
      destruct (Hmem _ Hc') as [Hin| ->].
      * right. by eapply Lcomp.
      * left. by eapply Cc.
    + intros c' l q Hc' Hd Hq.
      destruct (Hmem _ Hc') as [Hin| ->].
      * destruct (Lpar _ _ _ Hin Hd Hq) as (n' & Hn' & Hpn').
        exists n'. split; [|done].
        rewrite Cf by (by eapply Hother). subst h1.
        rewrite list_lookup_alter_ne; [done|]. intros <-.
        by eapply (Hother c' c).
      * destruct (decide (l = c)) as [->|Hne]; [|by apply Cp].
        rewrite (ts_unique _ Ht _ _ _ Hq Hpc).
        destruct (proj2 (ip_evolves _ _ _ _ Hpost) _ _ Hcn) as (n' & Hn' & _).
        destruct (ip_self_parent _ _ _ _ Hpost _ Hn') as (n & Hn & Hpar).
        exists n'. split; [done|]. rewrite Hpar.
        rewrite Hcn in Hn. injection Hn as <-. subst cn. done.
Qed.

Lemma index_children_contract h0 fuel h p :
  tree_store h0 ->
  (forall h1 c h2 sub,
     evolves h0 h1 ->
     (forall q, desc h0 c q -> has_leaf h1 q -> has_leaf h0 q) ->
     ~ has_leaf h1 c -> indexed_leafs fuel h1 c = Ok (h2, sub) ->
     icontract h0 h1 c h2 sub) ->
  evolves h0 h ->
  (forall q, desc h0 p q -> has_leaf h q -> has_leaf h0 q) ->
  forall cs dn hi idx hf idxf,
    NoDup (dn ++ cs) -> (forall c, c ∈ dn ++ cs -> is_child h0 p c) ->
    lcontract h0 h dn hi idx ->
    foldM (index_child (indexed_leafs fuel) p) (hi, idx) cs = Ok (hf, idxf) ->
    lcontract h0 h (dn ++ cs) hf idxf.
Proof.
  intros Ht IH Hev Hpre cs.
  induction cs as [|c cs IHcs]; intros dn hi idx hf idxf Hnd Hch Hinv H.
  - injection H as <- <-. by rewrite app_nil_r.
  - cbn [foldM] in H. apply bind_Ok in H as ([h1 idx1] & H1 & H).
    change (c :: cs) with ([c] ++ cs) in *. rewrite app_assoc in *.
    eapply IHcs; [done..| |exact H].
    eapply index_child_contract; [done..| | |exact Hinv|exact H1].
    + intros c' Hc'. split.
      * apply Hch. apply elem_of_app. left. apply elem_of_app. by left.
      * intros ->. apply NoDup_app in Hnd as [Hnd _].
        apply NoDup_app in Hnd as (_ & Hnd & _).
        apply (Hnd c); [done | by left].
    + apply Hch. apply elem_of_app. left. apply elem_of_app. right. by left.
Qed.

(** The contract of [indexed_leafs] on a store that evolved from a forest
    [h0], when it is called on a node below which nothing has been
    aggregated yet. *)
Lemma indexed_leafs_contract h0 fuel : tree_store h0 ->
  forall h p h' idx,
    evolves h0 h ->
    (forall q, desc h0 p q -> has_leaf h q -> has_leaf h0 q) ->
    ~ has_leaf h p -> indexed_leafs fuel h p = Ok (h', idx) ->
    icontract h0 h p h' idx.
Proof.
  intros Ht.
  induction fuel as [|fuel IH]; intros h p h' idx Hev Hpre Hnl H; [done|].
  simpl in H.
  apply bind_Ok in H as (pn & Hpn & H). apply node_at_Ok in Hpn.
  apply bind_Ok in H as (cs & Hcs & H). apply getitem_Ok in Hcs.
  apply bind_Ok in H as ([hi idxi] & Hloop & H).
  apply bind_Ok in H as (vs & Hvs & H). injection H as <- <-.
  assert (Hp0 : exists n0, h0 !! p = Some n0 /\ children n0 = Some cs).
  { assert (Hp : p < length h0).
    { rewrite <- (proj1 Hev). by eapply lookup_lt_Some. }
    apply lookup_lt_is_Some_2 in Hp as [n0 Hn0]. exists n0. split; [done|].
    destruct (children_evolves _ _ _ _ _ Hev Hn0 Hpn) as (Hc & _). congruence. }
  destruct Hp0 as (n0 & Hn0 & Hcs0).
  assert (Hchild : forall c, c ∈ cs <-> is_child h0 p c).
  { intros c. split; [intros Hc; by exists n0, cs|].
    intros (n & cs' & Hn & Hcs' & Hc). congruence. }
  assert (Hinv : lcontract h0 h ([] ++ cs) hi idxi).
  { eapply index_children_contract; [done..| | |apply lcontract_init|exact Hloop].
    - simpl. by eapply (ts_nodup _ Ht).
    - intros c Hc. by apply Hchild. }
  simpl in Hinv. destruct Hinv as [Lev Lframe Lsound Lcomp Lpar].
  assert (Hdown : forall l, desc h0 p l -> l <> p ->
                    exists c, c ∈ cs /\ desc h0 c l).
  { intros l Hl Hne. apply rtc_inv in Hl as [->|(c & Hc & Hl)]; [done|].
    exists c. split; [by apply Hchild | done]. }
  split.
  - intros q Hq. rewrite list_lookup_alter_ne.
    + apply Lframe. intros c Hc Hd. apply Hq.
      eapply rtc_l; [|exact Hd]. by apply Hchild.
    + intros <-. by apply Hq.
  - intros k l Hl.
    destruct (Lsound _ _ Hl) as (n & Hn & Hnk & Hnl' & c & Hc & Hd).
    exists n. repeat (split; [done|]).
    eapply rtc_l; [|exact Hd]. by apply Hchild.
  - intros l n Hl Hn Hleaf.
    destruct (decide (l = p)) as [->|Hne].
    + destruct Hnl. destruct Hleaf as [v Hv].
      eapply has_leaf_evolves; [exact Hev|]. by exists n, v.
    + destruct (Hdown _ Hl Hne) as (c & Hc & Hd). by eapply Lcomp.
  - intros l q Hl Hne Hq.
    destruct (Hdown _ Hl Hne) as (c & Hc & Hd).
    destruct (Lpar _ _ _ Hc Hd Hq) as (n' & Hn' & Hpar).
    exists n'. split; [|done]. by rewrite list_lookup_alter_ne.
Qed.

(** Every node of a parsed dump is below the first. *)
Lemma parsed_reachable st :
  pinv st -> forall l, l < length (p_heap st) -> desc (p_heap st) 0 l.
Proof.
  intros Hinv l. induction l as [l IH] using lt_wf_ind. intros Hl.
  destruct (decide (l = 0)) as [->|Hne]; [done|].
  destruct (pi_child _ Hinv l) as (p & n & cs & Hn & Hcs & Hin); [lia|].
  pose proof (pi_gt _ Hinv _ _ _ _ Hn Hcs Hin).
  apply (rtc_r _ p); [apply IH; lia|]. by exists n, cs.
Qed.

Lemma parsed_indexed_contract text_dump h0 root h idx :
  parse_tree_dump text_dump = Ok (h0, Some root) ->
  (forall l n, h0 !! l = Some n -> is_Some (leaf n) -> children n = None) ->
  indexed_leafs (length h0) h0 root = Ok (h, idx) ->
  root = 0 /\ ~ has_leaf h0 0 /\ icontract h0 h0 0 h idx /\ ipost h0 0 h idx /\
  (forall l, l < length h0 -> desc h0 0 l) /\
  (forall p q c, is_child h0 p c -> is_child h0 q c -> p = q) /\
  (forall l n, h0 !! l = Some n -> parent n = None).
Proof.
  intros Hparse Hwf Hidx.
  destruct (parse_tree_dump_shape _ _ _ Hparse) as (st & <- & Hr & Hinv & Hs).
  assert (Hroot : root = 0).
  { destruct (p_stack st) as [|s stack] eqn:Hst.
    - destruct (pi_empty _ Hinv Hst) as [_ Hnone]. congruence.
    - rewrite (pi_root _ Hinv) in Hr by (by rewrite Hst). congruence. }
  subst root.
  assert (Ht : tree_store (p_heap st)).
  { split; [apply Hinv | apply (ps_unique _ _ Hs) | | exact Hwf].
    intros p n cs Hn Hcs. by destruct (ps_nodup _ _ Hs _ _ _ Hn Hcs). }
  destruct (indexed_leafs_children _ _ _ _ Hidx) as (rn & rcs & Hrn & Hrcs).
  assert (Hnl : ~ has_leaf (p_heap st) 0).
  { intros (m & v & Hm & Hv). rewrite Hrn in Hm. injection Hm as <-.
    rewrite (Hwf _ _ Hrn) in Hrcs by eauto. done. }
  split; [done|]. split; [done|]. split; [|split; [|split; [|split]]].
  - eapply indexed_leafs_contract; [done|apply evolves_refl|done..].
  - eapply indexed_leafs_spec; [apply Hinv|done..].
  - by apply parsed_reachable.
  - apply (ps_unique _ _ Hs).
  - apply (pi_parent _ Hinv).
Qed.

(** X13: the index that [indexed_leafs] returns for a parsed dump (in
    which, as the format has it, no leaf has children) holds the leaves of
    the dump and nothing else: a key of the index is the node id of the leaf
    it maps to, and the node id of every leaf is a key.  When no two leaves
    share a node id, the index maps every leaf's id to that leaf. *)
Theorem indexed_leafs_index text_dump h0 root h idx :
  parse_tree_dump text_dump = Ok (h0, Some root) ->
  (forall l n, h0 !! l = Some n -> is_Some (leaf n) -> children n = None) ->
  indexed_leafs (length h0) h0 root = Ok (h, idx) ->
  (forall k l, idx !! k = Some l ->
     exists n, h0 !! l = Some n /\ nodeid n = k /\ is_Some (leaf n)) /\
  (forall l n, h0 !! l = Some n -> is_Some (leaf n) ->
     is_Some (idx !! nodeid n)) /\
  ((forall l1 l2 n1 n2,
      h0 !! l1 = Some n1 -> h0 !! l2 = Some n2 ->
      is_Some (leaf n1) -> is_Some (leaf n2) ->
      nodeid n1 = nodeid n2 -> l1 = l2) ->
   forall l n, h0 !! l = Some n -> is_Some (leaf n) ->
     idx !! nodeid n = Some l).
Proof.
  intros Hparse Hwf Hidx.
  destruct (parsed_indexed_contract _ _ _ _ _ Hparse Hwf Hidx)
    as (-> & Hnl & [Cf Cs Cc Cp] & _ & Hreach & _).
  assert (Hsound : forall k l, idx !! k = Some l ->
            exists n, h0 !! l = Some n /\ nodeid n = k /\ is_Some (leaf n)).
  { intros k l Hl. destruct (Cs _ _ Hl) as (n & Hn & Hk & Hleaf & _). eauto. }
  assert (Hcomplete : forall l n, h0 !! l = Some n -> is_Some (leaf n) ->
            is_Some (idx !! nodeid n)).
  { intros l n Hn Hleaf. eapply Cc; [|exact Hn|exact Hleaf].
    apply Hreach. by eapply lookup_lt_Some. }
  split; [exact Hsound|]. split; [exact Hcomplete|].
  intros Hid l n Hn Hleaf.
  destruct (Hcomplete _ _ Hn Hleaf) as [l' Hl'].
  destruct (Hsound _ _ Hl') as (n' & Hn' & Hk & Hleaf').
  by rewrite (Hid _ _ _ _ Hn Hn' Hleaf Hleaf' (eq_sym Hk)).
Qed.



(** ** The ensemble: each tree on its own, and the order of the trees *)

Lemma trees_weights_ok fn dls : forall s fw,
  is_ok (foldM (tree_weights fn) (s, fw) dls) = true <->
  Forall (fun dl =>
            is_ok (tree_weights fn (0%Q, replicate (length fw) 0%Q) dl) = true)
         dls.
Proof.
  induction dls as [|x dls IH]; intros s fw; cbn [foldM].
  - split; [constructor | done].
  - rewrite Forall_cons.
    destruct (tree_weights fn (s, fw) x) as [[s1 fw1]|e] eqn:H1.
    + destruct (tree_weights_updates _ _ _ _ _ _ H1) as (v & upd & -> & -> & Hany).
      cbn [mbind result_bind]. rewrite IH, length_apply_updates.
      rewrite (Hany 0%Q (replicate (length fw) 0%Q))
        by (by rewrite length_replicate).
      cbn [is_ok]. tauto.
    + cbn [mbind result_bind is_ok]. split; [done|]. intros [H0 _].
      destruct (tree_weights fn (0%Q, replicate (length fw) 0%Q) x)
        as [[s0 fw0]|e0] eqn:H2; [|discriminate H0].
      destruct (tree_weights_updates _ _ _ _ _ _ H2) as (v & upd & _ & _ & Hany).
      rewrite (Hany s fw) in H1 by (by rewrite length_replicate). done.
Qed.

(** X19: the decomposition of an ensemble returns exactly when the
    decomposition of each of its trees, taken alone with its leaf id,
    returns. *)
Theorem target_feature_weights_returns_iff leaf_ids tree_dumps fn :
  is_ok (target_feature_weights leaf_ids tree_dumps fn) = true <->
  Forall (fun dl => is_ok (target_feature_weights [dl.2] [dl.1] fn) = true)
         (zip tree_dumps leaf_ids).
Proof.
  unfold target_feature_weights. rewrite trees_weights_ok.
  rewrite length_replicate. apply Forall_proper; [|done].
  intros [d id]. change (zip [(d, id).1] [(d, id).2]) with [(d, id)].
  cbn [foldM].
  by destruct (tree_weights fn (0%Q, replicate (len fn) 0%Q) (d, id)).
Qed.

Lemma alter_add_comm (a : list Q) i x j y :
  Forall2 Qeq (alter (fun v => (v + x)%Q) i (alter (fun v => (v + y)%Q) j a))
              (alter (fun v => (v + y)%Q) j (alter (fun v => (v + x)%Q) i a)).
Proof.
  revert i j. induction a as [|v a IH]; intros i j; [constructor|].
  assert (Hrefl : forall b : list Q, Forall2 Qeq b b).
  { intros b. apply Forall2_same_length_lookup. split; [done|].
    intros k p q Hp Hq. rewrite Hp in Hq. by injection Hq as <-. }
  destruct i as [|i], j as [|j]; simpl; constructor; try done; try ring.
  apply IH.
Qed.

Lemma apply_updates_alter_comm upd : forall a i x,
  Forall2 Qeq (apply_updates upd (alter (fun v => (v + x)%Q) i a))
              (alter (fun v => (v + x)%Q) i (apply_updates upd a)).
Proof.
  induction upd as [|u upd IH]; intros a i x.
  - apply Forall2_same_length_lookup. split; [done|].
    intros k p q Hp Hq. simpl in *. rewrite Hp in Hq. by injection Hq as <-.
  - change (apply_updates (u :: upd) ?b)
      with (apply_updates upd (alter (fun y => (y + u.2)%Q) u.1 b)).
    etrans; [|apply IH]. apply apply_updates_veq, alter_add_comm.
Qed.

Lemma apply_updates_comm u1 : forall u2 a,
  Forall2 Qeq (apply_updates u1 (apply_updates u2 a))
              (apply_updates u2 (apply_updates u1 a)).
Proof.
  induction u1 as [|u u1 IH]; intros u2 a.
  - apply Forall2_same_length_lookup. split; [done|].
    intros k p q Hp Hq. simpl in *. rewrite Hp in Hq. by injection Hq as <-.
  - change (apply_updates (u :: u1) ?b)
      with (apply_updates u1 (alter (fun y => (y + u.2)%Q) u.1 b)).
    etrans; [|apply IH]. apply apply_updates_veq. symmetry.
    apply apply_updates_alter_comm.
Qed.

Lemma trees_weights_perm fn dls dls' :
  Permutation dls dls' ->
  forall s0 fw0 s fw,
    foldM (tree_weights fn) (s0, fw0) dls = Ok (s, fw) ->
    exists s' fw',
      foldM (tree_weights fn) (s0, fw0) dls' = Ok (s', fw') /\
      (s' == s)%Q /\ Forall2 Qeq fw' fw.
Proof.
  assert (Hrefl : forall b : list Q, Forall2 Qeq b b).
  { intros b. apply Forall2_same_length_lookup. split; [done|].
    intros k p q Hp Hq. rewrite Hp in Hq. by injection Hq as <-. }
  induction 1 as [|x l l' _ IH|x y l|l l' l'' _ IH1 _ IH2];
    intros s0 fw0 s fw H.
  - exists s, fw. split; [done|]. split; [reflexivity | apply Hrefl].
  - cbn [foldM] in H |- *. apply bind_Ok in H as ([s1 fw1] & H1 & H).
    rewrite H1. cbn [mbind result_bind]. by apply IH.
  - cbn [foldM] in H |- *.
    apply bind_Ok in H as ([s1 fw1] & Hy & H).
    apply bind_Ok in H as ([s2 fw2] & Hx & H).
    destruct (tree_weights_updates _ _ _ _ _ _ Hy) as (vy & uy & -> & -> & Hyany).
    destruct (tree_weights_updates _ _ _ _ _ _ Hx) as (vx & ux & -> & -> & Hxany).
    destruct (trees_weights_updates _ _ _ _ _ _ H) as (vs & ul & -> & -> & Hany).
    rewrite !length_apply_updates in *.
    rewrite (Hxany s0 fw0) by done. cbn [mbind result_bind].
    rewrite (Hyany (s0 + vx)%Q (apply_updates ux fw0))
      by (by rewrite length_apply_updates).
    cbn [mbind result_bind].
    rewrite (Hany (s0 + vx + vy)%Q (apply_updates uy (apply_updates ux fw0)))
      by (by rewrite !length_apply_updates).
    eexists _, _. split; [done|]. split.
    + rewrite !fold_left_Qplus. ring.
    + apply apply_updates_veq, apply_updates_comm.
  - destruct (IH1 _ _ _ _ H) as (s1 & fw1 & H1 & Hs1 & Hfw1).
    destruct (IH2 _ _ _ _ H1) as (s2 & fw2 & H2 & Hs2 & Hfw2).
    exists s2, fw2. split; [done|]. split; [by rewrite Hs2|].
    by etrans.
Qed.

(** X20: the order of the trees does not matter: when the decomposition
    of an ensemble returns, it returns for the same trees (each with its
    leaf id) in any other order, with an equal score and an equal vector. *)
Theorem target_feature_weights_order leaf_ids tree_dumps leaf_ids' tree_dumps'
    fn score fw :
  Permutation (zip tree_dumps leaf_ids) (zip tree_dumps' leaf_ids') ->
  target_feature_weights leaf_ids tree_dumps fn = Ok (score, fw) ->
  exists score' fw',
    target_feature_weights leaf_ids' tree_dumps' fn = Ok (score', fw') /\
    (score' == score)%Q /\ Forall2 Qeq fw' fw.
Proof.
  unfold target_feature_weights. intros Hperm H.
  by eapply trees_weights_perm.
Qed.

(** ** The dumps that the parser accepts *)

Lemma place_node_returns st d nd :
  if (if (d =? 0)%nat then (length (p_stack st) =? 0)%nat
      else (d <=? length (p_stack st))%nat)
  then exists st', place_node st d nd = Ok st' /\ length (p_stack st') = S d
  else is_ok (place_node st d nd) = false.
Proof.
  unfold place_node. destruct (Nat.eqb_spec d 0) as [->|Hd].
  - destruct (p_stack st) as [|s stack]; simpl; [by eexists | done].
  - destruct (Nat.leb_spec d (length (p_stack st))) as [Hle|Hgt].
    + destruct (Nat.ltb_spec (length (p_stack st)) d) as [?|_]; [lia|].
      set (stack := if (d <? length (p_stack st))%nat then _ else _).
      assert (Hlen : length stack = d).
      { subst stack. destruct (Nat.ltb_spec d (length (p_stack st))).
        - rewrite length_take. lia.
        - lia. }
      destruct (last stack) as [top|] eqn:Htop.
      * eexists. split; [done|]. simpl. rewrite length_app, Hlen. simpl. lia.
      * apply last_None in Htop. rewrite Htop in Hlen. simpl in Hlen. lia.
    + destruct (Nat.ltb_spec (length (p_stack st)) d) as [_|?]; [done | lia].
Qed.

Lemma parse_lines_returns_iff lines : forall st,
  is_ok (foldM parse_step st lines) = true <->
  Forall (fun line => is_ok (_parse_dump_line line) = true)
         (List.filter nonblank lines) /\
  depths_from (length (p_stack st))
    (line_depth <$> List.filter nonblank lines) = true.
Proof.
  induction lines as [|line lines IH]; intros st.
  - simpl. split; [by split | done].
  - destruct line as [|a line]; [apply IH|].
    cbn [foldM parse_step List.filter nonblank fmap list_fmap depths_from].
    rewrite Forall_cons.
    destruct (_parse_dump_line (String a line)) as [[d nd]|e] eqn:Hline.
    + apply parse_line_depth in Hline as Hd. rewrite <- Hd.
      cbn [mbind result_bind]. pose proof (place_node_returns st d nd) as Hp.
      destruct (if (d =? 0)%nat then _ else _).
      * destruct Hp as (st' & -> & Hlen). cbn [mbind result_bind].
        rewrite IH, Hlen. simpl. tauto.
      * destruct (place_node st d nd); [done|]. simpl. split; [done|].
        by intros [_ ?].
    + simpl. split; [done|]. by intros [[? _] _].
Qed.

Lemma depths_from_spec ds : forall n,
  depths_from n ds = true <->
  (forall d0, ds !! 0 = Some d0 -> if (d0 =? 0)%nat then n = 0 else d0 <= n) /\
  (forall i d d', ds !! i = Some d -> ds !! S i = Some d' -> 0 < d' <= S d).
Proof.
  induction ds as [|d ds IH]; intros n; simpl.
  - split; [|done]. intros _. split; intros; done.
  - rewrite andb_true_iff, IH. split.
    + intros (Hd & H0 & Hnext). split.
      * intros d0 [= <-]. destruct (d =? 0)%nat.
        -- by apply Nat.eqb_eq. 
        -- by apply Nat.leb_le.
      * intros [|i] x y Hx Hy; simpl in Hx, Hy.
        -- injection Hx as <-. specialize (H0 _ Hy).
           destruct (Nat.eqb_spec y 0); lia.
        -- by eapply Hnext.
    + intros [H0 Hnext]. split; [|split].
      * specialize (H0 d eq_refl). destruct (d =? 0)%nat.
        -- by apply Nat.eqb_eq.
        -- by apply Nat.leb_le.
      * intros d0 Hd0. pose proof (Hnext 0 d d0 eq_refl Hd0).
        destruct (Nat.eqb_spec d0 0); lia.
      * intros i x y Hx Hy. by apply (Hnext (S i)).
Qed.

(** X18: the dumps that [parse_tree_dump] accepts: it returns exactly when
    every non-empty line has one of the two shapes and a value that
    [float()] accepts, the first non-empty line has no tab, and every later
    one has at least one tab and at most one more than the line before it. *)
Theorem parse_tree_dump_returns_iff text_dump :
  let ls := List.filter nonblank (split_lines text_dump) in
  is_ok (parse_tree_dump text_dump) = true <->
  Forall (fun line => is_ok (_parse_dump_line line) = true) ls /\
  (forall l0, ls !! 0 = Some l0 -> line_depth l0 = 0) /\
  (forall i l l', ls !! i = Some l -> ls !! S i = Some l' ->
     0 < line_depth l' <= S (line_depth l)).
Proof.
  intros ls. unfold parse_tree_dump, parse_lines.
  pose proof (parse_lines_returns_iff (split_lines text_dump) (PState [] None []))
    as H. fold ls in H. simpl in H.
  destruct (foldM parse_step _ _) as [st|e]; simpl in *;
    rewrite H, depths_from_spec; clear H.
  all: split.
  all: intros (Hall & H0 & Hnext); split; [done|]; split.
  - intros l0 Hl0. specialize (H0 (line_depth l0)).
    rewrite list_lookup_fmap, Hl0 in H0. specialize (H0 eq_refl).
    destruct (Nat.eqb_spec (line_depth l0) 0); lia.
  - intros i l l' Hl Hl'. apply (Hnext i); by rewrite list_lookup_fmap, ?Hl, ?Hl'.
  - intros d0 Hd0. rewrite list_lookup_fmap in Hd0.
    destruct (ls !! 0) as [l0|] eqn:Hl0; [|done]. injection Hd0 as <-.
    rewrite (H0 _ eq_refl). done.
  - intros i d d' Hd Hd'. rewrite list_lookup_fmap in Hd, Hd'.
    destruct (ls !! i) as [l|] eqn:Hl; [|done].
    destruct (ls !! S i) as [l'|] eqn:Hl'; [|done].
    injection Hd as <-. injection Hd' as <-. by eapply Hnext.
  - intros l0 Hl0. specialize (H0 (line_depth l0)).
    rewrite list_lookup_fmap, Hl0 in H0. specialize (H0 eq_refl).
    destruct (Nat.eqb_spec (line_depth l0) 0); lia.
  - intros i l l' Hl Hl'. apply (Hnext i); by rewrite list_lookup_fmap, ?Hl, ?Hl'.
  - intros d0 Hd0. rewrite list_lookup_fmap in Hd0.
    destruct (ls !! 0) as [l0|] eqn:Hl0; [|done]. injection Hd0 as <-.
    rewrite (H0 _ eq_refl). done.
  - intros i d d' Hd Hd'. rewrite list_lookup_fmap in Hd, Hd'.
    destruct (ls !! i) as [l|] eqn:Hl; [|done].
    destruct (ls !! S i) as [l'|] eqn:Hl'; [|done].
    injection Hd as <-. injection Hd' as <-. by eapply Hnext.
Qed.

(** ** The errors of the indexer *)

Lemma index_children_returns fuel h p :
  (forall h1 c, children_gt h1 -> ~ has_leaf h1 c -> c < length h1 ->
     length h1 - c <= fuel ->
     (exists h2 sub, indexed_leafs fuel h1 c = Ok (h2, sub)) \/
     indexed_leafs fuel h1 c = Raise (KeyError (KStr "children"))) ->
  children_gt h -> length h - p <= S fuel ->
  forall cs hi idx,
    evolves h hi -> (forall c, c ∈ cs -> p < c < length h) ->
    (exists hf idxf,
       foldM (index_child (indexed_leafs fuel) p) (hi, idx) cs = Ok (hf, idxf) /\
       evolves hi hf /\ forall c, c ∈ cs -> has_leaf hf c) \/
    foldM (index_child (indexed_leafs fuel) p) (hi, idx) cs =
      Raise (KeyError (KStr "children")).
Proof.
  intros IH Hgt Hfuel cs.
  induction cs as [|c cs IHcs]; intros hi idx Hev Hcs.
  - left. exists hi, idx. split; [done|]. split; [apply evolves_refl|].
    intros c Hc. by apply elem_of_nil in Hc.
  - destruct (Hcs c) as [Hpc Hcl]; [left|].
    pose proof (evolves_set_parent hi p c) as E1.
    set (h1 := alter (set_parent p) c hi) in *.
    assert (Hev1 : evolves h h1) by (by eapply evolves_trans).
    assert (Hc1 : c < length h1) by (rewrite (proj1 Hev1); done).
    destruct (lookup_lt_is_Some_2 _ _ Hc1) as [cn Hcn].
    assert (Hstep :
      (exists h2 idx2,
         index_child (indexed_leafs fuel) p (hi, idx) c = Ok (h2, idx2) /\
         evolves h1 h2 /\ has_leaf h2 c) \/
      index_child (indexed_leafs fuel) p (hi, idx) c =
        Raise (KeyError (KStr "children"))).
    { unfold index_child. fold h1. apply node_at_Ok in Hcn as Hcn'.
      rewrite Hcn'. simpl. destruct (leaf cn) as [v|] eqn:Hv.
      - left. eexists _, _. split; [done|]. split; [apply evolves_refl|].
        by exists cn, v.
      - assert (Hnl : ~ has_leaf h1 c).
        { intros (n & v & Hn & Hv'). congruence. }
        assert (Hgt1 : children_gt h1) by (by eapply children_gt_evolves).
        destruct (IH h1 c) as [(h2 & sub & Hrec)|Hrec]; try done.
        { rewrite (proj1 Hev1). lia. }
        + left. rewrite Hrec. simpl. eexists _, _. split; [done|].
          pose proof (indexed_leafs_spec _ _ _ _ _ Hgt1 Hnl Hrec) as Hpost.
          split; [apply Hpost | apply Hpost].
        + right. by rewrite Hrec. }
    cbn [foldM].
    destruct Hstep as [(h2 & idx2 & Hstep & Hev2 & Hleaf2)|Hstep];
      [|right; by rewrite Hstep].
    rewrite Hstep. simpl.
    destruct (IHcs h2 idx2) as [(hf & idxf & Hrest & Hevf & Hleafs)|Hrest].
    { eapply evolves_trans; [exact Hev1 | exact Hev2]. }
    { intros c' Hc'. apply Hcs. by right. }
    + left. exists hf, idxf. split; [done|].
      split; [eapply evolves_trans; [exact E1|]; by eapply evolves_trans|].
      intros c' [->|Hc']%elem_of_cons; [by eapply has_leaf_evolves | auto].
    + by right.
Qed.

Lemma indexed_leafs_returns fuel : forall h p,
  children_gt h -> ~ has_leaf h p -> p < length h -> length h - p <= fuel ->
  (exists h' idx, indexed_leafs fuel h p = Ok (h', idx)) \/
  indexed_leafs fuel h p = Raise (KeyError (KStr "children")).
Proof.
  induction fuel as [|fuel IH]; intros h p Hgt Hnl Hp Hfuel; [lia|].
  destruct (lookup_lt_is_Some_2 _ _ Hp) as [pn Hpn].
  simpl. apply node_at_Ok in Hpn as Hpn'. rewrite Hpn'. simpl.
  destruct (children pn) as [cs|] eqn:Hcs; [|by right]. simpl.
  destruct (index_children_returns fuel h p IH Hgt Hfuel cs h ∅)
    as [(hf & idxf & Hloop & Hev & Hleafs)|Hloop].
  { apply evolves_refl. }
  { intros c Hc. by eapply Hgt. }
  - left. destruct (child_leafs_total hf cs Hleafs) as [vs Hvs].
    rewrite Hloop. simpl. rewrite Hvs. simpl. by eexists _, _.
  - right. by rewrite Hloop.
Qed.

(** X17: on a parsed dump (in which no leaf has children) the indexer
    returns exactly when the first node is not a leaf and every node
    without a ['leaf'] has children; when it does not return, it raises the
    [KeyError] of the missing ['children'], and nothing else. *)
Theorem indexed_leafs_returns_iff text_dump h0 root :
  parse_tree_dump text_dump = Ok (h0, Some root) ->
  (forall l n, h0 !! l = Some n -> is_Some (leaf n) -> children n = None) ->
  ((exists h idx, indexed_leafs (length h0) h0 root = Ok (h, idx)) <->
   ~ has_leaf h0 root /\ branches_have_children h0) /\
  (is_ok (indexed_leafs (length h0) h0 root) = false ->
   indexed_leafs (length h0) h0 root = Raise (KeyError (KStr "children"))).
Proof.
  intros Hparse Hwf.
  destruct (parse_tree_dump_store _ _ _ Hparse) as (-> & Hlen & Hgt & Hpar & Hchild).
  split; [split|].
  - intros (h & idx & Hidx).
    destruct (indexed_leafs_children _ _ _ _ Hidx) as (rn & rcs & Hrn & Hrcs).
    assert (Hroot : ~ has_leaf h0 0).
    { intros (m & v & Hm & Hv). rewrite Hrn in Hm. injection Hm as <-.
      rewrite (Hwf _ _ Hrn) in Hrcs by eauto. done. }
    split; [done|].
    pose proof (indexed_leafs_spec _ _ _ _ _ Hgt Hroot Hidx) as Hpost.
    intros l n Hn Hleaf.
    assert (Hl : has_leaf h l).
    { eapply indexed_leafs_reaches; try done. by eapply lookup_lt_Some. }
    destruct (ip_agg _ _ _ _ Hpost _ Hl) as [(m & v & Hm & Hv)|Hagg];
      [congruence|].
    destruct Hagg as (n' & cs & vs & Hn' & Hcs & _).
    destruct (children_evolves _ _ _ _ _ (ip_evolves _ _ _ _ Hpost) Hn Hn')
      as (Hc & _).
    rewrite <- Hc, Hcs. eauto.
  - intros [Hroot Hb]. apply indexed_leafs_total; [done..|lia].
  - destruct (h0 !! 0) as [rn|] eqn:Hrn.
    + destruct (leaf rn) as [v|] eqn:Hv.
      * intros _. assert (Hc : children rn = None) by (apply (Hwf _ _ Hrn); eauto).
        destruct h0 as [|x h0']; [done|]. simpl in Hrn. injection Hrn as ->.
        simpl. by rewrite Hc.
      * assert (Hroot : ~ has_leaf h0 0).
        { intros (m & w & Hm & Hw). congruence. }
        destruct (indexed_leafs_returns (length h0) h0 0 Hgt Hroot Hlen
                    ltac:(lia)) as [(h & idx & Hr)| Hr]; by rewrite Hr.
    + apply lookup_ge_None in Hrn. lia.
Qed.

(** ** The text report *)

Lemma fold_left_max xs : forall x,
  x <= fold_left Nat.max xs x /\
  (forall y, y ∈ xs -> y <= fold_left Nat.max xs x) /\
  (fold_left Nat.max xs x = x \/ fold_left Nat.max xs x ∈ xs).
Proof.
  induction xs as [|y xs IH]; intros x; simpl.
  - split; [done|]. split; [|by left]. intros y Hy. by apply elem_of_nil in Hy.
  - destruct (IH (Nat.max x y)) as (Hle & Hall & Hin).
    split; [lia|]. split.
    + intros z [->|Hz]%elem_of_cons; [lia | auto].
    + destruct Hin as [Heq|Hin]; [|right; by right].
      rewrite Heq. destruct (Nat.max_spec x y) as [[_ ->]|[_ ->]];
        [right; left | by left].
Qed.

Lemma _maxlen_spec {A} (features : list (string * A)) :
  (forall it, it ∈ features -> String.length it.1 <= _maxlen features) /\
  (features = [] /\ _maxlen features = 0 \/
   exists it, it ∈ features /\ String.length it.1 = _maxlen features).
Proof.
  destruct features as [|it rest]; simpl.
  - split; [|by left]. intros it Hit. by apply elem_of_nil in Hit.
  - destruct (fold_left_max (map (fun it => String.length it.1) rest)
                (String.length it.1)) as (Hle & Hall & Hin).
    split.
    + intros it' [->|Hit]%elem_of_cons; [done|]. apply Hall.
      apply list_elem_of_In, in_map_iff. exists it'.
      split; [done | by apply list_elem_of_In].
    + right. destruct Hin as [Heq|Hin].
      * exists it. split; [left | done].
      * apply list_elem_of_In, in_map_iff in Hin as (it' & Heq & Hin).
        exists it'. split; [right; by apply list_elem_of_In | done].
Qed.

Lemma length_str_repeat c n : String.length (str_repeat c n) = n.
Proof. induction n as [|n IH]; simpl; [done | by rewrite IH]. Qed.

Lemma length_string_app (s t : string) :
  String.length (s +:+ t) = String.length s + String.length t.
Proof. induction s as [|c s IH]; simpl; [done | by rewrite IH]. Qed.

Lemma length_rjust s width :
  String.length (rjust s width) = Nat.max (String.length s) width.
Proof.
  unfold rjust. rewrite length_string_app, length_str_repeat. lia.
Qed.

Lemma map_result_Ok {A B} (f : A -> result B) l bs :
  map_result f l = Ok bs <-> Forall2 (fun a b => f a = Ok b) l bs.
Proof.
  revert bs. induction l as [|a l IH]; intros bs; simpl.
  - split; [intros [= <-]; constructor | by intros ->%Forall2_nil_inv_l].
  - split.
    + intros H. apply bind_Ok in H as (b & Hb & H).
      apply bind_Ok in H as (bs' & Hbs & H). injection H as <-.
      constructor; [done | by apply IH].
    + intros H. apply Forall2_cons_inv_l in H as (b & bs' & Hb & H & ->).
      rewrite Hb. simpl. apply IH in H. rewrite H. done.
Qed.

Lemma _max_feature_length_Ok {C} (ce : class_explanation C) n :
  (w ← getitem "feature_weights" (ce_feature_weights ce);
   _max_feature_length w) = Ok n <->
  exists w pos neg,
    ce_feature_weights ce = Some w /\ fw_pos w = Some pos /\
    fw_neg w = Some neg /\ n = _maxlen (pos ++ neg).
Proof.
  unfold _max_feature_length. split.
  - intros H. apply bind_Ok in H as (w & Hw & H). apply getitem_Ok in Hw.
    apply bind_Ok in H as (pos & Hpos & H). apply getitem_Ok in Hpos.
    apply bind_Ok in H as (neg & Hneg & H). apply getitem_Ok in Hneg.
    injection H as <-. by exists w, pos, neg.
  - intros (w & pos & neg & -> & Hpos & Hneg & ->). simpl.
    rewrite Hpos. simpl. rewrite Hneg. done.
Qed.

(** X15: when [_rjust_size] returns a width, there is a class explanation,
    every feature name of every class explanation fits in the width, so
    that every name right-justified to it is exactly that long, and the
    width is 0 or the length of one of the names. *)
Theorem rjust_size_aligns {C} (classes : list (class_explanation C)) sz :
  _rjust_size classes = Ok sz ->
  classes <> [] /\
  (forall ce, ce ∈ classes ->
     exists w pos neg,
       ce_feature_weights ce = Some w /\ fw_pos w = Some pos /\
       fw_neg w = Some neg /\
       forall nc, nc ∈ pos ++ neg -> String.length (rjust nc.1 sz) = sz) /\
  (sz = 0 \/
   exists ce w pos neg nc,
     ce ∈ classes /\ ce_feature_weights ce = Some w /\ fw_pos w = Some pos /\
     fw_neg w = Some neg /\ nc ∈ pos ++ neg /\ String.length nc.1 = sz).
Proof.
  unfold _rjust_size. intros H. apply bind_Ok in H as (sizes & Hsizes & H).
  apply map_result_Ok in Hsizes.
  destruct sizes as [|x xs]; [done|]. injection H as <-.
  destruct (fold_left_max xs x) as (Hle & Hall & Hin).
  set (sz := fold_left Nat.max xs x) in *.
  assert (Hbound : forall n, n ∈ x :: xs -> n <= sz).
  { intros n [->|Hn]%elem_of_cons; auto. }
  assert (Hsz : sz ∈ x :: xs).
  { destruct Hin as [->|Hin]; [left | by right]. }
  split; [|split].
  - intros ->. by apply Forall2_nil_inv_l in Hsizes.
  - intros ce Hce. apply list_elem_of_lookup in Hce as [i Hi].
    destruct (Forall2_lookup_l _ _ _ _ _ Hsizes Hi) as (n & Hn & Hce).
    apply _max_feature_length_Ok in Hce as (w & pos & neg & Hw & Hp & Hn' & ->).
    exists w, pos, neg. repeat (split; [done|]). intros nc Hnc.
    rewrite length_rjust.
    pose proof (proj1 (_maxlen_spec (pos ++ neg)) _ Hnc).
    pose proof (Hbound _ (list_elem_of_lookup_2 _ _ _ Hn)). lia.
  - apply list_elem_of_lookup in Hsz as [i Hi].
    destruct (Forall2_lookup_r _ _ _ _ _ Hsizes Hi) as (ce & Hce & Hlen).
    apply _max_feature_length_Ok in Hlen as (w & pos & neg & Hw & Hp & Hn & Hsz).
    destruct (proj2 (_maxlen_spec (pos ++ neg))) as [[_ H0]|(nc & Hnc & Hlen)].
    + left. congruence.
    + right. exists ce, w, pos, neg, nc.
      split; [by eapply list_elem_of_lookup_2|]. repeat (split; [done|]).
      congruence.
Qed.

Lemma _rjust_size_ok {C} (classes : list (class_explanation C)) :
  is_ok (_rjust_size classes) = true <->
  classes <> [] /\
  Forall (fun ce => exists w, ce_feature_weights ce = Some w /\
                      is_Some (fw_pos w) /\ is_Some (fw_neg w)) classes.
Proof.
  unfold _rjust_size. split.
  - intros H.
    destruct (map_result _ classes) as [sizes|e] eqn:Hsizes; [|done].
    apply map_result_Ok in Hsizes. simpl in H.
    destruct sizes as [|x xs]; [done|]. split.
    + intros ->. by apply Forall2_nil_inv_l in Hsizes.
    + apply Forall_forall. intros ce Hce.
      apply list_elem_of_lookup in Hce as [i Hi].
      destruct (Forall2_lookup_l _ _ _ _ _ Hsizes Hi) as (n & _ & Hce).
      apply _max_feature_length_Ok in Hce as (w & pos & neg & Hw & Hp & Hn & _).
      exists w. rewrite Hp, Hn. eauto.
  - intros [Hne Hall].
    assert (Hs : exists sizes,
      Forall2 (fun (e : class_explanation C) b =>
                 (w ← getitem "feature_weights" (ce_feature_weights e);
                  _max_feature_length w) = Ok b) classes sizes).
    { clear Hne. induction Hall as [|ce cs (w & Hw & [pos Hp] & [neg Hn]) _ IH].
      - exists []. constructor.
      - destruct IH as [sizes IH]. exists (_maxlen (pos ++ neg) :: sizes).
        constructor; [|done]. apply _max_feature_length_Ok. by exists w, pos, neg. }
    destruct Hs as [sizes Hs]. pose proof Hs as Hs'.
    apply map_result_Ok in Hs. rewrite Hs. simpl.
    destruct sizes as [|x xs]; [|done].
    apply Forall2_nil_inv_r in Hs'. done.
Qed.

Lemma class_lines_ok {C} (repr : C -> string) fmt_coef sz ce :
  is_ok (class_lines C repr fmt_coef sz ce) = true <-> class_keys ce.
Proof.
  unfold class_lines, class_keys. destruct ce as [cls w]. simpl. split.
  - destruct cls as [cls|]; [|done]. simpl.
    destruct w as [[pos neg pr nr]|]; [|done]. simpl.
    destruct pos; [|done]. destruct neg; [|done]. simpl.
    destruct pr; [|done]. destruct nr; [|done]. simpl. intros _.
    split; [eauto|]. eexists. split; [done|]. simpl. eauto.
  - intros ([c ->] & w' & -> & [p Hp] & [n Hn] & [pr Hpr] & [nr Hnr]). simpl.
    rewrite Hp. simpl. rewrite Hn. simpl. rewrite Hpr. simpl. rewrite Hnr. done.
Qed.

Lemma class_loop_ok {C} (repr : C -> string) fmt_coef sz classes : forall lines,
  is_ok (foldM (fun lines ce =>
                  ls ← class_lines C repr fmt_coef sz ce; Ok (lines ++ ls))
               lines classes) = true <->
  Forall class_keys classes.
Proof.
  induction classes as [|ce cs IH]; intros lines; cbn [foldM].
  - split; [constructor | done].
  - pose proof (class_lines_ok repr fmt_coef sz ce) as Hce.
    destruct (class_lines C repr fmt_coef sz ce) as [ls|e]; simpl in *.
    + rewrite IH. split.
      * intros H. constructor; [by apply Hce | done].
      * by intros [_ H]%Forall_cons.
    + split; [done|]. intros [H _]%Forall_cons. by apply Hce in H.
Qed.

(** X16: [format_as_text] returns exactly when the explanation has a
    ['classifier'] and, if it has ['classes'], these are at least one and
    each has every key that is read; in particular an empty list of
    classes makes it fail with the [ValueError] of [max]. *)
Theorem format_as_text_returns_iff {C} (repr : C -> string) fmt_coef
    fmt_importance PY2 (e : explanation C) :
  (is_ok (format_as_text C repr fmt_coef fmt_importance PY2 e) = true <->
   is_Some (ex_classifier e) /\
   forall classes, ex_classes e = Some classes ->
     classes <> [] /\ Forall class_keys classes) /\
  (is_Some (ex_classifier e) -> ex_classes e = Some [] ->
   format_as_text C repr fmt_coef fmt_importance PY2 e =
     Raise (ValueError "max() arg is an empty sequence")).
Proof.
  unfold format_as_text, format_lines. destruct e as [cl me de cs fi]. simpl.
  split.
  - destruct cl as [cl|]; simpl; [|split; [done | by intros [[? ?] _]]].
    set (lines := match de with Some _ => _ | None => _ end). clearbody lines.
    destruct cs as [cs|]; simpl.
    + pose proof (_rjust_size_ok cs) as Hsz.
      destruct (_rjust_size cs) as [sz|ex]; simpl in *.
      * pose proof (class_loop_ok repr fmt_coef sz cs lines) as Hloop.
        destruct (foldM _ lines cs) as [ls|ex]; simpl in *.
        -- split; [|by destruct fi].
           intros _. split; [eauto|]. intros ? [= <-].
           split; [by apply Hsz | by apply Hloop].
        -- split; [done|]. intros [_ H]. destruct (H cs eq_refl) as [_ Hk].
           by apply Hloop in Hk.
      * split; [done|]. intros [_ H]. destruct (H cs eq_refl) as [Hne Hk].
        assert (is_true false); [|done]. apply Hsz. split; [done|].
        eapply Forall_impl; [exact Hk|].
        intros ce (_ & w & Hw & Hp & Hn & _). eauto.
    + split; [|by destruct fi]. intros _. split; [eauto | done].
  - intros [c ->] ->. done.
Qed.

End Xgboost.

(** * The scenario of the spec, and other concrete dumps *)



(** C1 (counterexample): on the dump as the spec writes it, whose leaf lines
    are not indented, the decomposition does not return a score and a
    vector: the second line has depth 0 while the stack is not empty, and the
    assertion of the parser fails. *)
Lemma scenario_flat_dump_rejected :
  target_feature_weights decimal_float [2%Z] [dump_flat] fn_f0 =
    Raise AssertionError.
Proof. vm_compute. reflexivity. Qed.

(** C1 (amended): on the same tree with its leaves indented by a tab, with
    the feature names of the scenario and the assigned leaf 2, the
    decomposition returns the score 2/5 and a vector of two entries that sum
    to 2/5: the change 2/5 - 1/10 = 3/10 is added at the index that
    [feature_idx] computes from the split token [f0], and the aggregate value
    1/10 of the root at the bias index.  The dump without indentation is
    rejected. *)
Theorem scenario_decomposition :
  exists i fw,
    feature_idx "f0" = Ok i /\
    target_feature_weights decimal_float [2%Z] [dump_tree] fn_f0 = Ok (2 # 5, fw) /\
    length fw = 2 /\ (Qsum fw == 2 # 5)%Q /\
    (mean [-1 # 5; 2 # 5] == 1 # 10)%Q /\
    ((2 # 5) - mean [-1 # 5; 2 # 5] == 3 # 10)%Q /\
    (a ← np_iadd [0; 0]%Q i (Ok ((2 # 5) - mean [-1 # 5; 2 # 5])%Q);
     np_iadd a (bias_idx fn_f0) (Ok (mean [-1 # 5; 2 # 5]))) = Ok fw /\
    target_feature_weights decimal_float [2%Z] [dump_flat] fn_f0 =
      Raise AssertionError.
Proof.
  eexists _, _. split; [vm_compute; reflexivity|].
  split; [vm_compute; reflexivity|].
  repeat split; vm_compute; reflexivity.
Qed.

(** C6 (the failing input): a dump of a single leaf line is parsed into a
    tree whose root is that leaf; [indexed_leafs] then looks up the
    ['children'] of the root, which has none, and raises [KeyError] instead
    of returning the index of the one leaf. *)
Theorem single_leaf_not_indexed :
  exists h0,
    parse_tree_dump decimal_float dump_single_leaf = Ok (h0, Some 0) /\
    length h0 = 1 /\ has_leaf h0 0 /\
    indexed_leafs (length h0) h0 0 = Raise (KeyError (KStr "children")) /\
    target_feature_weights decimal_float [0%Z] [dump_single_leaf] fn_f0 =
      Raise (KeyError (KStr "children")).
Proof.
  eexists. split; [vm_compute; reflexivity|].
  split; [done|]. split; [by eexists _, _|].
  split; vm_compute; reflexivity.
Qed.

(** C2 (counterexample): the sum is not within 1e-9 of the leaf value in
    binary64.  For the leaves 100000000 and 0.1 the score is the binary64
    number nearest to 0.1, the value of the assigned leaf, and the entries of
    the vector, added exactly or in binary64, give a number that is more
    than 1e-9 away from it; for the leaves 100000000000000000 and 1 the
    score is 1 and every entry of the vector is 0. *)
Lemma binary64_sum_misses_leaf_value :
  decimal_float64 "0.1" = Some (3602879701896397 # 36028797018963968) /\
  target_feature_weights_with decimal_float64 f64_add f64_sub f64_mean
    [2%Z] [dump_large] fn_f0 =
    Ok (3602879701896397 # 36028797018963968, [0; 13421773 # 134217728]%Q) /\
  (1 # 1000000000 <
   Qabs (Qsum [0; 13421773 # 134217728]%Q -
         (3602879701896397 # 36028797018963968)))%Q /\
  (1 # 1000000000 <
   Qabs (fold_left f64_add [0; 13421773 # 134217728]%Q 0 -
         (3602879701896397 # 36028797018963968)))%Q /\
  target_feature_weights_with decimal_float64 f64_add f64_sub f64_mean
    [2%Z] [dump_huge] fn_f0 = Ok (1, [0; 0])%Q.
Proof. repeat split; vm_compute; reflexivity. Qed.

(** C2 (witness): the scenario, leaf 2. *)
Lemma feature_weights_sum_to_leaf_value_witness :
  (2 # 5 == 2 # 5)%Q /\
  (Qsum [0; 5000 # 12500]%Q == 2 # 5)%Q /\
  length [0; 5000 # 12500]%Q = len fn_f0 /\
  (forall n0 v0,
     ~ has_leaf tree_parsed 0 -> tree_parsed !! 2 = Some n0 ->
     leaf n0 = Some v0 -> v0 = 2 # 5).
Proof.
  apply (feature_weights_sum_to_leaf_value decimal_float dump_tree 2 fn_f0
           tree_parsed 0 tree_indexed tree_index 2 (set_parent 0 node_no));
    vm_compute; reflexivity.
Defined.


(** C4 (counterexample): a second line of depth 0 does not raise a
    [ValueError]: the assertion fails. *)
Lemma second_root_is_assertion_error :
  parse_tree_dump decimal_float dump_two_roots = Raise AssertionError /\
  forall msg, parse_tree_dump decimal_float dump_two_roots <> Raise (ValueError msg).
Proof. split; [vm_compute; reflexivity | intros msg; vm_compute; discriminate]. Qed.

(** C4 (witness): a line of neither shape, a line two levels below the
    previous one, and a second line of depth 0. *)
Lemma parse_tree_dump_rejects_witness :
  parse_tree_dump decimal_float dump_bad_line =
    Raise (ValueError "Line in unexpected format: 1:leaf") /\
  parse_tree_dump decimal_float dump_depth_jump =
    Raise (ValueError "Unexpected dump structure") /\
  parse_tree_dump decimal_float dump_two_roots = Raise AssertionError.
Proof.
  split; [|split].
  - apply (proj1 (parse_tree_dump_rejects decimal_float dump_bad_line
                    ["0:[f0<0.5] yes=1,no=2,missing=1"] "1:leaf" []
                    (PState [node_root_bare] (Some 0) [0])
                    eq_refl eq_refl ltac:(discriminate)));
      vm_compute; reflexivity.
  - apply (proj1 (proj2 (parse_tree_dump_rejects decimal_float dump_depth_jump
                    ["0:[f0<0.5] yes=1,no=2,missing=1"]
                    (tab +:+ tab +:+ "1:leaf=-0.2") []
                    (PState [node_root_bare] (Some 0) [0])
                    eq_refl eq_refl ltac:(discriminate)))
             2 node_yes);
      [vm_compute; reflexivity | simpl; lia].
  - apply (proj2 (proj2 (parse_tree_dump_rejects decimal_float dump_two_roots
                    ["0:leaf=1"] "0:leaf=2" []
                    (PState [node_one] (Some 0) [0])
                    eq_refl eq_refl ltac:(discriminate)))
             node_two);
      [vm_compute; reflexivity | discriminate].
Defined.

(** C5 (counterexample): the split token [f1] has no index in the mapping
    of the scenario, and the decomposition returns a result; the split token
    [age] has an index in its mapping, and the decomposition fails. *)
Lemma mapping_is_not_consulted :
  (feature_index fn_f0 "f1" = None /\
   is_ok (target_feature_weights decimal_float [2%Z] [dump_f1] fn_f0) = true) /\
  (feature_index fn_age "age" = Some 0%Z /\
   target_feature_weights decimal_float [2%Z] [dump_age] fn_age =
     Raise AttributeError).
Proof. repeat split; vm_compute; reflexivity. Qed.

(** C5 (witness): the scenario, leaf 2, where the decomposition returns;
    the split token [age], for which it raises [AttributeError]; and the
    split token [f5] with a vector of two entries, for which it raises
    [IndexError]. *)
Lemma target_feature_weights_fails_iff_witness :
  is_ok (target_feature_weights decimal_float [2%Z] [dump_tree] fn_f0) = true /\
  target_feature_weights decimal_float [2%Z] [dump_age] fn_age =
    Raise AttributeError /\
  target_feature_weights decimal_float [2%Z] [dump_f5] fn_f5 =
    Raise IndexError.
Proof.
  assert (Hroot : forall h n, h !! 0 = Some n -> leaf n = None -> ~ has_leaf h 0).
  { intros h n Hn Hleaf (m & v & Hm & Hv). congruence. }
  split; [|split].
  - destruct (target_feature_weights_fails_iff decimal_float dump_tree 2 fn_f0
                tree_parsed 0 tree_indexed tree_index 2)
      as (up & Hup & Hiff & _).
    + vm_compute. reflexivity.
    + by apply (Hroot tree_parsed node_root).
    + vm_compute. reflexivity.
    + vm_compute. reflexivity.
    + vm_compute in Hup. injection Hup as <-. apply Hiff. split.
      * intros p Hp. apply list_elem_of_singleton in Hp as ->.
        vm_compute. reflexivity.
      * vm_compute. reflexivity.
  - destruct (target_feature_weights_fails_iff decimal_float dump_age 2 fn_age
                tree_parsed_age 0 tree_indexed_age tree_index 2)
      as (up & Hup & _ & _ & _ & Hfirst & _).
    + vm_compute. reflexivity.
    + by apply (Hroot tree_parsed_age (with_split "age" node_root)).
    + vm_compute. reflexivity.
    + vm_compute. reflexivity.
    + vm_compute in Hup. injection Hup as <-.
      apply (proj1 (Hfirst 0 0 _ "age" eq_refl ltac:(intros; lia) eq_refl
                      eq_refl)).
      vm_compute. reflexivity.
  - destruct (target_feature_weights_fails_iff decimal_float dump_f5 2 fn_f5
                tree_parsed_f5 0 tree_indexed_f5 tree_index 2)
      as (up & Hup & _ & _ & _ & Hfirst & _).
    + vm_compute. reflexivity.
    + by apply (Hroot tree_parsed_f5 (with_split "f5" node_root)).
    + vm_compute. reflexivity.
    + vm_compute. reflexivity.
    + vm_compute in Hup. injection Hup as <-.
      apply (proj2 (Hfirst 0 0 _ "f5" eq_refl ltac:(intros; lia) eq_refl
                      eq_refl) (str "5")).
      * vm_compute. reflexivity.
      * vm_compute. reflexivity.
Defined.

(** C7 (counterexample): a branch line whose comparison character is [>],
    and one whose feature token has a dot, are lines in an unexpected
    format. *)
Lemma other_operators_rejected :
  _parse_dump_line decimal_float "0:[f0>0.5] yes=1,no=2,missing=1" =
    Raise (ValueError
             "Line in unexpected format: 0:[f0>0.5] yes=1,no=2,missing=1") /\
  _parse_dump_line decimal_float "0:[petal.width<0.5] yes=1,no=2,missing=1" =
    Raise (ValueError
             "Line in unexpected format: 0:[petal.width<0.5] yes=1,no=2,missing=1").
Proof. split; vm_compute; reflexivity. Qed.

(** C7 (witness): the first line of the scenario. *)
Lemma parse_dump_line_branch_witness :
  wf_fields root_fields = true /\
  decimal_float "0.5" = Some (1 # 2) /\
  _parse_dump_line decimal_float "0:[f0<0.5] yes=1,no=2,missing=1" =
    Ok (0, node_root_bare).
Proof.
  split; [reflexivity|]. split; [vm_compute; reflexivity|].
  apply (parse_dump_line_branch decimal_float root_fields (1 # 2));
    vm_compute; reflexivity.
Defined.

(** C8 (counterexample): five dumps with two estimators per class are not
    rejected: three results are returned. *)
Lemma five_dumps_not_rejected :
  exists r,
    prediction_feature_weights decimal_float [2; 1; 2; 1; 2]%Z
      [dump_tree; dump_tree; dump_tree; dump_tree; dump_tree] 2 fn_f0 = Ok r /\
    length r = 3.
Proof. eexists. split; [vm_compute; reflexivity | reflexivity]. Qed.

(** C8 (witness): one dump that does not parse, and two leaf ids. *)
Lemma prediction_feature_weights_chunks_witness :
  length ["not a dump"] <> length [2; 1]%Z /\
  prediction_feature_weights decimal_float [2; 1]%Z ["not a dump"] 2 fn_f0 =
    Raise AssertionError.
Proof.
  split; [discriminate|].
  apply (proj1 (prediction_feature_weights_chunks decimal_float fn_f0)).
  discriminate.
Defined.

(** C9 (witness): the scenario with [missing=1] and with [missing=2]. *)
Lemma missing_noninterference_witness :
  Forall2 missing_variant (split_lines dump_tree) (split_lines dump_tree_missing2) /\
  target_feature_weights decimal_float [2%Z] [dump_tree] fn_f0 =
  target_feature_weights decimal_float [2%Z] [dump_tree_missing2] fn_f0.
Proof.
  assert (H : Forall2 missing_variant (split_lines dump_tree)
                (split_lines dump_tree_missing2)).
  { change (Forall2 missing_variant
              [branch_line root_fields; tab +:+ "1:leaf=-0.2";
               tab +:+ "2:leaf=0.4"; ""]
              [branch_line (with_missing (str "2") root_fields);
               tab +:+ "1:leaf=-0.2"; tab +:+ "2:leaf=0.4"; ""]).
    repeat constructor. }
  split; [exact H|].
  apply (missing_noninterference decimal_float dump_tree dump_tree_missing2 2
           fn_f0 H).
Defined.


(** * Further examples *)

(** X1 (witness): the last line of [dump_tree]. *)
Lemma parse_dump_line_leaf_witness :
  wf_leaf_fields leaf_fields_no = true /\
  _parse_dump_line decimal_float (leaf_line leaf_fields_no) =
    (v ← float decimal_float (lf_value leaf_fields_no);
     Ok (length (lf_tabs leaf_fields_no),
         Node None (int_of_digits (lf_id leaf_fields_no)) None None None None
              None (Some v) None None)).
Proof.
  split; [reflexivity|].
  apply (parse_dump_line_leaf decimal_float leaf_fields_no). reflexivity.
Defined.

(** X2 (witness): [dump_tree] with and without empty lines. *)
Lemma parse_tree_dump_skips_blank_lines_witness :
  List.filter nonblank (split_lines dump_tree_spaced) =
    List.filter nonblank (split_lines dump_tree) /\
  parse_tree_dump decimal_float dump_tree_spaced =
    parse_tree_dump decimal_float dump_tree.
Proof.
  split; [vm_compute; reflexivity|].
  apply (parse_tree_dump_skips_blank_lines decimal_float dump_tree_spaced
           dump_tree).
  vm_compute. reflexivity.
Defined.

(** X3 (witness): the store of [dump_tree]. *)
Lemma parse_tree_dump_tree_witness :
  (forall p c, is_child tree_parsed p c -> p < c < length tree_parsed) /\
  (forall c, 0 < c < length tree_parsed ->
     exists p, is_child tree_parsed p c /\
               forall q, is_child tree_parsed q c -> q = p) /\
  (forall p n cs, tree_parsed !! p = Some n -> children n = Some cs ->
     NoDup cs /\ cs <> []) /\
  (forall l n, tree_parsed !! l = Some n -> parent n = None).
Proof.
  apply (parse_tree_dump_tree decimal_float dump_tree tree_parsed (Some 0)).
  vm_compute. reflexivity.
Defined.

(** X4 (witness): the lines and the nodes of [dump_tree]. *)
Lemma parse_tree_dump_nodes_witness :
  Forall2 (node_of_line decimal_float)
          (List.filter nonblank (split_lines dump_tree)) tree_parsed /\
  Some 0 = match tree_parsed with [] => None | _ :: _ => Some 0 end.
Proof.
  apply (parse_tree_dump_nodes decimal_float dump_tree tree_parsed (Some 0)).
  vm_compute. reflexivity.
Defined.

(** X5 (witness): the indentation of [dump_tree]. *)
Lemma parse_tree_dump_indentation_witness :
  let ls := List.filter nonblank (split_lines dump_tree) in
  (forall l0, ls !! 0 = Some l0 -> line_depth l0 = 0) /\
  (forall p c, is_child tree_parsed p c ->
     exists lp lc,
       ls !! p = Some lp /\ ls !! c = Some lc /\
       line_depth lc = S (line_depth lp) /\
       forall j lj, p < j < c -> ls !! j = Some lj ->
         line_depth lp < line_depth lj).
Proof.
  apply (parse_tree_dump_indentation decimal_float dump_tree tree_parsed
           (Some 0)).
  vm_compute. reflexivity.
Defined.

(** X6 (witness): two copies of the tree of the scenario, with the leaves
    2 and 1. *)
Lemma target_feature_weights_sums_to_score_witness :
  (Qsum [0; 31250000 # 156250000]%Q == 5 # 25)%Q /\
  length [0; 31250000 # 156250000]%Q = len fn_f0.
Proof.
  apply (target_feature_weights_sums_to_score decimal_float [2; 1]%Z
           [dump_tree; dump_tree] fn_f0).
  vm_compute. reflexivity.
Defined.

(** X7 (witness): the same two trees. *)
Lemma target_feature_weights_additive_witness :
  exists rs,
    Forall2 (fun dl r =>
               target_feature_weights_with decimal_float Qplus Qminus mean
                 [dl.2] [dl.1] fn_f0 = Ok r)
            (zip [dump_tree; dump_tree] [2; 1]%Z) rs /\
    (5 # 25 == Qsum rs.*1)%Q /\
    Forall2 Qeq [0; 31250000 # 156250000]%Q
            (fold_right vadd (replicate (len fn_f0) 0%Q) rs.*2).
Proof.
  apply (target_feature_weights_additive decimal_float [2; 1]%Z
           [dump_tree; dump_tree] fn_f0).
  vm_compute. reflexivity.
Defined.

(** X8 (witness): the scenario, leaf 2: the split of the root changes the
    entry 1, and the bias is the entry 1. *)
Lemma untested_feature_gets_zero_witness :
  [0; 5000 # 12500]%Q !! 0 = Some 0%Q.
Proof.
  apply (untested_feature_gets_zero decimal_float dump_tree 2 fn_f0
           tree_parsed 0 tree_indexed tree_index 2 [2; 0] (2 # 5)).
  - vm_compute. reflexivity.
  - vm_compute. reflexivity.
  - vm_compute. reflexivity.
  - vm_compute. reflexivity.
  - vm_compute. reflexivity.
  - vm_compute. lia.
  - intros p Hp. apply list_elem_of_singleton in Hp as ->.
    vm_compute. discriminate.
  - vm_compute. discriminate.
Defined.

(** X9 (witness): the tree of the scenario has no leaf 7. *)
Lemma target_feature_weights_lookup_failures_witness :
  target_feature_weights decimal_float [7%Z] [newlines 2] fn_f0 =
    Raise TypeError /\
  target_feature_weights decimal_float [7%Z] [dump_tree] fn_f0 =
    Raise (KeyError (KInt 7)).
Proof.
  split.
  - apply (proj1 (target_feature_weights_lookup_failures decimal_float 7 fn_f0)).
  - apply (proj2 (target_feature_weights_lookup_failures decimal_float 7 fn_f0)
             dump_tree tree_parsed 0 tree_indexed tree_index);
      vm_compute; reflexivity.
Defined.

(** X10 (witness): two trees, one estimator per class. *)
Lemma prediction_feature_weights_classes_witness :
  let r := [(2 # 5, [0; 5000 # 12500]); (-1 # 5, [0; -2500 # 12500])]%Q in
  0 < 1 /\
  length r = (length [2; 1]%Z + 1 - 1) / 1 /\
  forall k sw, r !! k = Some sw ->
    target_feature_weights decimal_float
      (slice [2; 1]%Z (k * 1) (k * 1 + 1))
      (slice [dump_tree; dump_tree] (k * 1) (k * 1 + 1)) fn_f0 = Ok sw /\
    length sw.2 = len fn_f0.
Proof.
  apply (proj2 (prediction_feature_weights_classes decimal_float [2; 1]%Z
                  [dump_tree; dump_tree] 1 fn_f0 eq_refl)).
  vm_compute. reflexivity.
Defined.

(** X11 (witness): the three largest coefficients in absolute value. *)
Lemma get_top_features_signs_witness :
  Forall (fun nv => (0 < nv.2)%Q /\
            exists i, i ∈ selected_for_pos example_k_largest example_coef
                            (TopNum 3) /\
                      feature_at example_names example_coef i nv)
         [("age", 1 # 2); ("bias", 1 # 4)] /\
  Forall (fun nv => (nv.2 < 0)%Q /\
            exists i, i ∈ selected_for_neg example_k_largest example_k_smallest
                            example_coef (TopNum 3) /\
                      feature_at example_names example_coef i nv)
         [("height", -3 # 4)].
Proof.
  apply (get_top_features_signs example_k_largest example_k_smallest
           example_names example_coef (TopNum 3));
    vm_compute; reflexivity.
Defined.

(** X12 (witness): at most one positive and two negative features. *)
Lemma get_top_features_complete_witness :
  (forall i, i ∈ selected_for_pos example_k_largest example_coef
                   (TopSeq [1; 2]) ->
     exists nv, feature_at example_names example_coef i nv /\
                ((0 < nv.2)%Q -> nv ∈ [("age", 1 # 2)])) /\
  (forall i, i ∈ selected_for_neg example_k_largest example_k_smallest
                   example_coef (TopSeq [1; 2]) ->
     exists nv, feature_at example_names example_coef i nv /\
                ((nv.2 < 0)%Q -> nv ∈ [("height", -3 # 4)])).
Proof.
  apply (get_top_features_complete example_k_largest example_k_smallest
           example_names example_coef (TopSeq [1; 2]));
    vm_compute; reflexivity.
Defined.

Lemma tree_parsed_leaves l n :
  tree_parsed !! l = Some n -> is_Some (leaf n) -> children n = None.
Proof.
  destruct l as [|[|[|l]]]; intros Hn [v Hv]; simpl in Hn;
    [|by injection Hn as <-..|done].
  injection Hn as <-. discriminate Hv.
Defined.

(** X13 (witness): the index of the tree of the scenario. *)
Lemma indexed_leafs_index_witness :
  (forall k l, tree_index !! k = Some l ->
     exists n, tree_parsed !! l = Some n /\ nodeid n = k /\ is_Some (leaf n)) /\
  (forall l n, tree_parsed !! l = Some n -> is_Some (leaf n) ->
     is_Some (tree_index !! nodeid n)) /\
  ((forall l1 l2 n1 n2,
      tree_parsed !! l1 = Some n1 -> tree_parsed !! l2 = Some n2 ->
      is_Some (leaf n1) -> is_Some (leaf n2) ->
      nodeid n1 = nodeid n2 -> l1 = l2) ->
   forall l n, tree_parsed !! l = Some n -> is_Some (leaf n) ->
     tree_index !! nodeid n = Some l).
Proof.
  apply (indexed_leafs_index decimal_float dump_tree tree_parsed 0
           tree_indexed tree_index).
  - vm_compute. reflexivity.
  - exact tree_parsed_leaves.
  - vm_compute. reflexivity.
Defined.


(** X15 (witness): the longest of [age], [bias] and [height] has six
    characters. *)
Lemma rjust_size_aligns_witness :
  example_classes <> [] /\
  (forall ce, ce ∈ example_classes ->
     exists w pos neg,
       ce_feature_weights ce = Some w /\ fw_pos w = Some pos /\
       fw_neg w = Some neg /\
       forall nc, nc ∈ pos ++ neg -> String.length (rjust nc.1 6) = 6) /\
  (6 = 0 \/
   exists ce w pos neg nc,
     ce ∈ example_classes /\ ce_feature_weights ce = Some w /\
     fw_pos w = Some pos /\ fw_neg w = Some neg /\ nc ∈ pos ++ neg /\
     String.length nc.1 = 6).
Proof.
  apply (rjust_size_aligns example_classes 6). vm_compute. reflexivity.
Defined.

(** X16 (witness): an explanation with one class, and one with an empty
    list of classes. *)
Lemma format_as_text_returns_iff_witness :
  is_ok (format_as_text string id example_fmt example_fmt false
           example_explanation) = true /\
  format_as_text string id example_fmt example_fmt false example_no_classes =
    Raise (ValueError "max() arg is an empty sequence").
Proof.
  split.
  - apply (proj2 (proj1 (format_as_text_returns_iff id example_fmt example_fmt
                           false example_explanation))).
    split; [by eexists|]. intros classes [= <-]. split; [done|].
    repeat constructor; try (by eexists).
  - apply (proj2 (format_as_text_returns_iff id example_fmt example_fmt false
                    example_no_classes)); [by eexists | reflexivity].
Defined.

(** X17 (witness): the indexer returns on the tree of the scenario. *)
Lemma indexed_leafs_returns_iff_witness :
  ((exists h idx,
      indexed_leafs (length tree_parsed) tree_parsed 0 = Ok (h, idx)) <->
   ~ has_leaf tree_parsed 0 /\ branches_have_children tree_parsed) /\
  (is_ok (indexed_leafs (length tree_parsed) tree_parsed 0) = false ->
   indexed_leafs (length tree_parsed) tree_parsed 0 =
     Raise (KeyError (KStr "children"))).
Proof.
  apply (indexed_leafs_returns_iff decimal_float dump_tree tree_parsed 0).
  - vm_compute. reflexivity.
  - exact tree_parsed_leaves.
Defined.


(** X18 (witness): the dump of the scenario is accepted. *)
Lemma parse_tree_dump_returns_iff_witness :
  is_ok (parse_tree_dump decimal_float dump_tree) = true.
Proof.
  apply (proj2 (parse_tree_dump_returns_iff decimal_float dump_tree)).
  split; [|split].
  - vm_compute. repeat constructor.
  - intros l0 Hl0. vm_compute in Hl0. injection Hl0 as <-. reflexivity.
  - intros [|[|i]] l l' Hl Hl'; vm_compute in Hl, Hl'; try discriminate;
      injection Hl as <-; injection Hl' as <-; vm_compute; lia.
Defined.


(** X19 (witness): two copies of the tree of the scenario, with the leaves
    2 and 1. *)
Lemma target_feature_weights_returns_iff_witness :
  is_ok (target_feature_weights decimal_float [2; 1]%Z [dump_tree; dump_tree]
           fn_f0) = true.
Proof.
  apply (proj2 (target_feature_weights_returns_iff decimal_float [2; 1]%Z
                  [dump_tree; dump_tree] fn_f0)).
  repeat constructor.
Defined.

(** X20 (witness): the same two trees, in the other order. *)
Lemma target_feature_weights_order_witness :
  exists score' fw',
    target_feature_weights decimal_float [1; 2]%Z [dump_tree; dump_tree] fn_f0 =
      Ok (score', fw') /\
    (score' == 5 # 25)%Q /\ Forall2 Qeq fw' [0; 31250000 # 156250000]%Q.
Proof.
  apply (target_feature_weights_order decimal_float [2; 1]%Z
           [dump_tree; dump_tree] [1; 2]%Z [dump_tree; dump_tree] fn_f0).
  - simpl. apply perm_swap.
  - vm_compute. reflexivity.
Defined.
